(** * Pebble: version set, level-0 flush and block codec

    A shallow embedding of the parts of [version_set.go], [db.go] and
    [sstable/block.go] that the specification talks about, followed by the
    properties proved of them.

    Conventions.
    - A [uint64] is a [Z] in [0, 2^64); arithmetic that can leave the range
      is wrapped explicitly with [wrap64].  An [int32] is wrapped with
      [wrap32s].
    - Go errors are values of [error]; a nil error is [None].
    - A Go panic is the [Panic] outcome of [result].
    - Pointers into the Go heap are natural numbers indexing an explicit
      store, so that aliasing is visible. *)

From Stdlib Require Import ZArith List Lia Bool String Sorted.
From Stdlib.Strings Require Import Byte.
From stdpp Require Import base option list gmap.
Import ListNotations.
Local Open Scope Z_scope.

(** ** Machine integers *)

Definition wrap64 (z : Z) : Z := z mod 2 ^ 64.
Definition wrap32 (z : Z) : Z := z mod 2 ^ 32.
Definition wrap32s (z : Z) : Z := (z + 2 ^ 31) mod 2 ^ 32 - 2 ^ 31.
Definition uint64_max : Z := 2 ^ 64 - 1.

(** ** Errors and outcomes *)

Inductive error : Type :=
| ErrMsg (msg : string)            (* fmt.Errorf / errors.New *)
| ErrIO (code : nat)               (* an error handed back by a collaborator *)
| ErrClosed.                       (* the spec's [Closed] kind *)

Inductive result (A : Type) : Type :=
| Ok (a : A)
| Err (e : error)
| Panic (msg : string).
Arguments Ok {A} a.
Arguments Err {A} e.
Arguments Panic {A} msg.

(** [firstError] of db.go. *)
Definition firstError (err0 err1 : option error) : option error :=
  match err0 with
  | Some e => Some e
  | None => err1
  end.

(** ** Internal keys (package db)

    Modelled from the spec: package [db] is not part of the sources at hand.
    An internal key is a user key and a 64-bit trailer [seq << 8 | kind];
    it is encoded as the user key followed by the trailer, little-endian. *)

Record InternalKey : Type := MakeIKey {
  UserKey : list byte;
  Trailer : Z
}.

Definition InternalKeyKindMax : Z := 255.
Definition InternalKeyKindInvalid : Z := 255.
Definition InternalKeySeqNumMax : Z := 2 ^ 56 - 1.

Definition MakeInternalKey (userKey : list byte) (seqNum kind : Z) : InternalKey :=
  MakeIKey userKey (Z.lor (Z.shiftl seqNum 8) kind).

Definition MakeSearchKey (userKey : list byte) : InternalKey :=
  MakeInternalKey userKey InternalKeySeqNumMax InternalKeyKindMax.

Definition SeqNum (k : InternalKey) : Z := Z.shiftr (Trailer k) 8.
Definition Kind (k : InternalKey) : Z := Z.land (Trailer k) 255.

(** ** version_set.go *)

Module VersionSet.

Record fileMetadata : Type := {
  fileNum : Z;
  size : Z;
  smallest : InternalKey;
  largest : InternalKey
}.

Record newFileEntry : Type := {
  level : nat;
  meta : fileMetadata
}.

(** Modelled from the spec: the [versionEdit] struct is declared in
    version_edit.go, which is not among the sources; the fields are the
    ones the spec lists and version_set.go reads and writes. *)
Record versionEdit : Type := {
  ve_comparatorName : string;
  ve_logNumber : Z;
  ve_prevLogNumber : Z;
  ve_nextFileNumber : Z;
  ve_lastSequence : Z;
  ve_deletedFiles : list (nat * Z);
  ve_newFiles : list newFileEntry
}.

(** [ve.nextFileNumber = n; ve.lastSequence = s] *)
Definition stamp (ve : versionEdit) (n s : Z) : versionEdit :=
  {| ve_comparatorName := ve_comparatorName ve;
     ve_logNumber := ve_logNumber ve;
     ve_prevLogNumber := ve_prevLogNumber ve;
     ve_nextFileNumber := n;
     ve_lastSequence := s;
     ve_deletedFiles := ve_deletedFiles ve;
     ve_newFiles := ve_newFiles ve |}.

(** A [bulkVersionEdit] is modelled by the edits accumulated into it, in
    order; [accumulate] appends. *)
Definition bulkVersionEdit : Type := list versionEdit.
Definition accumulate (bve : bulkVersionEdit) (ve : versionEdit) : bulkVersionEdit :=
  bve ++ [ve].

(** Modelled from the spec: the [version] struct is declared in
    version.go, which is not among the sources.  A version is a
    reference count ([int32]) and the files of each level. *)
Record version : Type := {
  refs : Z;
  files : list (list fileMetadata)
}.

Definition with_refs (r : Z) (v : version) : version :=
  {| refs := r; files := files v |}.

(** The manifest and CURRENT operations that [logAndApply] and
    [createManifest] perform, in the order they are issued. *)
Inductive event : Type :=
| EvCreate (n : Z)                 (* fs.Create(MANIFEST-n) *)
| EvNext                           (* manifest.Next() *)
| EvEncode (ve : versionEdit)      (* ve.encode(w) *)
| EvFlush                          (* manifest.Flush() *)
| EvSync                           (* manifestFile.Sync() *)
| EvSetCurrent (n : Z)             (* setCurrentFile(dirname, fs, n) *)
| EvCloseManifest                  (* manifest.Close() *)
| EvCloseFile                      (* manifestFile.Close() *)
| EvRemove (n : Z)                 (* fs.Remove(MANIFEST-n) *)
| EvInstall (p : nat)              (* vs.append(newVersion) *)
| EvSetLogNumbers (l pl : Z).      (* vs.logNumber, vs.prevLogNumber assigned *)

Record versionSet : Type := {
  cmpName : string;
  vheap : list version;            (* the version objects, by address *)
  versions : list nat;             (* versionList: oldest first, current last *)
  logNumber : Z;
  prevLogNumber : Z;
  nextFileNumber : Z;
  logSeqNum : Z;
  visibleSeqNum : Z;
  manifestFileNumber : Z;
  manifest : bool;                 (* vs.manifest != nil *)
  trace : list event               (* what has been done to the file system *)
}.

Definition set_vheap (h : list version) (vs : versionSet) : versionSet :=
  {| cmpName := cmpName vs; vheap := h; versions := versions vs;
     logNumber := logNumber vs; prevLogNumber := prevLogNumber vs;
     nextFileNumber := nextFileNumber vs; logSeqNum := logSeqNum vs;
     visibleSeqNum := visibleSeqNum vs;
     manifestFileNumber := manifestFileNumber vs; manifest := manifest vs;
     trace := trace vs |}.
Definition set_versions (l : list nat) (vs : versionSet) : versionSet :=
  {| cmpName := cmpName vs; vheap := vheap vs; versions := l;
     logNumber := logNumber vs; prevLogNumber := prevLogNumber vs;
     nextFileNumber := nextFileNumber vs; logSeqNum := logSeqNum vs;
     visibleSeqNum := visibleSeqNum vs;
     manifestFileNumber := manifestFileNumber vs; manifest := manifest vs;
     trace := trace vs |}.
Definition set_logNumber (n : Z) (vs : versionSet) : versionSet :=
  {| cmpName := cmpName vs; vheap := vheap vs; versions := versions vs;
     logNumber := n; prevLogNumber := prevLogNumber vs;
     nextFileNumber := nextFileNumber vs; logSeqNum := logSeqNum vs;
     visibleSeqNum := visibleSeqNum vs;
     manifestFileNumber := manifestFileNumber vs; manifest := manifest vs;
     trace := trace vs |}.
Definition set_prevLogNumber (n : Z) (vs : versionSet) : versionSet :=
  {| cmpName := cmpName vs; vheap := vheap vs; versions := versions vs;
     logNumber := logNumber vs; prevLogNumber := n;
     nextFileNumber := nextFileNumber vs; logSeqNum := logSeqNum vs;
     visibleSeqNum := visibleSeqNum vs;
     manifestFileNumber := manifestFileNumber vs; manifest := manifest vs;
     trace := trace vs |}.
Definition set_nextFileNumber (n : Z) (vs : versionSet) : versionSet :=
  {| cmpName := cmpName vs; vheap := vheap vs; versions := versions vs;
     logNumber := logNumber vs; prevLogNumber := prevLogNumber vs;
     nextFileNumber := n; logSeqNum := logSeqNum vs;
     visibleSeqNum := visibleSeqNum vs;
     manifestFileNumber := manifestFileNumber vs; manifest := manifest vs;
     trace := trace vs |}.
Definition set_logSeqNum (n : Z) (vs : versionSet) : versionSet :=
  {| cmpName := cmpName vs; vheap := vheap vs; versions := versions vs;
     logNumber := logNumber vs; prevLogNumber := prevLogNumber vs;
     nextFileNumber := nextFileNumber vs; logSeqNum := n;
     visibleSeqNum := visibleSeqNum vs;
     manifestFileNumber := manifestFileNumber vs; manifest := manifest vs;
     trace := trace vs |}.
Definition set_manifestFileNumber (n : Z) (vs : versionSet) : versionSet :=
  {| cmpName := cmpName vs; vheap := vheap vs; versions := versions vs;
     logNumber := logNumber vs; prevLogNumber := prevLogNumber vs;
     nextFileNumber := nextFileNumber vs; logSeqNum := logSeqNum vs;
     visibleSeqNum := visibleSeqNum vs;
     manifestFileNumber := n; manifest := manifest vs;
     trace := trace vs |}.
Definition set_manifest (b : bool) (vs : versionSet) : versionSet :=
  {| cmpName := cmpName vs; vheap := vheap vs; versions := versions vs;
     logNumber := logNumber vs; prevLogNumber := prevLogNumber vs;
     nextFileNumber := nextFileNumber vs; logSeqNum := logSeqNum vs;
     visibleSeqNum := visibleSeqNum vs;
     manifestFileNumber := manifestFileNumber vs; manifest := b;
     trace := trace vs |}.
Definition emit (ev : event) (vs : versionSet) : versionSet :=
  {| cmpName := cmpName vs; vheap := vheap vs; versions := versions vs;
     logNumber := logNumber vs; prevLogNumber := prevLogNumber vs;
     nextFileNumber := nextFileNumber vs; logSeqNum := logSeqNum vs;
     visibleSeqNum := visibleSeqNum vs;
     manifestFileNumber := manifestFileNumber vs; manifest := manifest vs;
     trace := trace vs ++ [ev] |}.

(** *** File numbers *)

Definition markFileNumUsed (vs : versionSet) (fileNum : Z) : versionSet :=
  if nextFileNumber vs <=? fileNum
  then set_nextFileNumber (wrap64 (fileNum + 1)) vs
  else vs.

Definition nextFileNum (vs : versionSet) : Z * versionSet :=
  let x := nextFileNumber vs in
  (x, set_nextFileNumber (wrap64 (nextFileNumber vs + 1)) vs).

(** *** The version list

    Modelled from the spec: [versionList] and the methods [ref] and
    [unrefLocked] of [version] live in version.go.  The list is kept as
    the addresses of its nodes, oldest first; [back] of an empty list is
    the root sentinel, here [None].  [unrefLocked] drops one reference
    and unlinks the version when the count reaches zero. *)

Definition empty (vs : versionSet) : bool :=
  match versions vs with [] => true | _ => false end.

Definition back (vs : versionSet) : option nat := last (versions vs).

Definition ref (p : nat) (vs : versionSet) : versionSet :=
  set_vheap (alter (fun v => with_refs (wrap32s (refs v + 1)) v) p (vheap vs)) vs.

Definition refs_of (vs : versionSet) (p : nat) : Z :=
  from_option refs 0 (vheap vs !! p).

Definition unrefLocked (p : nat) (vs : versionSet) : versionSet :=
  let vs' :=
    set_vheap (alter (fun v => with_refs (wrap32s (refs v - 1)) v) p (vheap vs)) vs in
  if refs_of vs' p =? 0
  then set_versions (filter (fun q => q <> p) (versions vs')) vs'
  else vs'.

Definition pushBack (p : nat) (vs : versionSet) : versionSet :=
  set_versions (versions vs ++ [p]) vs.

Definition append (vs : versionSet) (v : nat) : result versionSet :=
  match vheap vs !! v with
  | None => Panic "invalid memory address or nil pointer dereference"
  | Some ver =>
      if negb (refs ver =? 0)
      then Panic "pebble: version should be unreferenced"
      else
        let vs1 :=
          if negb (empty vs)
          then match back vs with
               | Some b => unrefLocked b vs
               | None => vs
               end
          else vs in
        Ok (pushBack v (ref v vs1))
  end.

Definition currentVersion (vs : versionSet) : option nat := back vs.


(** *** Manifest I/O

    The file system, the record writer and [setCurrentFile] are external
    collaborators; what each call returns is given by an [ioEnv].  Every
    call is logged in [trace], whether it fails or not. *)

Record ioEnv : Type := {
  io_create : option error;          (* fs.Create(filename) in createManifest *)
  io_snapshotNext : option error;    (* manifest.Next() in createManifest *)
  io_snapshotEncode : option error;  (* snapshot.encode(w) *)
  io_next : option error;            (* vs.manifest.Next() *)
  io_encode : option error;          (* ve.encode(w) *)
  io_flush : option error;           (* vs.manifest.Flush() *)
  io_sync : option error;            (* vs.manifestFile.Sync() *)
  io_setCurrent : option error       (* setCurrentFile(...) *)
}.

(** One record of the manifest, as [load] sees it: [rr.Next] fails, or
    [ve.decode] fails, or an edit comes out. *)
Inductive recordOutcome : Type :=
| RecReadErr (e : error)
| RecDecodeErr (e : error)
| RecEdit (ve : versionEdit).

Record loadEnv : Type := {
  le_openCurrent : option error;              (* vs.fs.Open(CURRENT) *)
  le_statCurrent : error + Z;                 (* current.Stat(), stat.Size() *)
  le_readCurrent : error + list byte;         (* current.ReadAt(b, 0): b afterwards *)
  le_openManifest : list byte -> error + list recordOutcome
}.

Section Manifest.

(** Modelled from the spec: [bulkVersionEdit.apply] lives in
    version_edit.go.  It builds the files of the new version from the
    accumulated edits and a base version ([None] for a nil base), or fails
    when the level invariants would be violated.  The version it returns
    is freshly allocated, with no reference. *)
Variable apply :
  bulkVersionEdit -> option (list (list fileMetadata)) ->
  list (list fileMetadata) + error.

Variable io : ioEnv.

Definition result_state : Type := (result unit * versionSet)%type.

(** Issue a call, log it, and go on only if it returned no error. *)
Definition step (ev : event) (out : option error)
    (k : versionSet -> result_state) (vs : versionSet) : result_state :=
  let vs' := emit ev vs in
  match out with
  | Some e => (Err e, vs')
  | None => k vs'
  end.

Definition current_files (vs : versionSet) : list (list fileMetadata) :=
  match currentVersion vs with
  | Some p => from_option files [] (vheap vs !! p)
  | None => []
  end.

Fixpoint snapshot_level (lvl : nat) (fms : list fileMetadata) : list newFileEntry :=
  match fms with
  | [] => []
  | m :: rest => {| level := lvl; meta := m |} :: snapshot_level lvl rest
  end.

Fixpoint snapshot_files (lvl : nat) (fss : list (list fileMetadata)) : list newFileEntry :=
  match fss with
  | [] => []
  | fms :: rest => snapshot_level lvl fms ++ snapshot_files (S lvl) rest
  end.

Definition snapshot (vs : versionSet) : versionEdit :=
  {| ve_comparatorName := cmpName vs;
     ve_logNumber := 0; ve_prevLogNumber := 0;
     ve_nextFileNumber := 0; ve_lastSequence := 0;
     ve_deletedFiles := [];
     ve_newFiles := snapshot_files 0 (current_files vs) |}.

(** The deferred function of [createManifest]: on an error the writer,
    when it exists, is closed, the file, when it exists, is synced and
    closed, and the file is removed.  What these calls return is
    dropped. *)
Definition createManifest (vs : versionSet) : result_state :=
  let n := manifestFileNumber vs in
  let vs := emit (EvCreate n) vs in
  match io_create io with
  | Some e => (Err e, emit (EvRemove n) vs)
  | None =>
      let cleanup (e : error) (vs : versionSet) : result_state :=
        (Err e, emit (EvRemove n)
                  (emit EvCloseFile (emit EvSync (emit EvCloseManifest vs)))) in
      let vs := emit EvNext vs in
      match io_snapshotNext io with
      | Some e => cleanup e vs
      | None =>
          let vs := emit (EvEncode (snapshot vs)) vs in
          match io_snapshotEncode io with
          | Some e => cleanup e vs
          | None => (Ok tt, set_manifest true vs)
          end
      end
  end.

Definition logNumber_inconsistent (vs : versionSet) (ve : versionEdit) : bool :=
  negb (ve_logNumber ve =? 0)
  && ((ve_logNumber ve <? logNumber vs) || (nextFileNumber vs <=? ve_logNumber ve)).

(** The tail of [logAndApply], from [vs.manifest.Next()] on. *)
Definition writeAndInstall (ve : versionEdit) (newVersion : nat)
    (vs : versionSet) : result_state :=
  step EvNext (io_next io) (
  step (EvEncode ve) (io_encode io) (
  step EvFlush (io_flush io) (
  step EvSync (io_sync io) (
  step (EvSetCurrent (manifestFileNumber vs)) (io_setCurrent io) (fun vs =>
    match append vs newVersion with
    | Panic msg => (Panic msg, vs)
    | Err e => (Err e, vs)
    | Ok vs =>
        let vs := emit (EvInstall newVersion) vs in
        let vs := if negb (ve_logNumber ve =? 0)
                  then set_logNumber (ve_logNumber ve) vs else vs in
        let vs := if negb (ve_prevLogNumber ve =? 0)
                  then set_prevLogNumber (ve_prevLogNumber ve) vs else vs in
        (Ok tt, emit (EvSetLogNumbers (logNumber vs) (prevLogNumber vs)) vs)
    end))))) vs.

Definition logAndApply (vs : versionSet) (ve : versionEdit) : result_state :=
  if logNumber_inconsistent vs ve
  then (Panic "pebble: inconsistent versionEdit logNumber", vs)
  else
    let ve := stamp ve (nextFileNumber vs) (logSeqNum vs) in
    match apply (accumulate [] ve) (Some (current_files vs)) with
    | inr e => (Err e, vs)
    | inl fs =>
        let newVersion := length (vheap vs) in
        let vs := set_vheap (vheap vs ++ [{| refs := 0; files := fs |}]) vs in
        if manifest vs
        then writeAndInstall ve newVersion vs
        else
          match createManifest vs with
          | (Ok _, vs) => writeAndInstall ve newVersion vs
          | failed => failed
          end
    end.

(** *** load *)

Definition replay_edit (ve : versionEdit) (vs : versionSet) : versionSet :=
  let vs := if negb (ve_logNumber ve =? 0)
            then set_logNumber (ve_logNumber ve) vs else vs in
  let vs := if negb (ve_prevLogNumber ve =? 0)
            then set_prevLogNumber (ve_prevLogNumber ve) vs else vs in
  let vs := if negb (ve_nextFileNumber ve =? 0)
            then set_nextFileNumber (ve_nextFileNumber ve) vs else vs in
  if negb (ve_lastSequence ve =? 0)
  then set_logSeqNum (ve_lastSequence ve) vs else vs.

(** The [for] loop over the records of the manifest; the end of the list
    is [io.EOF]. *)
Fixpoint replay (recs : list recordOutcome) (bve : bulkVersionEdit)
    (vs : versionSet) : result (bulkVersionEdit * versionSet) :=
  match recs with
  | [] => Ok (bve, vs)
  | RecReadErr e :: _ => Err e
  | RecDecodeErr e :: _ => Err e
  | RecEdit ve :: rest =>
      if negb (String.eqb (ve_comparatorName ve) "")
         && negb (String.eqb (ve_comparatorName ve) (cmpName vs))
      then Err (ErrMsg "pebble: manifest file: comparer name from file != comparer name from db.Options")
      else replay rest (accumulate bve ve) (replay_edit ve vs)
  end.

Definition newline : byte := x0a.

(** [load] up to the end of the replay loop. *)
Definition load_replay (env : loadEnv) (name : string) (vs : versionSet)
    : result (bulkVersionEdit * versionSet) :=
  let vs := set_versions [] vs in
  let vs := set_nextFileNumber 2 vs in
  let vs :=
    {| cmpName := name; vheap := vheap vs; versions := versions vs;
       logNumber := logNumber vs; prevLogNumber := prevLogNumber vs;
       nextFileNumber := nextFileNumber vs; logSeqNum := logSeqNum vs;
       visibleSeqNum := visibleSeqNum vs;
       manifestFileNumber := manifestFileNumber vs; manifest := manifest vs;
       trace := trace vs |} in
  match le_openCurrent env with
  | Some _ => Err (ErrMsg "pebble: could not open CURRENT file for DB")
  | None =>
      match le_statCurrent env with
      | inl e => Err e
      | inr n =>
          if n =? 0 then Err (ErrMsg "pebble: CURRENT file for DB is empty")
          else if 4096 <? n then Err (ErrMsg "pebble: CURRENT file for DB is too large")
          else
            match le_readCurrent env with
            | inl e => Err e
            | inr b =>
                if negb (Byte.eqb (nth (Z.to_nat (n - 1)) b x00) newline)
                then Err (ErrMsg "pebble: CURRENT file for DB is malformed")
                else
                  let b := take (Z.to_nat (n - 1)) b in
                  match le_openManifest env b with
                  | inl _ => Err (ErrMsg "pebble: could not open manifest file for DB")
                  | inr recs => replay recs [] vs
                  end
            end
      end
  end.

(** [load] from the check that follows the loop. *)
Definition load_finish (bve : bulkVersionEdit) (vs : versionSet) : result versionSet :=
  if ((logNumber vs =? 0) || (nextFileNumber vs =? 0))
     && negb (nextFileNumber vs =? 2)
  then Err (ErrMsg "pebble: incomplete manifest file for DB")
  else
    let vs := markFileNumUsed vs (logNumber vs) in
    let vs := markFileNumUsed vs (prevLogNumber vs) in
    let '(n, vs) := nextFileNum vs in
    let vs := set_manifestFileNumber n vs in
    match apply bve None with
    | inr e => Err e
    | inl fs =>
        let newVersion := length (vheap vs) in
        let vs := set_vheap (vheap vs ++ [{| refs := 0; files := fs |}]) vs in
        append vs newVersion
    end.

Definition load (env : loadEnv) (name : string) (vs : versionSet) : result versionSet :=
  match load_replay env name vs with
  | Ok (bve, vs) => load_finish bve vs
  | Err e => Err e
  | Panic msg => Panic msg
  end.

End Manifest.

(** *** Live files

    [addLiveFileNums] walks the version list from the oldest version to
    the current one and adds the number of every file of every level to
    the set [m]. *)
Definition addLiveFileNums (vs : versionSet) (m : gset Z) : gset Z :=
  fold_left
    (fun m p =>
       fold_left
         (fun m ff => fold_left (fun m f => m ∪ {[ fileNum f ]}) ff m)
         (from_option files [] (vheap vs !! p)) m)
    (versions vs) m.

(** *** Properties of the file-number allocator *)

(** A version set as Go zero-initialises it. *)
Definition vs_zero : versionSet :=
  {| cmpName := ""; vheap := []; versions := [];
     logNumber := 0; prevLogNumber := 0; nextFileNumber := 0;
     logSeqNum := 0; visibleSeqNum := 0; manifestFileNumber := 0;
     manifest := false; trace := [] |}.

Lemma wrap64_small (z : Z) : 0 <= z <= uint64_max -> wrap64 z = z.
Proof.
  unfold wrap64, uint64_max. intros H. apply Z.mod_small. lia.
Qed.

(** C7, as stated, fails at the top of the [uint64] range: marking the
    largest file number used wraps [nextFileNumber] around to 0, and the
    allocator then hands out 0 after [2^64 - 1]. *)
Lemma markFileNumUsed_wraps_at_max :
  let vs := set_nextFileNumber 2 vs_zero in
  nextFileNumber (markFileNumUsed vs uint64_max) = 0
  /\ ~ (nextFileNumber (markFileNumUsed vs uint64_max) > uint64_max)
  /\ nextFileNumber (markFileNumUsed vs uint64_max) < nextFileNumber vs
  /\ (let '(x1, vs1) := nextFileNum (set_nextFileNumber uint64_max vs_zero) in
      let '(x2, _) := nextFileNum vs1 in
      x1 = uint64_max /\ x2 = 0).
Proof.
  vm_compute. repeat split; congruence.
Qed.

(** C7 (amended): below the top of the [uint64] range the allocator is
    strictly increasing.  [nextFileNum] returns the current
    [nextFileNumber] and leaves it one larger; [markFileNumUsed n], for
    [n < 2^64 - 1], leaves [nextFileNumber] above [n], never lowers it, and
    does not touch it when it is above [n] already. *)
Theorem file_numbers_increase (vs : versionSet) (n : Z) :
  0 <= nextFileNumber vs < uint64_max ->
  0 <= n < uint64_max ->
  (fst (nextFileNum vs) = nextFileNumber vs
   /\ nextFileNumber (snd (nextFileNum vs)) = nextFileNumber vs + 1
   /\ fst (nextFileNum (snd (nextFileNum vs))) > fst (nextFileNum vs))
  /\ nextFileNumber (markFileNumUsed vs n) > n
  /\ nextFileNumber vs <= nextFileNumber (markFileNumUsed vs n)
  /\ (nextFileNumber vs > n -> markFileNumUsed vs n = vs).
Proof.
  intros Hvs Hn.
  assert (Hw : wrap64 (nextFileNumber vs + 1) = nextFileNumber vs + 1)
    by (apply wrap64_small; lia).
  assert (Hwn : wrap64 (n + 1) = n + 1) by (apply wrap64_small; lia).
  split.
  - unfold nextFileNum; simpl. rewrite Hw. repeat split; lia.
  - unfold markFileNumUsed.
    destruct (Z.leb_spec (nextFileNumber vs) n) as [Hle | Hgt]; simpl.
    + rewrite Hwn. repeat split; lia.
    + repeat split; lia.
Qed.

Lemma file_numbers_increase_witness :
  let vs := set_nextFileNumber 2 vs_zero in
  nextFileNumber (markFileNumUsed vs 7) > 7
  /\ fst (nextFileNum vs) = 2.
Proof.
  assert (Hvs : 0 <= nextFileNumber (set_nextFileNumber 2 vs_zero) < uint64_max)
    by (vm_compute; split; congruence).
  assert (Hn : 0 <= 7 < uint64_max) by (vm_compute; split; congruence).
  destruct (file_numbers_increase (set_nextFileNumber 2 vs_zero) 7 Hvs Hn)
    as [[H1 _] [H2 _]].
  split; [exact H2 | exact H1].
Defined.


(** *** Properties of the version list *)

(** Version list integrity: the list holds each version once, and none
    with a zero reference count. *)
Definition list_ok (vs : versionSet) : Prop :=
  NoDup (versions vs) /\ forall p, p ∈ versions vs -> refs_of vs p <> 0.

Lemma refs_of_alter_eq (vs : versionSet) (f : version -> version) (p : nat) (ver : version) :
  vheap vs !! p = Some ver ->
  refs_of (set_vheap (alter f p (vheap vs)) vs) p = refs (f ver).
Proof.
  intros H. unfold refs_of; simpl.
  rewrite list_lookup_alter_eq, H. reflexivity.
Qed.

Lemma refs_of_alter_ne (vs : versionSet) (f : version -> version) (p q : nat) :
  p <> q ->
  refs_of (set_vheap (alter f p (vheap vs)) vs) q = refs_of vs q.
Proof.
  intros H. unfold refs_of; simpl.
  rewrite list_lookup_alter_ne by exact H. reflexivity.
Qed.

Lemma refs_of_set_versions (vs : versionSet) (l : list nat) (q : nat) :
  refs_of (set_versions l vs) q = refs_of vs q.
Proof. reflexivity. Qed.

Lemma unrefLocked_versions (b : nat) (vs : versionSet) (q : nat) :
  q ∈ versions (unrefLocked b vs) -> q ∈ versions vs.
Proof.
  unfold unrefLocked.
  destruct (_ =? 0); simpl; [| tauto].
  rewrite list_elem_of_filter. tauto.
Qed.

Lemma unrefLocked_NoDup (b : nat) (vs : versionSet) :
  NoDup (versions vs) -> NoDup (versions (unrefLocked b vs)).
Proof.
  unfold unrefLocked. intros H.
  destruct (_ =? 0); simpl; [| exact H].
  apply NoDup_filter; exact H.
Qed.

Lemma unrefLocked_refs_ne (b q : nat) (vs : versionSet) :
  b <> q -> refs_of (unrefLocked b vs) q = refs_of vs q.
Proof.
  intros Hne. unfold unrefLocked.
  destruct (_ =? 0); [rewrite refs_of_set_versions |];
    apply refs_of_alter_ne; exact Hne.
Qed.

Lemma unrefLocked_refs_eq (b : nat) (vs : versionSet) (ver : version) :
  vheap vs !! b = Some ver ->
  refs_of (unrefLocked b vs) b = wrap32s (refs ver - 1).
Proof.
  intros H. unfold unrefLocked.
  destruct (_ =? 0); [rewrite refs_of_set_versions |];
    rewrite (refs_of_alter_eq _ _ _ _ H); reflexivity.
Qed.

Lemma unrefLocked_kept_nonzero (b : nat) (vs : versionSet) :
  b ∈ versions (unrefLocked b vs) -> refs_of (unrefLocked b vs) b <> 0.
Proof.
  unfold unrefLocked.
  destruct (Z.eqb_spec
    (refs_of (set_vheap (alter (fun v => with_refs (wrap32s (refs v - 1)) v) b (vheap vs)) vs) b) 0)
    as [Hz | Hnz]; simpl.
  - rewrite list_elem_of_filter. tauto.
  - intros _. exact Hnz.
Qed.

Lemma unrefLocked_heap_lookup (b v : nat) (vs : versionSet) (ver : version) :
  b <> v -> vheap vs !! v = Some ver -> vheap (unrefLocked b vs) !! v = Some ver.
Proof.
  intros Hne H. unfold unrefLocked.
  destruct (_ =? 0); simpl; rewrite list_lookup_alter_ne by exact Hne; exact H.
Qed.

(** C6: [append] panics unless its argument is unreferenced; otherwise it
    succeeds, the argument becomes the last node of the list with reference
    count 1 and is what [currentVersion] returns, the version that was
    current has lost one reference, and the list still holds no version
    with a zero count. *)
Theorem append_installs_current (vs : versionSet) (v : nat) (ver : version) :
  vheap vs !! v = Some ver ->
  list_ok vs ->
  (refs ver <> 0 -> append vs v = Panic "pebble: version should be unreferenced")
  /\ (refs ver = 0 ->
      exists vs',
        append vs v = Ok vs'
        /\ last (versions vs') = Some v
        /\ currentVersion vs' = Some v
        /\ refs_of vs' v = 1
        /\ refs_of vs' v <> 0
        /\ (forall b, currentVersion vs = Some b ->
              refs_of vs' b = wrap32s (refs_of vs b - 1))
        /\ list_ok vs').
Proof.
  intros Hv [Hnd Hnz]. unfold append. rewrite Hv. split.
  - intros Hr. destruct (Z.eqb_spec (refs ver) 0); [contradiction | reflexivity].
  - intros Hr. rewrite Hr. simpl.
    assert (Hfresh : v ∉ versions vs).
    { intros Hin. apply (Hnz v Hin). unfold refs_of. rewrite Hv. exact Hr. }
    set (vs1 := if negb (empty vs)
                then match back vs with Some b => unrefLocked b vs | None => vs end
                else vs).
    assert (Hlook : vheap vs1 !! v = Some ver).
    { subst vs1. destruct (empty vs); simpl; [exact Hv |].
      destruct (back vs) as [b |] eqn:Hb; [| exact Hv].
      apply unrefLocked_heap_lookup; [| exact Hv].
      intros ->. apply Hfresh. apply last_Some_elem_of. exact Hb. }
    assert (Hsub : forall q, q ∈ versions vs1 -> q ∈ versions vs).
    { subst vs1. intros q. destruct (empty vs); simpl; [tauto |].
      destruct (back vs); [apply unrefLocked_versions | tauto]. }
    assert (Hnd1 : NoDup (versions vs1)).
    { subst vs1. destruct (empty vs); simpl; [exact Hnd |].
      destruct (back vs); [apply unrefLocked_NoDup |]; exact Hnd. }
    assert (Hnz1 : forall q, q ∈ versions vs1 -> refs_of vs1 q <> 0).
    { subst vs1. intros q. destruct (empty vs); simpl; [apply Hnz |].
      destruct (back vs) as [b |]; [| apply Hnz].
      intros Hq. destruct (decide (b = q)) as [-> | Hne].
      - apply unrefLocked_kept_nonzero. exact Hq.
      - rewrite unrefLocked_refs_ne by exact Hne.
        apply Hnz. apply (unrefLocked_versions _ _ _ Hq). }
    assert (Hone : refs_of (pushBack v (ref v vs1)) v = 1).
    { unfold pushBack, ref. rewrite refs_of_set_versions.
      rewrite (refs_of_alter_eq _ _ _ _ Hlook). simpl. rewrite Hr. reflexivity. }
    eexists. split; [reflexivity |].
    split; [apply last_snoc |].
    split; [apply last_snoc |].
    split; [exact Hone |].
    split; [rewrite Hone; discriminate |].
    split.
    + intros b Hb. unfold currentVersion in Hb.
      assert (Hbin : b ∈ versions vs) by (apply last_Some_elem_of; exact Hb).
      assert (Hbv : v <> b) by (intros ->; contradiction).
      unfold pushBack, ref. rewrite refs_of_set_versions.
      rewrite refs_of_alter_ne by exact Hbv.
      subst vs1. unfold empty. unfold back in *.
      destruct (versions vs) as [| x l] eqn:Hl; [discriminate Hb |].
      simpl negb. cbv iota. rewrite Hb.
      destruct (vheap vs !! b) as [bv |] eqn:Hbl.
      * rewrite (unrefLocked_refs_eq _ _ _ Hbl). unfold refs_of. rewrite Hbl. reflexivity.
      * exfalso. apply (Hnz b); [exact Hbin |].
        unfold refs_of. rewrite Hbl. reflexivity.
    + split.
      * unfold pushBack; simpl. apply NoDup_app. split; [exact Hnd1 |].
        split; [| apply NoDup_singleton].
        intros x Hx Hxv. apply list_elem_of_singleton in Hxv. subst x.
        apply Hfresh. apply Hsub. exact Hx.
      * intros p Hp. unfold pushBack in Hp; simpl in Hp.
        apply elem_of_app in Hp. destruct Hp as [Hp | Hp].
        -- assert (Hpv : v <> p) by (intros ->; apply Hfresh, Hsub, Hp).
           unfold pushBack, ref. rewrite refs_of_set_versions.
           rewrite refs_of_alter_ne by exact Hpv. apply Hnz1. exact Hp.
        -- apply list_elem_of_singleton in Hp. subst p. rewrite Hone. discriminate.
Qed.

Lemma append_installs_current_witness :
  let vs := set_vheap [{| refs := 0; files := [] |}] vs_zero in
  exists vs', append vs 0%nat = Ok vs' /\ currentVersion vs' = Some 0%nat
              /\ refs_of vs' 0%nat = 1.
Proof.
  assert (Hv : vheap (set_vheap [{| refs := 0; files := [] |}] vs_zero) !! 0%nat
               = Some {| refs := 0; files := [] |}) by reflexivity.
  assert (Hok : list_ok (set_vheap [{| refs := 0; files := [] |}] vs_zero)).
  { split; simpl; [apply NoDup_nil_2 | intros p Hp; inversion Hp]. }
  destruct (append_installs_current _ _ _ Hv Hok) as [_ H].
  destruct (H eq_refl) as (vs' & H1 & _ & H2 & H3 & _).
  exists vs'. repeat split; assumption.
Defined.


(** *** Properties of logAndApply *)

Lemma append_fresh (vs : versionSet) (h : list version) (fs : list (list fileMetadata)) :
  vheap vs = h ++ [{| refs := 0; files := fs |}] ->
  exists vs',
    append vs (length h) = Ok vs'
    /\ last (versions vs') = Some (length h)
    /\ logNumber vs' = logNumber vs
    /\ prevLogNumber vs' = prevLogNumber vs
    /\ nextFileNumber vs' = nextFileNumber vs
    /\ trace vs' = trace vs.
Proof.
  intros Hh. unfold append.
  assert (Hl : vheap vs !! length h = Some {| refs := 0; files := fs |}).
  { rewrite Hh. rewrite lookup_app_r by lia.
    replace (length h - length h)%nat with 0%nat by lia. reflexivity. }
  rewrite Hl. simpl. eexists. split; [reflexivity |].
  split; [apply last_snoc |].
  unfold pushBack, ref, unrefLocked.
  destruct (negb (empty vs)); [destruct (back vs) |]; simpl;
    try destruct (_ =? 0); simpl; repeat split; reflexivity.
Qed.

(** C4: [logAndApply] panics exactly when the edit carries a non-zero log
    number outside [[vs.logNumber, vs.nextFileNumber)]; an edit whose log
    number is 0 is never rejected. *)
Theorem logAndApply_validates_logNumber
    (apply : bulkVersionEdit -> option (list (list fileMetadata)) ->
             list (list fileMetadata) + error)
    (io : ioEnv) (vs : versionSet) (ve : versionEdit) :
  (ve_logNumber ve <> 0 ->
   (ve_logNumber ve < logNumber vs \/ nextFileNumber vs <= ve_logNumber ve) ->
   logAndApply apply io vs ve
   = (Panic "pebble: inconsistent versionEdit logNumber", vs))
  /\ (ve_logNumber ve <> 0 ->
      logNumber vs <= ve_logNumber ve < nextFileNumber vs ->
      forall msg, fst (logAndApply apply io vs ve) <> Panic msg)
  /\ (ve_logNumber ve = 0 ->
      forall msg, fst (logAndApply apply io vs ve) <> Panic msg).
Proof.
  assert (Hno : logNumber_inconsistent vs ve = false ->
                forall msg, fst (logAndApply apply io vs ve) <> Panic msg).
  { intros Hc msg. unfold logAndApply. rewrite Hc.
    destruct (apply _ _) as [fs | e]; [| discriminate].
    set (vs1 := set_vheap _ vs).
    assert (Htail : forall vs2, vheap vs2 = vheap vs1 ->
              fst (writeAndInstall io (stamp ve (nextFileNumber vs) (logSeqNum vs))
                     (length (vheap vs)) vs2) <> Panic msg).
    { intros vs2 Hh. unfold writeAndInstall, step.
      destruct (io_next io); [discriminate |].
      destruct (io_encode io); [discriminate |].
      destruct (io_flush io); [discriminate |].
      destruct (io_sync io); [discriminate |].
      destruct (io_setCurrent io); [discriminate |].
      match goal with |- context [append ?s _] =>
        destruct (append_fresh s (vheap vs) fs) as (vs' & Ha & _)
      end.
      { simpl. rewrite Hh. reflexivity. }
      rewrite Ha. discriminate. }
    destruct (manifest vs1) eqn:Hm.
    - apply Htail. reflexivity.
    - unfold createManifest.
      destruct (io_create io); [discriminate |].
      destruct (io_snapshotNext io); [discriminate |].
      destruct (io_snapshotEncode io); [discriminate |].
      apply Htail. reflexivity. }
  split; [| split].
  - intros Hnz Hout. unfold logAndApply, logNumber_inconsistent.
    destruct (Z.eqb_spec (ve_logNumber ve) 0) as [| _]; [contradiction |].
    destruct (Z.ltb_spec (ve_logNumber ve) (logNumber vs));
      destruct (Z.leb_spec (nextFileNumber vs) (ve_logNumber ve));
      simpl; try reflexivity; lia.
  - intros Hnz Hin. apply Hno. unfold logNumber_inconsistent.
    destruct (Z.ltb_spec (ve_logNumber ve) (logNumber vs));
      destruct (Z.leb_spec (nextFileNumber vs) (ve_logNumber ve));
      first [lia | simpl; apply andb_false_r].
  - intros Hz. apply Hno. unfold logNumber_inconsistent.
    rewrite Hz. reflexivity.
Qed.


(** The calls [logAndApply] makes once the manifest is open, in program
    order, and what each of the fallible ones returned. *)
Definition manifest_steps (ve : versionEdit) (n : Z) (p : nat) (l pl : Z) : list event :=
  [EvNext; EvEncode ve; EvFlush; EvSync; EvSetCurrent n; EvInstall p; EvSetLogNumbers l pl].

Definition step_outcomes (io : ioEnv) : list (option error) :=
  [io_next io; io_encode io; io_flush io; io_sync io; io_setCurrent io].

(** Position and error of the first call that fails. *)
Fixpoint first_failure (outs : list (option error)) : option (nat * error) :=
  match outs with
  | [] => None
  | Some e :: _ => Some (0%nat, e)
  | None :: rest =>
      match first_failure rest with
      | Some (i, e) => Some (S i, e)
      | None => None
      end
  end.

(** The calls of a successful [createManifest], made in state [vs]. *)
Definition createManifest_events (vs : versionSet) : list event :=
  if manifest vs then []
  else [EvCreate (manifestFileNumber vs); EvNext; EvEncode (snapshot vs)].

(** C3: once the edit is accepted and the manifest is open, [logAndApply]
    issues Next, encode, Flush, Sync, setCurrentFile, the installation of
    the new version and the update of the log numbers in exactly this
    order.  When one of the five fallible calls fails, that error is
    returned, the trace stops at the failing call, and the version list and
    the log numbers are as before.  When none fails, the whole sequence is
    performed, the new version is current and the log numbers are those of
    the edit. *)
Theorem logAndApply_ordering
    (apply : bulkVersionEdit -> option (list (list fileMetadata)) ->
             list (list fileMetadata) + error)
    (io : ioEnv) (vs : versionSet) (ve : versionEdit)
    (fs : list (list fileMetadata)) :
  logNumber_inconsistent vs ve = false ->
  apply (accumulate [] (stamp ve (nextFileNumber vs) (logSeqNum vs)))
        (Some (current_files vs)) = inl fs ->
  (manifest vs = false ->
   io_create io = None /\ io_snapshotNext io = None /\ io_snapshotEncode io = None) ->
  let ve' := stamp ve (nextFileNumber vs) (logSeqNum vs) in
  let p := length (vheap vs) in
  let l := if negb (ve_logNumber ve =? 0) then ve_logNumber ve else logNumber vs in
  let pl := if negb (ve_prevLogNumber ve =? 0) then ve_prevLogNumber ve
            else prevLogNumber vs in
  let steps := manifest_steps ve' (manifestFileNumber vs) p l pl in
  let vs1 := set_vheap (vheap vs ++ [{| refs := 0; files := fs |}]) vs in
  let r := fst (logAndApply apply io vs ve) in
  let vs' := snd (logAndApply apply io vs ve) in
  match first_failure (step_outcomes io) with
  | Some (i, e) =>
      r = Err e
      /\ trace vs' = trace vs ++ createManifest_events vs1 ++ take (S i) steps
      /\ versions vs' = versions vs
      /\ logNumber vs' = logNumber vs
      /\ prevLogNumber vs' = prevLogNumber vs
  | None =>
      r = Ok tt
      /\ trace vs' = trace vs ++ createManifest_events vs1 ++ steps
      /\ currentVersion vs' = Some p
      /\ logNumber vs' = l
      /\ prevLogNumber vs' = pl
  end.
Proof.
  intros Hc Happ Hm ve' p l pl steps vs1 r vs'.
  subst r vs'. unfold logAndApply. rewrite Hc, Happ. fold ve' p vs1.
  assert (Htail : forall vs2,
    vheap vs2 = vheap vs1 -> versions vs2 = versions vs ->
    logNumber vs2 = logNumber vs -> prevLogNumber vs2 = prevLogNumber vs ->
    manifestFileNumber vs2 = manifestFileNumber vs ->
    let r := fst (writeAndInstall io ve' p vs2) in
    let vs' := snd (writeAndInstall io ve' p vs2) in
    match first_failure (step_outcomes io) with
    | Some (i, e) =>
        r = Err e
        /\ trace vs' = trace vs2 ++ take (S i) steps
        /\ versions vs' = versions vs
        /\ logNumber vs' = logNumber vs
        /\ prevLogNumber vs' = prevLogNumber vs
    | None =>
        r = Ok tt
        /\ trace vs' = trace vs2 ++ steps
        /\ currentVersion vs' = Some p
        /\ logNumber vs' = l
        /\ prevLogNumber vs' = pl
    end).
  { intros vs2 Hh Hvs Hl Hpl Hn. unfold writeAndInstall, step, step_outcomes.
    subst steps. unfold manifest_steps. rewrite Hn. simpl first_failure.
    destruct (io_next io); [simpl; auto |].
    destruct (io_encode io); [simpl; rewrite <- app_assoc; auto |].
    destruct (io_flush io); [simpl; rewrite <- !app_assoc; auto |].
    destruct (io_sync io); [simpl; rewrite <- !app_assoc; auto |].
    destruct (io_setCurrent io); [simpl; rewrite <- !app_assoc; auto |].
    match goal with |- context [append ?s _] =>
      destruct (append_fresh s (vheap vs) fs) as (vs3 & Ha & Hlast & Hl3 & Hpl3 & _ & Ht3)
    end.
    { simpl. rewrite Hh. reflexivity. }
    fold p in Ha, Hlast. rewrite Ha. simpl in Hl3, Hpl3, Ht3.
    subst l pl. cbv beta iota zeta. unfold currentVersion, back.
    change (ve_logNumber ve') with (ve_logNumber ve).
    change (ve_prevLogNumber ve') with (ve_prevLogNumber ve).
    destruct (negb (ve_logNumber ve =? 0)), (negb (ve_prevLogNumber ve =? 0));
      simpl; rewrite Ht3, <- !app_assoc; simpl;
      rewrite ?Hl3, ?Hpl3, ?Hl, ?Hpl; auto. }
  destruct (manifest vs1) eqn:Hman.
  - specialize (Htail vs1 eq_refl eq_refl eq_refl eq_refl eq_refl).
    unfold createManifest_events.
    rewrite Hman. simpl app. exact Htail.
  - destruct (Hm Hman) as (Hc1 & Hc2 & Hc3).
    unfold createManifest. rewrite Hc1, Hc2, Hc3.
    match goal with |- context [writeAndInstall io ve' p ?s] =>
      specialize (Htail s eq_refl eq_refl eq_refl eq_refl eq_refl)
    end.
    unfold createManifest_events.
    rewrite Hman.
    destruct (first_failure (step_outcomes io)) as [[i e] |];
      destruct Htail as (H1 & H2 & H3 & H4 & H5);
      (split; [exact H1 |]); (split; [| auto]);
      rewrite H2; simpl; rewrite <- !app_assoc; reflexivity.
Qed.


(** An environment in which no call fails, and an [apply] that yields a
    version without files; used to instantiate the statements above. *)
Definition io_ok : ioEnv :=
  {| io_create := None; io_snapshotNext := None; io_snapshotEncode := None;
     io_next := None; io_encode := None; io_flush := None; io_sync := None;
     io_setCurrent := None |}.

Definition apply_empty (_ : bulkVersionEdit) (_ : option (list (list fileMetadata)))
    : list (list fileMetadata) + error := inl [].

Definition edit_with_log (n : Z) : versionEdit :=
  {| ve_comparatorName := ""; ve_logNumber := n; ve_prevLogNumber := 0;
     ve_nextFileNumber := 0; ve_lastSequence := 0;
     ve_deletedFiles := []; ve_newFiles := [] |}.

Lemma logAndApply_validates_logNumber_witness :
  let vs := set_logNumber 5 (set_nextFileNumber 9 vs_zero) in
  logAndApply apply_empty io_ok vs (edit_with_log 3)
  = (Panic "pebble: inconsistent versionEdit logNumber", vs).
Proof.
  apply (logAndApply_validates_logNumber apply_empty io_ok
           (set_logNumber 5 (set_nextFileNumber 9 vs_zero)) (edit_with_log 3)).
  - simpl. lia.
  - simpl. lia.
Defined.

Lemma logAndApply_ordering_witness :
  let vs := set_manifest true (set_logNumber 5 (set_nextFileNumber 9 vs_zero)) in
  let r := logAndApply apply_empty io_ok vs (edit_with_log 7) in
  fst r = Ok tt
  /\ trace (snd r)
     = [EvNext; EvEncode (stamp (edit_with_log 7) 9 0); EvFlush; EvSync;
        EvSetCurrent 0; EvInstall 0%nat; EvSetLogNumbers 7 0]
  /\ logNumber (snd r) = 7.
Proof.
  pose proof (logAndApply_ordering apply_empty io_ok
    (set_manifest true (set_logNumber 5 (set_nextFileNumber 9 vs_zero)))
    (edit_with_log 7) []) as H.
  assert (H1 : logNumber_inconsistent
            (set_manifest true (set_logNumber 5 (set_nextFileNumber 9 vs_zero)))
            (edit_with_log 7) = false) by reflexivity.
  assert (H2 : manifest (set_manifest true (set_logNumber 5 (set_nextFileNumber 9 vs_zero)))
               = false ->
               io_create io_ok = None /\ io_snapshotNext io_ok = None
               /\ io_snapshotEncode io_ok = None) by (intros _; repeat split).
  specialize (H H1 eq_refl H2).
  destruct H as (Ha & Hb & _ & Hc & _).
  split; [exact Ha |]. split; [exact Hb | exact Hc].
Defined.

(** *** Properties of load *)

(** C5: when the replay of the manifest leaves [logNumber] at 0, [load]
    fails with the incomplete-manifest error if [nextFileNumber] is not 2.
    If it is 2 the check passes and the database is taken as freshly
    created: [load] installs the version built from the accumulated edits
    and returns no error; the only error it can still return is one from
    building that version. *)
Theorem load_incomplete_manifest
    (apply : bulkVersionEdit -> option (list (list fileMetadata)) ->
             list (list fileMetadata) + error)
    (env : loadEnv) (name : string) (vs0 vs : versionSet) (bve : bulkVersionEdit) :
  load_replay env name vs0 = Ok (bve, vs) ->
  logNumber vs = 0 ->
  (nextFileNumber vs <> 2 ->
   load apply env name vs0 = Err (ErrMsg "pebble: incomplete manifest file for DB"))
  /\ (nextFileNumber vs = 2 ->
      match apply bve None with
      | inl fs =>
          exists vs', load apply env name vs0 = Ok vs'
                      /\ currentVersion vs' = Some (length (vheap vs))
                      /\ logNumber vs' = 0
      | inr e => load apply env name vs0 = Err e
      end).
Proof.
  intros Hrep Hlog. unfold load. rewrite Hrep. unfold load_finish. rewrite Hlog.
  simpl orb. split.
  - intros Hn. destruct (Z.eqb_spec (nextFileNumber vs) 2); [contradiction |].
    reflexivity.
  - intros Hn. rewrite Hn. simpl negb. simpl andb. cbv iota.
    unfold nextFileNum.
    destruct (apply bve None) as [fs | e]; [| reflexivity].
    match goal with |- context [append ?s (length ?h)] =>
      destruct (append_fresh s h fs) as (vs' & Ha & Hlast & Hl & _)
    end.
    { reflexivity. }
    exists vs'. split; [exact Ha |]. split.
    + unfold currentVersion, back. rewrite Hlast. f_equal.
      unfold markFileNumUsed.
      repeat (destruct (_ <=? _); simpl); reflexivity.
    + rewrite Hl. unfold markFileNumUsed.
      repeat (destruct (_ <=? _); simpl); exact Hlog.
Qed.

(** A freshly created database: CURRENT names a manifest whose only record
    carries the comparer name and next file number 2. *)
Definition fresh_manifest_env : loadEnv :=
  {| le_openCurrent := None;
     le_statCurrent := inr 2;
     le_readCurrent := inr [x4d; x0a];
     le_openManifest := fun _ =>
       inr [RecEdit {| ve_comparatorName := "cmp"; ve_logNumber := 0;
                       ve_prevLogNumber := 0; ve_nextFileNumber := 2;
                       ve_lastSequence := 0; ve_deletedFiles := [];
                       ve_newFiles := [] |}] |}.

Lemma load_incomplete_manifest_witness :
  exists vs', load apply_empty fresh_manifest_env "cmp" vs_zero = Ok vs'
              /\ currentVersion vs' = Some 0%nat.
Proof.
  destruct (load_incomplete_manifest apply_empty fresh_manifest_env "cmp" vs_zero
              _ _ eq_refl eq_refl) as [_ H].
  destruct (H eq_refl) as (vs' & H1 & H2 & _).
  exists vs'. split; [exact H1 | exact H2].
Defined.

(** *** createManifest and the snapshot edit *)

Lemma snapshot_level_In (lvl : nat) (fms : list fileMetadata) (e : newFileEntry) :
  In e (snapshot_level lvl fms) <-> level e = lvl /\ In (meta e) fms.
Proof.
  induction fms as [| m fms IH]; simpl.
  - tauto.
  - rewrite IH. split.
    + intros [<- | [Hl Hm]]; simpl; auto.
    + intros [Hl [Hm | Hm]]; [left | right; auto].
      destruct e as [l' m']; simpl in *; subst; reflexivity.
Qed.

Lemma snapshot_files_In (fss : list (list fileMetadata)) :
  forall (lvl : nat) (e : newFileEntry),
    In e (snapshot_files lvl fss)
    <-> exists fms, fss !! (level e - lvl)%nat = Some fms
                    /\ (lvl <= level e)%nat /\ In (meta e) fms.
Proof.
  induction fss as [| fms fss IH]; intros lvl e; simpl.
  - split; [tauto | intros (fms & H & _); rewrite lookup_nil in H; discriminate].
  - rewrite in_app_iff, snapshot_level_In, IH. split.
    + intros [[Hl Hm] | (fms' & Hlk & Hle & Hm)].
      * exists fms. rewrite Hl, Nat.sub_diag. simpl. auto.
      * exists fms'. replace (level e - lvl)%nat with (S (level e - S lvl)) by lia.
        simpl. split; [exact Hlk |]. split; [lia | exact Hm].
    + intros (fms' & Hlk & Hle & Hm).
      destruct (Nat.eq_dec (level e) lvl) as [Heq | Hne].
      * left. rewrite Heq, Nat.sub_diag in Hlk. simpl in Hlk.
        inversion Hlk; subst. auto.
      * right. exists fms'.
        replace (level e - lvl)%nat with (S (level e - S lvl)) in Hlk by lia.
        simpl in Hlk. split; [exact Hlk |]. split; [lia | exact Hm].
Qed.

(** X2: the snapshot edit written at the head of a new manifest names the
    comparer, deletes nothing, carries no counters, and lists exactly the
    files of the current version, each under its level. *)
Theorem snapshot_lists_current_files (vs : versionSet) (lvl : nat) (m : fileMetadata) :
  (In {| level := lvl; meta := m |} (ve_newFiles (snapshot vs))
   <-> exists fms, current_files vs !! lvl = Some fms /\ In m fms)
  /\ ve_comparatorName (snapshot vs) = cmpName vs
  /\ ve_deletedFiles (snapshot vs) = []
  /\ ve_logNumber (snapshot vs) = 0
  /\ ve_nextFileNumber (snapshot vs) = 0.
Proof.
  split; [| repeat split].
  unfold snapshot; simpl. rewrite snapshot_files_In; simpl.
  rewrite Nat.sub_0_r. split.
  - intros (fms & H & _ & Hm). eauto.
  - intros (fms & H & Hm). exists fms. repeat split; [exact H | lia | exact Hm].
Qed.

(** X3: [createManifest] is all or nothing.  When it fails, what was
    opened is closed again (the writer is closed, the file synced and
    closed), the last thing done is the removal of the file that was
    created, and [vs.manifest] stays as it was.  When it succeeds the
    manifest is open and holds the snapshot record, not yet flushed.  In
    both cases nothing else of the version set moves. *)
Theorem createManifest_all_or_nothing (io : ioEnv) (vs : versionSet) :
  let n := manifestFileNumber vs in
  let r := fst (createManifest io vs) in
  let vs' := snd (createManifest io vs) in
  match r with
  | Ok _ =>
      manifest vs' = true
      /\ trace vs' = trace vs ++ [EvCreate n; EvNext; EvEncode (snapshot vs)]
      /\ io_create io = None /\ io_snapshotNext io = None
      /\ io_snapshotEncode io = None
  | Err e =>
      manifest vs' = manifest vs
      /\ last (trace vs') = Some (EvRemove n)
      /\ ((io_create io = Some e
           /\ trace vs' = trace vs ++ [EvCreate n; EvRemove n])
          \/ (io_create io = None /\ io_snapshotNext io = Some e
              /\ trace vs' = trace vs ++ [EvCreate n; EvNext; EvCloseManifest;
                                          EvSync; EvCloseFile; EvRemove n])
          \/ (io_create io = None /\ io_snapshotNext io = None
              /\ io_snapshotEncode io = Some e
              /\ trace vs' = trace vs ++ [EvCreate n; EvNext; EvEncode (snapshot vs);
                                          EvCloseManifest; EvSync; EvCloseFile;
                                          EvRemove n]))
  | Panic _ => False
  end
  /\ versions vs' = versions vs /\ vheap vs' = vheap vs
  /\ logNumber vs' = logNumber vs /\ nextFileNumber vs' = nextFileNumber vs.
Proof.
  unfold createManifest.
  destruct (io_create io) as [e |] eqn:Hc; simpl.
  { split; [| repeat split; reflexivity].
    split; [reflexivity |]. split; [apply last_snoc |].
    left. split; [reflexivity |]. rewrite <- !app_assoc. reflexivity. }
  destruct (io_snapshotNext io) as [e |] eqn:Hn; simpl.
  { split; [| repeat split; reflexivity].
    split; [reflexivity |]. split; [apply last_snoc |].
    right; left. split; [reflexivity |]. split; [reflexivity |].
    rewrite <- !app_assoc. reflexivity. }
  destruct (io_snapshotEncode io) as [e |] eqn:He; simpl.
  { split; [| repeat split; reflexivity].
    split; [reflexivity |]. split; [apply last_snoc |].
    right; right. split; [reflexivity |]. split; [reflexivity |].
    split; [reflexivity |]. rewrite <- !app_assoc. reflexivity. }
  repeat split. rewrite <- !app_assoc. reflexivity.
Qed.

(** *** What logAndApply leaves alone *)

Lemma append_keeps (vs vs' : versionSet) (p : nat) :
  append vs p = Ok vs' ->
  logSeqNum vs' = logSeqNum vs /\ visibleSeqNum vs' = visibleSeqNum vs
  /\ manifestFileNumber vs' = manifestFileNumber vs
  /\ manifest vs' = manifest vs /\ cmpName vs' = cmpName vs.
Proof.
  unfold append. destruct (vheap vs !! p); [| discriminate].
  destruct (negb (refs v =? 0)); [discriminate |].
  intros H. inversion H; subst; clear H.
  unfold pushBack, ref, unrefLocked.
  destruct (negb (empty vs)); [destruct (back vs) |]; simpl;
    try destruct (_ =? 0); simpl; repeat split; reflexivity.
Qed.

Lemma writeAndInstall_frame (io : ioEnv) (ve : versionEdit)
    (vs : versionSet) (h : list version) (fs : list (list fileMetadata)) :
  vheap vs = h ++ [{| refs := 0; files := fs |}] ->
  let r := fst (writeAndInstall io ve (length h) vs) in
  let vs' := snd (writeAndInstall io ve (length h) vs) in
  nextFileNumber vs' = nextFileNumber vs
  /\ logSeqNum vs' = logSeqNum vs
  /\ manifestFileNumber vs' = manifestFileNumber vs
  /\ manifest vs' = manifest vs
  /\ match r with
     | Ok _ =>
         logNumber vs' = (if negb (ve_logNumber ve =? 0) then ve_logNumber ve
                          else logNumber vs)
         /\ prevLogNumber vs' = (if negb (ve_prevLogNumber ve =? 0)
                                 then ve_prevLogNumber ve else prevLogNumber vs)
         /\ currentVersion vs' = Some (length h)
     | Err _ =>
         logNumber vs' = logNumber vs /\ prevLogNumber vs' = prevLogNumber vs
         /\ versions vs' = versions vs
     | Panic _ => False
     end.
Proof.
  intros Hh. unfold writeAndInstall, step.
  destruct (io_next io); [simpl; repeat split; reflexivity |].
  destruct (io_encode io); [simpl; repeat split; reflexivity |].
  destruct (io_flush io); [simpl; repeat split; reflexivity |].
  destruct (io_sync io); [simpl; repeat split; reflexivity |].
  destruct (io_setCurrent io); [simpl; repeat split; reflexivity |].
  match goal with |- context [append ?s _] =>
    destruct (append_fresh s h fs) as (vs3 & Ha & Hlast & Hl3 & Hpl3 & Hn3 & Ht3);
    [simpl; exact Hh |];
    destruct (append_keeps s vs3 (length h) Ha) as (Hs3 & _ & Hm3 & Hman3 & _)
  end.
  rewrite Ha. simpl in Hl3, Hpl3, Hn3, Hs3, Hm3, Hman3.
  cbv beta iota zeta. unfold currentVersion, back.
  destruct (negb (ve_logNumber ve =? 0)), (negb (ve_prevLogNumber ve =? 0));
    simpl; rewrite ?Hl3, ?Hpl3, ?Hn3, ?Hs3, ?Hm3, ?Hman3; repeat split; auto.
Qed.

Lemma logAndApply_effect
    (apply : bulkVersionEdit -> option (list (list fileMetadata)) ->
             list (list fileMetadata) + error)
    (io : ioEnv) (vs : versionSet) (ve : versionEdit) :
  let r := fst (logAndApply apply io vs ve) in
  let vs' := snd (logAndApply apply io vs ve) in
  nextFileNumber vs' = nextFileNumber vs
  /\ logSeqNum vs' = logSeqNum vs
  /\ manifestFileNumber vs' = manifestFileNumber vs
  /\ (r <> Ok tt ->
      versions vs' = versions vs /\ logNumber vs' = logNumber vs
      /\ prevLogNumber vs' = prevLogNumber vs)
  /\ (r = Ok tt ->
      manifest vs' = true /\ currentVersion vs' = Some (length (vheap vs))
      /\ logNumber_inconsistent vs ve = false
      /\ logNumber vs' = (if negb (ve_logNumber ve =? 0) then ve_logNumber ve
                          else logNumber vs))
  /\ (forall e,
        logNumber_inconsistent vs ve = false ->
        apply (accumulate [] (stamp ve (nextFileNumber vs) (logSeqNum vs)))
              (Some (current_files vs)) = inr e ->
        r = Err e /\ vs' = vs).
Proof.
  unfold logAndApply.
  destruct (logNumber_inconsistent vs ve) eqn:Hc.
  { simpl. repeat split; auto; discriminate. }
  destruct (apply _ _) as [fs | e0] eqn:Happ.
  2: { simpl. repeat split; auto; try discriminate; congruence. }
  set (ve' := stamp ve (nextFileNumber vs) (logSeqNum vs)).
  set (vs1 := set_vheap _ vs).
  assert (Htail : forall vs2,
    vheap vs2 = vheap vs1 -> versions vs2 = versions vs ->
    logNumber vs2 = logNumber vs -> prevLogNumber vs2 = prevLogNumber vs ->
    nextFileNumber vs2 = nextFileNumber vs -> logSeqNum vs2 = logSeqNum vs ->
    manifestFileNumber vs2 = manifestFileNumber vs -> manifest vs2 = true ->
    let r := fst (writeAndInstall io ve' (length (vheap vs)) vs2) in
    let vs' := snd (writeAndInstall io ve' (length (vheap vs)) vs2) in
    nextFileNumber vs' = nextFileNumber vs
    /\ logSeqNum vs' = logSeqNum vs
    /\ manifestFileNumber vs' = manifestFileNumber vs
    /\ (r <> Ok tt ->
        versions vs' = versions vs /\ logNumber vs' = logNumber vs
        /\ prevLogNumber vs' = prevLogNumber vs)
    /\ (r = Ok tt ->
        manifest vs' = true /\ currentVersion vs' = Some (length (vheap vs))
        /\ false = false
        /\ logNumber vs' = (if negb (ve_logNumber ve =? 0) then ve_logNumber ve
                            else logNumber vs))
    /\ (forall e : error, false = false -> @inl _ error fs = inr e ->
        r = Err e /\ vs' = vs)).
  { intros vs2 Hh Hv Hl Hpl Hn Hs Hm Hman.
    destruct (writeAndInstall_frame io ve' vs2 (vheap vs) fs Hh)
      as (F1 & F2 & F3 & F4 & F5).
    cbv zeta. rewrite F1, F2, F3, F4, Hn, Hs, Hm.
    repeat split; auto.
    - destruct (fst (writeAndInstall io ve' (length (vheap vs)) vs2)) as [[] | |];
        [congruence | | contradiction].
      destruct F5 as (_ & _ & F5). congruence.
    - destruct (fst (writeAndInstall io ve' (length (vheap vs)) vs2)) as [[] | |];
        [congruence | | contradiction].
      destruct F5 as (F5 & _). congruence.
    - destruct (fst (writeAndInstall io ve' (length (vheap vs)) vs2)) as [[] | |];
        [congruence | | contradiction].
      destruct F5 as (_ & F5 & _). congruence.
    - destruct (fst (writeAndInstall io ve' (length (vheap vs)) vs2)) as [[] | |];
        [| discriminate | contradiction].
      destruct F5 as (_ & _ & F5). exact F5.
    - destruct (fst (writeAndInstall io ve' (length (vheap vs)) vs2)) as [[] | |];
        [| discriminate | contradiction].
      destruct F5 as (F5 & _). rewrite F5, Hl. reflexivity.
    - discriminate.
    - discriminate. }
  destruct (manifest vs1) eqn:Hman.
  - apply Htail; auto.
  - unfold createManifest.
    destruct (io_create io); [simpl; repeat split; auto; discriminate |].
    destruct (io_snapshotNext io); [simpl; repeat split; auto; discriminate |].
    destruct (io_snapshotEncode io); [simpl; repeat split; auto; discriminate |].
    apply Htail; auto.
Qed.

(** X4: [logAndApply] never allocates a file number nor moves the
    sequence number, whatever happens; when it does not return nil it has
    installed nothing (the version list and both log numbers are as
    before); when it returns nil the manifest is open and the new version
    is current; and when [apply] rejects the edit it returns that error
    without having touched the version set or the file system at all. *)
Theorem logAndApply_failure_installs_nothing
    (apply : bulkVersionEdit -> option (list (list fileMetadata)) ->
             list (list fileMetadata) + error)
    (io : ioEnv) (vs : versionSet) (ve : versionEdit) :
  let r := fst (logAndApply apply io vs ve) in
  let vs' := snd (logAndApply apply io vs ve) in
  nextFileNumber vs' = nextFileNumber vs
  /\ logSeqNum vs' = logSeqNum vs
  /\ manifestFileNumber vs' = manifestFileNumber vs
  /\ (r <> Ok tt ->
      versions vs' = versions vs /\ logNumber vs' = logNumber vs
      /\ prevLogNumber vs' = prevLogNumber vs)
  /\ (r = Ok tt ->
      manifest vs' = true /\ currentVersion vs' = Some (length (vheap vs)))
  /\ (forall e,
        logNumber_inconsistent vs ve = false ->
        apply (accumulate [] (stamp ve (nextFileNumber vs) (logSeqNum vs)))
              (Some (current_files vs)) = inr e ->
        r = Err e /\ vs' = vs).
Proof.
  destruct (logAndApply_effect apply io vs ve) as (H1 & H2 & H3 & H4 & H5 & H6).
  cbv zeta. split; [exact H1 |]. split; [exact H2 |]. split; [exact H3 |].
  split; [exact H4 |]. split; [| exact H6].
  intros Hr. destruct (H5 Hr) as (Ha & Hb & _). split; assumption.
Qed.

(** An [apply] that rejects every edit. *)
Definition apply_fails (_ : bulkVersionEdit) (_ : option (list (list fileMetadata)))
    : list (list fileMetadata) + error := inr (ErrMsg "pebble: internal error").

Lemma logAndApply_failure_installs_nothing_witness :
  let vs := set_logNumber 5 (set_nextFileNumber 9 vs_zero) in
  logAndApply apply_fails io_ok vs (edit_with_log 7)
  = (Err (ErrMsg "pebble: internal error"), vs).
Proof.
  intros vs.
  destruct (logAndApply_failure_installs_nothing apply_fails io_ok vs (edit_with_log 7))
    as (_ & _ & _ & _ & _ & H).
  destruct (H (ErrMsg "pebble: internal error") eq_refl eq_refl) as [H1 H2].
  rewrite (surjective_pairing (logAndApply apply_fails io_ok vs (edit_with_log 7))).
  rewrite H1, H2. reflexivity.
Defined.

(** X5: the log number of a version set never goes back and stays below
    the next file number: if [vs.logNumber < vs.nextFileNumber] holds
    before [logAndApply], it holds afterwards, whatever the outcome, and
    [vs.logNumber] is at least what it was. *)
Theorem logAndApply_log_number_monotone
    (apply : bulkVersionEdit -> option (list (list fileMetadata)) ->
             list (list fileMetadata) + error)
    (io : ioEnv) (vs : versionSet) (ve : versionEdit) :
  logNumber vs < nextFileNumber vs ->
  let vs' := snd (logAndApply apply io vs ve) in
  logNumber vs <= logNumber vs' < nextFileNumber vs'.
Proof.
  intros Hinv.
  destruct (logAndApply_effect apply io vs ve) as (H1 & _ & _ & H4 & H5 & _).
  cbv zeta in *. rewrite H1.
  destruct (fst (logAndApply apply io vs ve)) as [[] | e | msg] eqn:Hr.
  - destruct (H5 eq_refl) as (_ & _ & Hc & Hl). rewrite Hl.
    unfold logNumber_inconsistent in Hc.
    destruct (Z.eqb_spec (ve_logNumber ve) 0) as [Hz | Hnz]; simpl in *; [lia |].
    apply orb_false_iff in Hc. destruct Hc as [Hc1 Hc2].
    apply Z.ltb_ge in Hc1. apply Z.leb_gt in Hc2. lia.
  - destruct H4 as (_ & Hl & _); [discriminate |]. rewrite Hl. lia.
  - destruct H4 as (_ & Hl & _); [discriminate |]. rewrite Hl. lia.
Qed.

Lemma logAndApply_log_number_monotone_witness :
  let vs := set_logNumber 5 (set_nextFileNumber 9 vs_zero) in
  let vs' := snd (logAndApply apply_empty io_ok vs (edit_with_log 7)) in
  logNumber vs <= logNumber vs' < nextFileNumber vs'.
Proof.
  apply (logAndApply_log_number_monotone apply_empty io_ok
           (set_logNumber 5 (set_nextFileNumber 9 vs_zero)) (edit_with_log 7)).
  simpl. lia.
Defined.

(** *** load *)

(** The state after the edits of a manifest have been replayed in order. *)
Definition replayed (edits : list versionEdit) (vs : versionSet) : versionSet :=
  fold_left (fun s ve => replay_edit ve s) edits vs.

Definition comparer_matches (name : string) (ve : versionEdit) : Prop :=
  ve_comparatorName ve = ""%string \/ ve_comparatorName ve = name.

Lemma replay_edit_keeps (ve : versionEdit) (vs : versionSet) :
  cmpName (replay_edit ve vs) = cmpName vs
  /\ versions (replay_edit ve vs) = versions vs
  /\ vheap (replay_edit ve vs) = vheap vs
  /\ manifest (replay_edit ve vs) = manifest vs
  /\ trace (replay_edit ve vs) = trace vs.
Proof.
  unfold replay_edit.
  destruct (negb (ve_logNumber ve =? 0)), (negb (ve_prevLogNumber ve =? 0)),
    (negb (ve_nextFileNumber ve =? 0)), (negb (ve_lastSequence ve =? 0));
    simpl; repeat split; reflexivity.
Qed.

Lemma replayed_keeps (edits : list versionEdit) (vs : versionSet) :
  cmpName (replayed edits vs) = cmpName vs
  /\ versions (replayed edits vs) = versions vs
  /\ vheap (replayed edits vs) = vheap vs.
Proof.
  revert vs. induction edits as [| ve edits IH]; intros vs; simpl.
  - repeat split; reflexivity.
  - destruct (IH (replay_edit ve vs)) as (H1 & H2 & H3).
    destruct (replay_edit_keeps ve vs) as (K1 & K2 & K3 & _).
    unfold replayed in *. rewrite H1, H2, H3, K1, K2, K3. repeat split; reflexivity.
Qed.

Lemma replay_ok_inv (recs : list recordOutcome) :
  forall (bve bve' : bulkVersionEdit) (vs vs' : versionSet),
    replay recs bve vs = Ok (bve', vs') ->
    exists edits,
      recs = map RecEdit edits
      /\ bve' = bve ++ edits
      /\ Forall (comparer_matches (cmpName vs)) edits
      /\ vs' = replayed edits vs.
Proof.
  induction recs as [| r recs IH]; intros bve bve' vs vs' H; simpl in H.
  - inversion H; subst. exists []. rewrite app_nil_r. repeat split. constructor.
  - destruct r as [e | e | ve]; try discriminate.
    destruct (String.eqb_spec (ve_comparatorName ve) "") as [He | He];
      destruct (String.eqb_spec (ve_comparatorName ve) (cmpName vs)) as [Hn | Hn];
      simpl in H; try discriminate;
      apply IH in H; destruct H as (edits & -> & -> & Hall & ->);
      exists (ve :: edits); unfold accumulate; rewrite <- app_assoc;
      destruct (replay_edit_keeps ve vs) as (K1 & _); rewrite K1 in Hall;
      (repeat split; [constructor; [unfold comparer_matches; auto | exact Hall]]).
Qed.

Lemma replay_edits_ok (edits : list versionEdit) :
  forall (bve : bulkVersionEdit) (vs : versionSet),
    Forall (comparer_matches (cmpName vs)) edits ->
    replay (map RecEdit edits) bve vs = Ok (bve ++ edits, replayed edits vs).
Proof.
  induction edits as [| ve edits IH]; intros bve vs Hall; simpl.
  - rewrite app_nil_r. reflexivity.
  - inversion Hall as [| ? ? Hve Hrest]; subst.
    assert (Hc : negb (String.eqb (ve_comparatorName ve) "")
                 && negb (String.eqb (ve_comparatorName ve) (cmpName vs)) = false).
    { destruct Hve as [-> | ->].
      - reflexivity.
      - rewrite String.eqb_refl. apply andb_false_r. }
    rewrite Hc. unfold accumulate.
    destruct (replay_edit_keeps ve vs) as (K1 & _).
    rewrite IH by (rewrite K1; exact Hrest).
    rewrite <- app_assoc. reflexivity.
Qed.

(** The state in which [load] starts the replay. *)
Definition load_start (name : string) (vs : versionSet) : versionSet :=
  {| cmpName := name; vheap := vheap vs; versions := [];
     logNumber := logNumber vs; prevLogNumber := prevLogNumber vs;
     nextFileNumber := 2; logSeqNum := logSeqNum vs;
     visibleSeqNum := visibleSeqNum vs;
     manifestFileNumber := manifestFileNumber vs; manifest := manifest vs;
     trace := trace vs |}.

Lemma load_replay_ok_inv (env : loadEnv) (name : string) (vs vs1 : versionSet)
    (bve : bulkVersionEdit) :
  load_replay env name vs = Ok (bve, vs1) ->
  exists (n : Z) (b : list byte),
    le_openCurrent env = None
    /\ le_statCurrent env = inr n /\ n <> 0 /\ n <= 4096
    /\ le_readCurrent env = inr b
    /\ nth (Z.to_nat (n - 1)) b x00 = newline
    /\ le_openManifest env (take (Z.to_nat (n - 1)) b) = inr (map RecEdit bve)
    /\ Forall (comparer_matches name) bve
    /\ vs1 = replayed bve (load_start name vs).
Proof.
  unfold load_replay.
  destruct (le_openCurrent env); [discriminate |].
  destruct (le_statCurrent env) as [e | n]; [discriminate |].
  destruct (Z.eqb_spec n 0) as [| Hn0]; [discriminate |].
  destruct (Z.ltb_spec 4096 n) as [| Hn]; [discriminate |].
  destruct (le_readCurrent env) as [e | b]; [discriminate |].
  destruct (Byte.eqb (nth (Z.to_nat (n - 1)) b x00) newline) eqn:Hnl;
    [| discriminate].
  simpl negb. cbv iota.
  destruct (le_openManifest env _) as [e | recs] eqn:Hopen; [discriminate |].
  intros H. apply replay_ok_inv in H.
  destruct H as (edits & -> & Hb & Hall & ->). simpl in Hb. subst bve.
  exists n, b. repeat split; auto.
  apply Byte.byte_dec_bl in Hnl. exact Hnl.
Qed.

Lemma markFileNumUsed_keeps (vs : versionSet) (n : Z) :
  vheap (markFileNumUsed vs n) = vheap vs
  /\ versions (markFileNumUsed vs n) = versions vs
  /\ logNumber (markFileNumUsed vs n) = logNumber vs
  /\ prevLogNumber (markFileNumUsed vs n) = prevLogNumber vs
  /\ logSeqNum (markFileNumUsed vs n) = logSeqNum vs
  /\ manifest (markFileNumUsed vs n) = manifest vs
  /\ manifestFileNumber (markFileNumUsed vs n) = manifestFileNumber vs.
Proof.
  unfold markFileNumUsed. destruct (_ <=? _); repeat split; reflexivity.
Qed.

Lemma load_finish_ok_inv
    (apply : bulkVersionEdit -> option (list (list fileMetadata)) ->
             list (list fileMetadata) + error)
    (bve : bulkVersionEdit) (vs vs' : versionSet) :
  versions vs = [] ->
  load_finish apply bve vs = Ok vs' ->
  let n1 := nextFileNumber (markFileNumUsed vs (logNumber vs)) in
  let n2 := nextFileNumber
              (markFileNumUsed (markFileNumUsed vs (logNumber vs)) (prevLogNumber vs)) in
  exists fs,
    apply bve None = inl fs
    /\ versions vs' = [length (vheap vs)]
    /\ vheap vs' = vheap vs ++ [{| refs := 1; files := fs |}]
    /\ logNumber vs' = logNumber vs
    /\ prevLogNumber vs' = prevLogNumber vs
    /\ logSeqNum vs' = logSeqNum vs
    /\ manifestFileNumber vs' = n2
    /\ nextFileNumber vs' = wrap64 (n2 + 1)
    /\ manifest vs' = manifest vs
    /\ ((logNumber vs = 0 \/ nextFileNumber vs = 0) -> nextFileNumber vs = 2).
Proof.
  intros Hv. unfold load_finish.
  destruct (((logNumber vs =? 0) || (nextFileNumber vs =? 0))
            && negb (nextFileNumber vs =? 2)) eqn:Hchk; [discriminate |].
  unfold nextFileNum.
  destruct (apply bve None) as [fs | e]; [| discriminate].
  set (s1 := markFileNumUsed vs (logNumber vs)).
  destruct (markFileNumUsed_keeps vs (logNumber vs))
    as (A1 & A2 & A3 & A4 & A5 & A6 & A7).
  fold s1 in A1, A2, A3, A4, A5, A6, A7.
  rewrite A4.
  set (s2 := markFileNumUsed s1 (prevLogNumber vs)).
  destruct (markFileNumUsed_keeps s1 (prevLogNumber vs))
    as (B1 & B2 & B3 & B4 & B5 & B6 & B7).
  fold s2 in B1, B2, B3, B4, B5, B6, B7.
  unfold append.
  cbn [vheap versions set_vheap set_manifestFileNumber set_nextFileNumber].
  rewrite B1, A1.
  rewrite lookup_app_r by lia. rewrite Nat.sub_diag. cbn [lookup list_lookup refs].
  simpl negb. cbv iota.
  unfold empty.
  cbn [vheap versions set_vheap set_manifestFileNumber set_nextFileNumber].
  rewrite B2, A2, Hv. simpl negb. cbv iota.
  intros H. inversion H; subst vs'; clear H.
  exists fs. split; [reflexivity |].
  unfold pushBack, ref.
  cbn [versions vheap logNumber prevLogNumber logSeqNum manifestFileNumber
       nextFileNumber manifest set_versions set_vheap set_manifestFileNumber
       set_nextFileNumber].
  rewrite B2, B3, B4, B5, B6, A2, A3, A4, A5, A6, Hv.
  repeat split.
  - rewrite alter_app_r_alt by lia. rewrite Nat.sub_diag. reflexivity.
  - intros Hz. apply andb_false_iff in Hchk. destruct Hchk as [Hchk | Hchk].
    + apply orb_false_iff in Hchk. destruct Hchk as [H1 H2].
      apply Z.eqb_neq in H1, H2. destruct Hz; contradiction.
    + apply negb_false_iff in Hchk. apply Z.eqb_eq in Hchk. exact Hchk.
Qed.

(** X6: [load] returns nil only if CURRENT could be opened, is between 1
    and 4096 bytes long and ends in a newline, the manifest it names (the
    content of CURRENT without that newline) could be opened, every record
    of the manifest was read and decoded, and no record names another
    comparer than the one of the options.  The version [load] then
    installs is the one [apply] builds from exactly these edits, in
    manifest order, on a nil base; it is the only version of the list and
    is referenced once. *)
Theorem load_installs_manifest_edits
    (apply : bulkVersionEdit -> option (list (list fileMetadata)) ->
             list (list fileMetadata) + error)
    (env : loadEnv) (name : string) (vs vs' : versionSet) :
  load apply env name vs = Ok vs' ->
  exists (n : Z) (b : list byte) (edits : list versionEdit)
         (fs : list (list fileMetadata)),
    le_openCurrent env = None
    /\ le_statCurrent env = inr n /\ n <> 0 /\ n <= 4096
    /\ le_readCurrent env = inr b
    /\ nth (Z.to_nat (n - 1)) b x00 = newline
    /\ le_openManifest env (take (Z.to_nat (n - 1)) b) = inr (map RecEdit edits)
    /\ Forall (comparer_matches name) edits
    /\ apply edits None = inl fs
    /\ versions vs' = [length (vheap vs)]
    /\ vheap vs' = vheap vs ++ [{| refs := 1; files := fs |}]
    /\ cmpName vs' = name.
Proof.
  unfold load. intros H.
  destruct (load_replay env name vs) as [[bve vs1] | e | msg] eqn:Hrep;
    try discriminate.
  destruct (load_replay_ok_inv env name vs vs1 bve Hrep)
    as (n & b & H1 & H2 & H3 & H4 & H5 & H6 & H7 & H8 & H9).
  destruct (replayed_keeps bve (load_start name vs)) as (K1 & K2 & K3).
  rewrite <- H9 in K1, K2, K3. simpl in K1, K2, K3.
  destruct (load_finish_ok_inv apply bve vs1 vs' K2 H)
    as (fs & F1 & F2 & F3 & _).
  exists n, b, bve, fs. rewrite K3 in F2, F3.
  repeat split; auto.
  clear -H K1. unfold load_finish in H.
  destruct (_ && _); [discriminate |].
  unfold nextFileNum in H. destruct (apply bve None); [| discriminate].
  unfold append in H.
  destruct (_ !! _); [| discriminate].
  destruct (negb _); [discriminate |].
  inversion H; subst vs'; clear H. rewrite <- K1.
  unfold pushBack, ref, unrefLocked, markFileNumUsed.
  repeat (destruct (_ <=? _); simpl); destruct (negb _); simpl;
    try destruct (back _); simpl; try destruct (_ =? 0); reflexivity.
Qed.

(** The version set that [load] produces for a freshly created database. *)
Definition fresh_loaded : versionSet :=
  Eval vm_compute in
    match load apply_empty fresh_manifest_env "cmp" vs_zero with
    | Ok v => v
    | _ => vs_zero
    end.

Lemma load_installs_manifest_edits_witness :
  exists (n : Z) (b : list byte) (edits : list versionEdit),
    le_statCurrent fresh_manifest_env = inr n
    /\ le_readCurrent fresh_manifest_env = inr b
    /\ le_openManifest fresh_manifest_env (take (Z.to_nat (n - 1)) b)
       = inr (map RecEdit edits)
    /\ apply_empty edits None = inl [].
Proof.
  assert (Hload : load apply_empty fresh_manifest_env "cmp" vs_zero = Ok fresh_loaded)
    by (vm_compute; reflexivity).
  destruct (load_installs_manifest_edits apply_empty fresh_manifest_env "cmp"
              vs_zero fresh_loaded Hload)
    as (n & b & edits & fs & _ & H2 & _ & _ & H5 & _ & H7 & _ & H9 & _).
  exists n, b, edits. repeat split; assumption.
Defined.

(** X7: after a successful [load] the manifest file number that [load]
    allocated is above both log numbers and [nextFileNumber] is the one
    after it, provided the numbers read from the manifest stay below the
    top of the [uint64] range. *)
Theorem load_allocates_fresh_manifest_number
    (apply : bulkVersionEdit -> option (list (list fileMetadata)) ->
             list (list fileMetadata) + error)
    (env : loadEnv) (name : string) (vs vs' : versionSet) :
  load apply env name vs = Ok vs' ->
  0 <= logNumber vs' < uint64_max ->
  0 <= prevLogNumber vs' < uint64_max ->
  manifestFileNumber vs' < uint64_max ->
  logNumber vs' < manifestFileNumber vs'
  /\ prevLogNumber vs' < manifestFileNumber vs'
  /\ nextFileNumber vs' = manifestFileNumber vs' + 1.
Proof.
  unfold load. intros H Hl Hpl Hm.
  destruct (load_replay env name vs) as [[bve vs1] | e | msg] eqn:Hrep;
    try discriminate.
  destruct (load_replay_ok_inv env name vs vs1 bve Hrep)
    as (n & b & _ & _ & _ & _ & _ & _ & _ & _ & H9).
  destruct (replayed_keeps bve (load_start name vs)) as (_ & K2 & _).
  rewrite <- H9 in K2. simpl in K2.
  destruct (load_finish_ok_inv apply bve vs1 vs' K2 H)
    as (fs & _ & _ & _ & F4 & F5 & _ & F7 & F8 & _).
  rewrite F4, F5 in *. rewrite F7 in *. rewrite F8. clear F4 F5 F7 F8 H.
  unfold markFileNumUsed in *.
  assert (W1 : wrap64 (logNumber vs1 + 1) = logNumber vs1 + 1)
    by (apply wrap64_small; lia).
  assert (W2 : wrap64 (prevLogNumber vs1 + 1) = prevLogNumber vs1 + 1)
    by (apply wrap64_small; lia).
  destruct (Z.leb_spec (nextFileNumber vs1) (logNumber vs1)); simpl in *;
    match goal with
    | |- context [?a <=? ?b] => destruct (Z.leb_spec a b)
    end; simpl in *; rewrite ?W1, ?W2 in *;
    (split; [lia |]; split; [lia |]; apply wrap64_small; lia).
Qed.

Lemma load_allocates_fresh_manifest_number_witness :
  load apply_empty fresh_manifest_env "cmp" vs_zero = Ok fresh_loaded
  /\ logNumber fresh_loaded < manifestFileNumber fresh_loaded
  /\ prevLogNumber fresh_loaded < manifestFileNumber fresh_loaded
  /\ nextFileNumber fresh_loaded = manifestFileNumber fresh_loaded + 1.
Proof.
  assert (Hload : load apply_empty fresh_manifest_env "cmp" vs_zero = Ok fresh_loaded)
    by (vm_compute; reflexivity).
  split; [exact Hload |].
  apply (load_allocates_fresh_manifest_number apply_empty fresh_manifest_env
           "cmp" vs_zero fresh_loaded Hload); vm_compute; split; congruence.
Defined.

Lemma replayed_app (a b : list versionEdit) (vs : versionSet) :
  replayed (a ++ b) vs = replayed b (replayed a vs).
Proof. unfold replayed. apply fold_left_app. Qed.

Lemma replay_edit_fields (ve : versionEdit) (vs : versionSet) :
  logNumber (replay_edit ve vs)
  = (if ve_logNumber ve =? 0 then logNumber vs else ve_logNumber ve)
  /\ prevLogNumber (replay_edit ve vs)
     = (if ve_prevLogNumber ve =? 0 then prevLogNumber vs else ve_prevLogNumber ve)
  /\ logSeqNum (replay_edit ve vs)
     = (if ve_lastSequence ve =? 0 then logSeqNum vs else ve_lastSequence ve).
Proof.
  unfold replay_edit.
  destruct (ve_logNumber ve =? 0), (ve_prevLogNumber ve =? 0),
    (ve_nextFileNumber ve =? 0), (ve_lastSequence ve =? 0);
    simpl; repeat split; reflexivity.
Qed.

Lemma replayed_unset (f : versionEdit -> Z) (g : versionSet -> Z)
    (edits : list versionEdit) :
  (forall ve vs, g (replay_edit ve vs) = if f ve =? 0 then g vs else f ve) ->
  Forall (fun ve => f ve = 0) edits ->
  forall vs, g (replayed edits vs) = g vs.
Proof.
  intros Hfg Hall. induction Hall as [| ve edits Hz _ IH]; intros vs; simpl.
  - reflexivity.
  - unfold replayed in *. rewrite IH, Hfg, Hz. reflexivity.
Qed.

Lemma replayed_last (f : versionEdit -> Z) (g : versionSet -> Z)
    (es1 es2 : list versionEdit) (ve : versionEdit) (vs : versionSet) :
  (forall ve vs, g (replay_edit ve vs) = if f ve =? 0 then g vs else f ve) ->
  f ve <> 0 ->
  Forall (fun ve => f ve = 0) es2 ->
  g (replayed (es1 ++ ve :: es2) vs) = f ve.
Proof.
  intros Hfg Hnz Hall. rewrite replayed_app.
  change (replayed (ve :: es2) (replayed es1 vs))
    with (replayed es2 (replay_edit ve (replayed es1 vs))).
  rewrite (replayed_unset f g es2 Hfg Hall), Hfg.
  destruct (Z.eqb_spec (f ve) 0); [contradiction | reflexivity].
Qed.

Lemma map_RecEdit_inj (a b : list versionEdit) :
  map RecEdit a = map RecEdit b -> a = b.
Proof.
  revert b. induction a as [| x a IH]; intros [| y b] H; simpl in H;
    try discriminate; [reflexivity |].
  inversion H; subst. f_equal. apply IH. assumption.
Qed.

(** X8: the log number, the previous log number and the sequence number
    that a successful [load] leaves in the version set are those of the
    last manifest edit that sets them (a field left at 0 by later edits
    does not reset it); a field that no edit of the manifest sets keeps
    the value it had before [load]. *)
Theorem load_last_edit_wins
    (apply : bulkVersionEdit -> option (list (list fileMetadata)) ->
             list (list fileMetadata) + error)
    (env : loadEnv) (name : string) (vs vs' : versionSet)
    (edits : list versionEdit) :
  load apply env name vs = Ok vs' ->
  (forall nm, le_openManifest env nm = inr (map RecEdit edits)) ->
  (forall es1 ve es2, edits = es1 ++ ve :: es2 ->
     (ve_logNumber ve <> 0 -> Forall (fun e => ve_logNumber e = 0) es2 ->
      logNumber vs' = ve_logNumber ve)
     /\ (ve_prevLogNumber ve <> 0 -> Forall (fun e => ve_prevLogNumber e = 0) es2 ->
         prevLogNumber vs' = ve_prevLogNumber ve)
     /\ (ve_lastSequence ve <> 0 -> Forall (fun e => ve_lastSequence e = 0) es2 ->
         logSeqNum vs' = ve_lastSequence ve))
  /\ (Forall (fun e => ve_logNumber e = 0) edits -> logNumber vs' = logNumber vs)
  /\ (Forall (fun e => ve_prevLogNumber e = 0) edits ->
      prevLogNumber vs' = prevLogNumber vs)
  /\ (Forall (fun e => ve_lastSequence e = 0) edits -> logSeqNum vs' = logSeqNum vs).
Proof.
  unfold load. intros H Hopen.
  destruct (load_replay env name vs) as [[bve vs1] | e | msg] eqn:Hrep;
    try discriminate.
  destruct (load_replay_ok_inv env name vs vs1 bve Hrep)
    as (n & b & _ & _ & _ & _ & _ & _ & H7 & _ & H9).
  rewrite Hopen in H7. inversion H7 as [Hmap]. apply map_RecEdit_inj in Hmap.
  subst bve.
  destruct (replayed_keeps edits (load_start name vs)) as (_ & K2 & _).
  rewrite <- H9 in K2. simpl in K2.
  destruct (load_finish_ok_inv apply edits vs1 vs' K2 H)
    as (fs & _ & _ & _ & F4 & F5 & F6 & _).
  rewrite F4, F5, F6, H9. clear F4 F5 F6 H.
  assert (G1 := fun ve s => proj1 (replay_edit_fields ve s)).
  assert (G2 := fun ve s => proj1 (proj2 (replay_edit_fields ve s))).
  assert (G3 := fun ve s => proj2 (proj2 (replay_edit_fields ve s))).
  split; [| split; [| split]].
  - intros es1 ve es2 ->. split; [| split]; intros Hnz Hall.
    + apply (replayed_last ve_logNumber logNumber es1 es2 ve _ G1 Hnz Hall).
    + apply (replayed_last ve_prevLogNumber prevLogNumber es1 es2 ve _ G2 Hnz Hall).
    + apply (replayed_last ve_lastSequence logSeqNum es1 es2 ve _ G3 Hnz Hall).
  - intros Hall.
    apply (replayed_unset ve_logNumber logNumber edits G1 Hall (load_start name vs)).
  - intros Hall.
    apply (replayed_unset ve_prevLogNumber prevLogNumber edits G2 Hall
             (load_start name vs)).
  - intros Hall.
    apply (replayed_unset ve_lastSequence logSeqNum edits G3 Hall
             (load_start name vs)).
Qed.

(** A manifest of three edits: the second sets the log number, the third
    leaves it at 0. *)
Definition three_edit_env : loadEnv :=
  {| le_openCurrent := None;
     le_statCurrent := inr 2;
     le_readCurrent := inr [x4d; x0a];
     le_openManifest := fun _ =>
       inr (map RecEdit
              [ {| ve_comparatorName := "cmp"; ve_logNumber := 3;
                   ve_prevLogNumber := 0; ve_nextFileNumber := 4;
                   ve_lastSequence := 0; ve_deletedFiles := [];
                   ve_newFiles := [] |};
                edit_with_log 7;
                edit_with_log 0 ]) |}.

Lemma load_last_edit_wins_witness :
  exists vs', load apply_empty three_edit_env "cmp" vs_zero = Ok vs'
              /\ logNumber vs' = 7 /\ prevLogNumber vs' = 0.
Proof.
  assert (Hload : {vs' | load apply_empty three_edit_env "cmp" vs_zero = Ok vs'})
    by (eexists; vm_compute; reflexivity).
  destruct Hload as [vs' Hload]. exists vs'. split; [exact Hload |].
  destruct (load_last_edit_wins apply_empty three_edit_env "cmp" vs_zero vs' _
              Hload (fun _ => eq_refl)) as (H1 & _ & H3 & _).
  split.
  - destruct (H1 [_] (edit_with_log 7) [edit_with_log 0] eq_refl) as (H & _).
    apply H; [discriminate | repeat constructor].
  - apply H3. repeat constructor.
Defined.

(** *** addLiveFileNums *)

Lemma add_files_spec (ff : list fileMetadata) (m : gset Z) (n : Z) :
  n ∈ fold_left (fun m f => m ∪ {[ fileNum f ]}) ff m
  <-> n ∈ m \/ exists f, f ∈ ff /\ fileNum f = n.
Proof.
  revert m. induction ff as [| f ff IH]; intros m; simpl.
  - split; [auto | intros [H | (f & H & _)]; [exact H | inversion H]].
  - rewrite IH, elem_of_union, elem_of_singleton. split.
    + intros [[H | H] | (g & Hg & Hn)]; [auto | |].
      * right. exists f. split; [left | auto].
      * right. exists g. split; [right; exact Hg | exact Hn].
    + intros [H | (g & Hg & Hn)]; [auto |].
      inversion Hg; subst; [left; right; reflexivity | right; eauto].
Qed.

Lemma add_levels_spec (fss : list (list fileMetadata)) (m : gset Z) (n : Z) :
  n ∈ fold_left (fun m ff => fold_left (fun m f => m ∪ {[ fileNum f ]}) ff m) fss m
  <-> n ∈ m \/ exists ff f, ff ∈ fss /\ f ∈ ff /\ fileNum f = n.
Proof.
  revert m. induction fss as [| ff fss IH]; intros m; simpl.
  - split; [auto | intros [H | (ff & f & H & _)]; [exact H | inversion H]].
  - rewrite IH, add_files_spec. split.
    + intros [[H | (f & Hf & Hn)] | (gg & g & Hgg & Hg & Hn)]; [auto | |].
      * right. exists ff, f. split; [left | auto].
      * right. exists gg, g. split; [right; exact Hgg | auto].
    + intros [H | (gg & g & Hgg & Hg & Hn)]; [auto |].
      inversion Hgg; subst; [left; right; eauto | right; eauto].
Qed.

(** X9: [addLiveFileNums] adds to [m] exactly the numbers of the files of
    the versions on the version list: a number is in the set afterwards
    if and only if it was there before or some level of some listed
    version holds a file with that number.  Nothing is ever removed. *)
Theorem addLiveFileNums_spec (vs : versionSet) (m : gset Z) (n : Z) :
  n ∈ addLiveFileNums vs m
  <-> n ∈ m
      \/ exists p v ff f,
           p ∈ versions vs /\ vheap vs !! p = Some v
           /\ ff ∈ files v /\ f ∈ ff /\ fileNum f = n.
Proof.
  unfold addLiveFileNums. generalize (versions vs) as ps. intros ps.
  revert m. induction ps as [| p ps IH]; intros m; simpl.
  - split; [auto | intros [H | (p & v & ff & f & H & _)]; [exact H | inversion H]].
  - rewrite IH, add_levels_spec. split.
    + intros [[H | (ff & f & Hff & Hf & Hn)] | (q & v & ff & f & Hq & Hv & Hrest)];
        [auto | |].
      * destruct (vheap vs !! p) as [v |] eqn:Hv; simpl in Hff; [| inversion Hff].
        right. exists p, v, ff, f. split; [left | auto].
      * right. exists q, v, ff, f. split; [right; exact Hq | auto].
    + intros [H | (q & v & ff & f & Hq & Hv & Hff & Hf & Hn)]; [auto |].
      inversion Hq; subst.
      * left. right. exists ff, f. rewrite Hv. simpl. auto.
      * right. exists q, v, ff, f. auto.
Qed.

End VersionSet.

(** ** db.go *)

Module Pebble.

#[local] Set Warnings "-clear-no-such-hyp".

Definition fileMetadata : Type := VersionSet.fileMetadata.

(** The zero value [fileMetadata{}]. *)
Definition zeroKey : InternalKey := MakeIKey [] 0.
Definition zeroMeta : fileMetadata :=
  {| VersionSet.fileNum := 0; VersionSet.size := 0;
     VersionSet.smallest := zeroKey; VersionSet.largest := zeroKey |}.

(** A memtable, as far as [Get] and the flush are concerned: its entries
    in iteration order. *)
Definition memTable : Type := list (InternalKey * list byte).

(** Calls on the file system made by [writeLevel0Table]; a table file is
    named by its file number. *)
Inductive fsEvent : Type :=
| FsCreate (fileNum : Z)
| FsRemove (fileNum : Z).

Record DB : Type := {
  versions : VersionSet.versionSet;        (* d.mu.versions *)
  closed : bool;                           (* d.mu.closed *)
  queue : list memTable;                   (* d.mu.mem.queue, mutable last *)
  flushing : bool;                         (* d.mu.compact.flushing *)
  compacting : bool;                       (* d.mu.compact.compacting *)
  pendingOutputs : gset Z;                 (* d.mu.compact.pendingOutputs *)
  tables : gset Z;                         (* table files present on disk *)
  fslog : list fsEvent
}.

Definition set_versions (v : VersionSet.versionSet) (d : DB) : DB :=
  {| versions := v; closed := closed d; queue := queue d;
     flushing := flushing d; compacting := compacting d;
     pendingOutputs := pendingOutputs d; tables := tables d; fslog := fslog d |}.
Definition set_pendingOutputs (s : gset Z) (d : DB) : DB :=
  {| versions := versions d; closed := closed d; queue := queue d;
     flushing := flushing d; compacting := compacting d;
     pendingOutputs := s; tables := tables d; fslog := fslog d |}.

(** [fs.Create(filename)] that succeeded or failed, and
    [fs.Remove(filename)]: the file is gone when the call returns nil and
    stays when it fails.  The code drops the error of [Remove]. *)
Definition fs_created (n : Z) (d : DB) : DB :=
  {| versions := versions d; closed := closed d; queue := queue d;
     flushing := flushing d; compacting := compacting d;
     pendingOutputs := pendingOutputs d;
     tables := {[ n ]} ∪ tables d; fslog := fslog d ++ [FsCreate n] |}.
Definition fs_create_failed (n : Z) (d : DB) : DB :=
  {| versions := versions d; closed := closed d; queue := queue d;
     flushing := flushing d; compacting := compacting d;
     pendingOutputs := pendingOutputs d;
     tables := tables d; fslog := fslog d ++ [FsCreate n] |}.
Definition fs_remove (out : option error) (n : Z) (d : DB) : DB :=
  {| versions := versions d; closed := closed d; queue := queue d;
     flushing := flushing d; compacting := compacting d;
     pendingOutputs := pendingOutputs d;
     tables := match out with
               | None => tables d ∖ {[ n ]}
               | Some _ => tables d
               end;
     fslog := fslog d ++ [FsRemove n] |}.

(** *** Close *)



(** *** Get *)

Section Read.

(** Modelled from the spec: [memTable.NewIter], [internalGet] and
    [version.get] are not among the sources.  [memGet mem key ikey] stands
    for seeking [key] in a memtable and running [internalGet]: the value,
    whether the answer is conclusive, and the error.  [versionGet] stands
    for [current.get]. *)
Variable memGet : memTable -> list byte -> InternalKey -> list byte * bool * option error.
Variable versionGet : option nat -> VersionSet.versionSet -> InternalKey ->
                      list byte * option error.

(** The [for] loop of [Get], newest memtable first; [memtables] is given
    in reverse. *)
Fixpoint getFromMemtables (memtables : list memTable) (key : list byte)
    (ikey : InternalKey) : option (list byte * option error) :=
  match memtables with
  | [] => None
  | mem :: older =>
      let '(value, conclusive, err) := memGet mem key ikey in
      if conclusive then Some (value, err)
      else getFromMemtables older key ikey
  end.

Definition Get (d : DB) (key : list byte) : (list byte * option error) * DB :=
  let snapshot := VersionSet.visibleSeqNum (versions d) in
  let current := VersionSet.currentVersion (versions d) in
  let vs := match current with
            | Some p => VersionSet.ref p (versions d)
            | None => versions d
            end in
  let memtables := queue d in
  let ikey := MakeInternalKey key snapshot InternalKeyKindMax in
  let r := match getFromMemtables (rev memtables) key ikey with
           | Some r => r
           | None => versionGet current vs ikey
           end in
  (* defer current.unref() *)
  let vs := match current with
            | Some p => VersionSet.unrefLocked p vs
            | None => vs
            end in
  (r, set_versions vs d).

End Read.

(** *** writeLevel0Table *)

(** What the collaborators of the flush return: the file system, the
    table writer and the memtable iterator. *)
Record flushEnv : Type := {
  fe_create : option error;          (* fs.Create(filename) *)
  fe_add : nat -> option error;      (* tw.Add for the i-th entry *)
  fe_iterClose : option error;       (* iter.Close() *)
  fe_twClose : option error;         (* tw.Close() *)
  fe_stat : error + Z;               (* tw.Stat() and stat.Size(), an int64 *)
  fe_remove : option error           (* fs.Remove(filename) *)
}.

(** The [for] loop that streams the entries into the table writer, from
    the [i]-th on: the error of the first [tw.Add] that fails, else the
    last key seen. *)
Fixpoint addEntries (env : flushEnv) (i : nat) (es : list (InternalKey * list byte))
    (largest : InternalKey) : error + InternalKey :=
  match es with
  | [] => inr largest
  | (k, _) :: rest =>
      match fe_add env i with
      | Some e => inl e
      | None => addEntries env (S i) rest k
      end
  end.

(** The locals that the deferred functions read when the body returns. *)
Record frame : Type := {
  f_meta : fileMetadata;
  f_err : option error;
  f_iter : bool;      (* iter != nil *)
  f_tw : bool         (* tw != nil *)
}.

(** The body of [writeLevel0Table] after the lock is released, up to its
    [return]. *)
Definition writeLevel0Table_body (env : flushEnv) (fileNum : Z)
    (iter : list (InternalKey * list byte)) (d : DB) : frame * DB :=
  let meta0 : fileMetadata :=
    {| VersionSet.fileNum := fileNum; VersionSet.size := 0;
       VersionSet.smallest := zeroKey; VersionSet.largest := zeroKey |} in
  match iter with
  | [] =>
      (* iter.First(); !iter.Valid() *)
      ({| f_meta := zeroMeta; f_err := Some (ErrMsg "pebble: memtable empty");
          f_iter := true; f_tw := false |}, d)
  | (k0, _) :: _ =>
      match fe_create env with
      | Some e =>
          ({| f_meta := zeroMeta; f_err := Some e; f_iter := true; f_tw := false |},
           fs_create_failed fileNum d)
      | None =>
          let d := fs_created fileNum d in
          match addEntries env 0 iter k0 with
          | inl e1 =>
              ({| f_meta := zeroMeta; f_err := Some e1; f_iter := true; f_tw := true |}, d)
          | inr largest =>
              match fe_iterClose env with
              | Some e1 =>
                  ({| f_meta := zeroMeta; f_err := Some e1;
                      f_iter := false; f_tw := true |}, d)
              | None =>
                  match fe_twClose env with
                  | Some e1 =>
                      ({| f_meta := zeroMeta; f_err := Some e1;
                          f_iter := false; f_tw := false |}, d)
                  | None =>
                      match fe_stat env with
                      | inl e =>
                          ({| f_meta := zeroMeta; f_err := Some e;
                              f_iter := false; f_tw := true |}, d)
                      | inr size =>
                          if size <? 0
                          then ({| f_meta := zeroMeta;
                                   f_err := Some (ErrMsg "pebble: table file has negative size");
                                   f_iter := false; f_tw := true |}, d)
                          else
                            ({| f_meta :=
                                  {| VersionSet.fileNum := fileNum;
                                     VersionSet.size := wrap64 size;
                                     VersionSet.smallest := k0;
                                     VersionSet.largest := largest |};
                                f_err := None; f_iter := false; f_tw := false |}, d)
                      end
                  end
              end
          end
      end
  end.

(** The deferred function that closes what is still open and, on an
    error, calls [fs.Remove] on the file, whatever that returns, and
    zeroes the result. *)
Definition deferred_cleanup (env : flushEnv) (fileNum : Z) (fr : frame) (d : DB)
    : frame * DB :=
  let err := f_err fr in
  let err := if f_iter fr then firstError err (fe_iterClose env) else err in
  let err := if f_tw fr then firstError err (fe_twClose env) else err in
  match err with
  | Some _ =>
      ({| f_meta := zeroMeta; f_err := err; f_iter := f_iter fr; f_tw := f_tw fr |},
       fs_remove (fe_remove env) fileNum d)
  | None =>
      ({| f_meta := f_meta fr; f_err := err; f_iter := f_iter fr; f_tw := f_tw fr |}, d)
  end.

(** The deferred function registered first, which runs last: on an error
    the file number leaves [pendingOutputs]. *)
Definition deferred_unpend (fileNum : Z) (fr : frame) (d : DB) : DB :=
  match f_err fr with
  | Some _ => set_pendingOutputs (pendingOutputs d ∖ {[ fileNum ]}) d
  | None => d
  end.

(** [d.mu] is released around the body and taken again by a deferred
    call; nothing else runs in between in this model. *)
Definition writeLevel0Table (env : flushEnv) (iter : list (InternalKey * list byte))
    (d : DB) : (fileMetadata * option error) * DB :=
  let '(fileNum, vs) := VersionSet.nextFileNum (versions d) in
  let d := set_versions vs d in
  let d := set_pendingOutputs ({[ fileNum ]} ∪ pendingOutputs d) d in
  let '(fr, d) := writeLevel0Table_body env fileNum iter d in
  let '(fr, d) := deferred_cleanup env fileNum fr d in
  let d := deferred_unpend fileNum fr d in
  ((f_meta fr, f_err fr), d).

(** *** Properties of writeLevel0Table *)




(** C10: an empty memtable is refused: the error is "pebble: memtable
    empty", the metadata is the zero value, and the only call made on the
    file system is the removal done on the way out; no file is created. *)
Theorem writeLevel0Table_empty_memtable (env : flushEnv) (d : DB) :
  let fileNum := VersionSet.nextFileNumber (versions d) in
  let r := writeLevel0Table env [] d in
  fst r = (zeroMeta, Some (ErrMsg "pebble: memtable empty"))
  /\ fslog (snd r) = fslog d ++ [FsRemove fileNum]
  /\ (forall n, FsCreate n ∈ fslog (snd r) -> FsCreate n ∈ fslog d)
  /\ (tables (snd r) ⊆ tables d).
Proof.
  unfold writeLevel0Table, VersionSet.nextFileNum. simpl.
  repeat split.
  - intros n Hn. apply elem_of_app in Hn. destruct Hn as [Hn | Hn]; [exact Hn |].
    apply list_elem_of_singleton in Hn. discriminate.
  - destruct (fe_remove env); set_solver.
Qed.

(** *** Properties of Close *)




(** *** More on writeLevel0Table *)

Lemma addEntries_ok (env : flushEnv) (es : list (InternalKey * list byte)) :
  forall (i : nat) (l : InternalKey),
    (forall j, (j < length es)%nat -> fe_add env (i + j) = None) ->
    addEntries env i es l = inr (from_option fst l (last es)).
Proof.
  induction es as [| [k v] es IH]; intros i l Hadd; simpl.
  - reflexivity.
  - rewrite <- (Nat.add_0_r i) at 1. rewrite (Hadd 0%nat) by (simpl; lia).
    rewrite IH.
    + rewrite (last_cons (k, v) es). destruct (last es); reflexivity.
    + intros j Hj. replace (S i + j)%nat with (i + S j)%nat by lia.
      apply Hadd. simpl. lia.
Qed.

Lemma addEntries_inv (env : flushEnv) (es : list (InternalKey * list byte)) :
  forall (i : nat) (l k : InternalKey),
    addEntries env i es l = inr k ->
    forall j, (j < length es)%nat -> fe_add env (i + j) = None.
Proof.
  induction es as [| [k0 v] es IH]; intros i l k H j Hj; simpl in *.
  - lia.
  - destruct (fe_add env i) eqn:Ha; [discriminate |].
    destruct j as [| j].
    + rewrite Nat.add_0_r. exact Ha.
    + replace (i + S j)%nat with (S i + j)%nat by lia.
      apply (IH _ _ _ H). lia.
Qed.

(** The flush can succeed: the memtable is not empty and none of the
    calls on the file system and the table writer fails. *)
Definition flush_succeeds (env : flushEnv) (iter : list (InternalKey * list byte))
    (sz : Z) : Prop :=
  iter <> []
  /\ fe_create env = None
  /\ (forall j, (j < length iter)%nat -> fe_add env j = None)
  /\ fe_iterClose env = None
  /\ fe_twClose env = None
  /\ fe_stat env = inr sz /\ 0 <= sz.

(** X10: [writeLevel0Table] returns a nil error exactly when the memtable
    is not empty, the file could be created, every [tw.Add] succeeded,
    the iterator and the writer closed without error and the size
    reported for the file is not negative.  The metadata it then returns
    carries the file number taken from the version set, that size, the
    first key of the memtable as [smallest] and its last key as
    [largest]. *)
Theorem writeLevel0Table_success (env : flushEnv)
    (iter : list (InternalKey * list byte)) (d : DB) :
  let r := writeLevel0Table env iter d in
  (snd (fst r) = None <-> exists sz, flush_succeeds env iter sz)
  /\ (forall sz, flush_succeeds env iter sz ->
      fst r =
      ({| VersionSet.fileNum := VersionSet.nextFileNumber (versions d);
          VersionSet.size := wrap64 sz;
          VersionSet.smallest := from_option fst zeroKey (head iter);
          VersionSet.largest := from_option fst zeroKey (last iter) |}, None)).
Proof.
  unfold writeLevel0Table, VersionSet.nextFileNum, flush_succeeds.
  cbv zeta. cbv beta iota.
  set (n := VersionSet.nextFileNumber (versions d)).
  unfold writeLevel0Table_body.
  destruct iter as [| [k0 v0] rest].
  { simpl. split.
    - split; [discriminate | intros (sz & H & _); contradiction].
    - intros sz (H & _). contradiction. }
  destruct (fe_create env) eqn:Hc.
  { simpl. split.
    - split; [discriminate | intros (sz & _ & H & _); discriminate].
    - intros sz (_ & H & _). discriminate. }
  destruct (addEntries env 0 ((k0, v0) :: rest) k0) as [e1 | largest] eqn:Hadd.
  { unfold deferred_cleanup; simpl. split.
    - split; [discriminate |]. intros (sz & _ & _ & H & _).
      rewrite (addEntries_ok env ((k0, v0) :: rest) 0 k0) in Hadd by exact H.
      discriminate.
    - intros sz (_ & _ & H & _).
      rewrite (addEntries_ok env ((k0, v0) :: rest) 0 k0) in Hadd by exact H.
      discriminate. }
  pose proof (addEntries_inv env _ _ _ _ Hadd) as Hall. simpl plus in Hall.
  rewrite (addEntries_ok env ((k0, v0) :: rest) 0 k0) in Hadd by exact Hall.
  inversion Hadd as [Hlargest]. clear Hadd.
  destruct (fe_iterClose env) eqn:Hic.
  { unfold deferred_cleanup; simpl. split.
    - split; [discriminate | intros (sz & _ & _ & _ & H & _); discriminate].
    - intros sz (_ & _ & _ & H & _). discriminate. }
  destruct (fe_twClose env) eqn:Htc.
  { unfold deferred_cleanup; simpl. split.
    - split; [discriminate | intros (sz & _ & _ & _ & _ & H & _); discriminate].
    - intros sz (_ & _ & _ & _ & H & _). discriminate. }
  destruct (fe_stat env) as [e | sz] eqn:Hst.
  { unfold deferred_cleanup; simpl. split.
    - split; [discriminate | intros (sz & _ & _ & _ & _ & _ & H & _); discriminate].
    - intros sz (_ & _ & _ & _ & _ & H & _). discriminate. }
  destruct (Z.ltb_spec sz 0) as [Hneg | Hpos].
  { unfold deferred_cleanup; simpl. split.
    - split; [discriminate |]. intros (sz' & _ & _ & _ & _ & _ & H & H').
      inversion H; subst. lia.
    - intros sz' (_ & _ & _ & _ & _ & H & H'). inversion H; subst. lia. }
  unfold deferred_cleanup; simpl. split.
  - split; [| reflexivity]. intros _. exists sz.
    repeat split; auto; try discriminate.
  - intros sz' (_ & _ & _ & _ & _ & H & _). inversion H; subst sz'.
    rewrite (last_cons (k0, v0) rest). destruct (last rest); reflexivity.
Qed.

(** A flush in which every call succeeds and the table file is 10 bytes
    long, of a memtable with two entries. *)
Definition flush_ok : flushEnv :=
  {| fe_create := None; fe_add := fun _ => None; fe_iterClose := None;
     fe_twClose := None; fe_stat := inr 10; fe_remove := None |}.

Definition two_entries : list (InternalKey * list byte) :=
  [(MakeInternalKey [x61] 2 1, [x31]); (MakeInternalKey [x62] 1 1, [x32])].

Definition open_db : DB :=
  {| versions := VersionSet.set_nextFileNumber 7 VersionSet.vs_zero;
     closed := false; queue := []; flushing := false; compacting := false;
     pendingOutputs := ∅; tables := ∅; fslog := [] |}.

Lemma writeLevel0Table_success_witness :
  fst (writeLevel0Table flush_ok two_entries open_db)
  = ({| VersionSet.fileNum := 7; VersionSet.size := 10;
        VersionSet.smallest := MakeInternalKey [x61] 2 1;
        VersionSet.largest := MakeInternalKey [x62] 1 1 |}, None).
Proof.
  apply (proj2 (writeLevel0Table_success flush_ok two_entries open_db) 10).
  unfold flush_succeeds. repeat split; try reflexivity.
  - discriminate.
  - lia.
Defined.

(** X11: whatever happens, [writeLevel0Table] consumes exactly one file
    number and touches nothing but the table file of that number: the
    version set is as before with [nextFileNumber] advanced by one, the
    other pending outputs and the other table files are as before, the
    only calls made on the file system are the creation and the removal
    of that one file, and the memtable queue and the flags of the DB are
    untouched. *)
Theorem writeLevel0Table_frame (env : flushEnv)
    (iter : list (InternalKey * list byte)) (d : DB) :
  let n := VersionSet.nextFileNumber (versions d) in
  let d' := snd (writeLevel0Table env iter d) in
  versions d' = VersionSet.set_nextFileNumber (wrap64 (n + 1)) (versions d)
  /\ closed d' = closed d /\ queue d' = queue d
  /\ flushing d' = flushing d /\ compacting d' = compacting d
  /\ pendingOutputs d' ∖ {[ n ]} = pendingOutputs d ∖ {[ n ]}
  /\ tables d' ∖ {[ n ]} = tables d ∖ {[ n ]}
  /\ exists evs, fslog d' = fslog d ++ evs
                 /\ forall ev, ev ∈ evs -> ev = FsCreate n \/ ev = FsRemove n.
Proof.
  unfold writeLevel0Table, VersionSet.nextFileNum.
  cbv zeta. cbv beta iota.
  set (n := VersionSet.nextFileNumber (versions d)).
  assert (Hevs : forall evs : list fsEvent,
            evs ⊆ [FsCreate n; FsRemove n] ->
            forall ev, ev ∈ evs -> ev = FsCreate n \/ ev = FsRemove n).
  { intros evs Hsub ev Hev. apply Hsub in Hev. set_solver. }
  unfold writeLevel0Table_body.
  destruct iter as [| [k0 v0] rest].
  { simpl. destruct (fe_remove env); simpl; (repeat split; try set_solver);
      exists [FsRemove n]; (split; [reflexivity | apply Hevs; set_solver]). }
  destruct (fe_create env) eqn:Hc.
  { simpl. destruct (fe_remove env); simpl; (repeat split; try set_solver);
      exists [FsCreate n; FsRemove n];
      (split; [rewrite <- app_assoc; reflexivity | apply Hevs; set_solver]). }
  assert (Hboth : forall ev, ev ∈ [FsCreate n; FsRemove n] ->
                   ev = FsCreate n \/ ev = FsRemove n).
  { apply Hevs. set_solver. }
  destruct (addEntries env 0 ((k0, v0) :: rest) k0) as [e1 | largest].
  { unfold deferred_cleanup; simpl.
    destruct (fe_remove env); simpl; (repeat split; try set_solver);
      exists [FsCreate n; FsRemove n];
      (split; [rewrite <- app_assoc; reflexivity | exact Hboth]). }
  destruct (fe_iterClose env) eqn:Hic.
  { unfold deferred_cleanup; simpl.
    destruct (fe_remove env); simpl; (repeat split; try set_solver);
      exists [FsCreate n; FsRemove n];
      (split; [rewrite <- app_assoc; reflexivity | exact Hboth]). }
  destruct (fe_twClose env) eqn:Htc.
  { unfold deferred_cleanup; simpl.
    destruct (fe_remove env); simpl; (repeat split; try set_solver);
      exists [FsCreate n; FsRemove n];
      (split; [rewrite <- app_assoc; reflexivity | exact Hboth]). }
  destruct (fe_stat env) as [e | sz].
  { unfold deferred_cleanup; simpl.
    destruct (fe_remove env); simpl; (repeat split; try set_solver);
      exists [FsCreate n; FsRemove n];
      (split; [rewrite <- app_assoc; reflexivity | exact Hboth]). }
  destruct (sz <? 0).
  { unfold deferred_cleanup; simpl.
    destruct (fe_remove env); simpl; (repeat split; try set_solver);
      exists [FsCreate n; FsRemove n];
      (split; [rewrite <- app_assoc; reflexivity | exact Hboth]). }
  unfold deferred_cleanup; simpl. repeat split; try set_solver.
  exists [FsCreate n]. split; [reflexivity |]. apply Hevs. set_solver.
Qed.

(** *** More on Get *)

Section ReadProps.

Variable memGet : memTable -> list byte -> InternalKey -> list byte * bool * option error.
Variable versionGet : option nat -> VersionSet.versionSet -> InternalKey ->
                      list byte * option error.

Definition inconclusive (key : list byte) (ikey : InternalKey) (m : memTable) : Prop :=
  snd (fst (memGet m key ikey)) = false.

Lemma getFromMemtables_skips (key : list byte) (ikey : InternalKey)
    (newer rest : list memTable) :
  Forall (inconclusive key ikey) newer ->
  getFromMemtables memGet (newer ++ rest) key ikey
  = getFromMemtables memGet rest key ikey.
Proof.
  induction 1 as [| m newer Hm _ IH]; simpl; [reflexivity |].
  unfold inconclusive in Hm.
  destruct (memGet m key ikey) as [[value c] err]. simpl in Hm. rewrite Hm.
  exact IH.
Qed.

Lemma Forall_rev_list {A : Type} (P : A -> Prop) (l : list A) :
  Forall P l -> Forall P (rev l).
Proof.
  induction 1 as [| x l Hx _ IH]; simpl; [constructor |].
  apply Forall_app. split; [exact IH | repeat constructor; exact Hx].
Qed.

(** X13: [Get] answers from the newest memtable whose lookup is
    conclusive: memtables flushed later in the queue that are not
    conclusive are passed over, older ones are never consulted.  Only
    when no memtable is conclusive does the answer come from the current
    version, which is read while [Get] holds a reference on it. *)
Theorem Get_newest_conclusive_memtable (d : DB) (key : list byte) :
  let ikey := MakeInternalKey key (VersionSet.visibleSeqNum (versions d))
                InternalKeyKindMax in
  (forall older mem newer value err,
     queue d = older ++ mem :: newer ->
     Forall (inconclusive key ikey) newer ->
     memGet mem key ikey = (value, true, err) ->
     fst (Get memGet versionGet d key) = (value, err))
  /\ (Forall (inconclusive key ikey) (queue d) ->
      fst (Get memGet versionGet d key)
      = versionGet (VersionSet.currentVersion (versions d))
          (match VersionSet.currentVersion (versions d) with
           | Some p => VersionSet.ref p (versions d)
           | None => versions d
           end) ikey).
Proof.
  intros ikey. unfold Get. cbv zeta. fold ikey. simpl fst. split.
  - intros older mem newer value err Hq Hnew Hmem.
    rewrite Hq, rev_app_distr. simpl rev. rewrite <- app_assoc.
    rewrite getFromMemtables_skips.
    + simpl. rewrite Hmem. reflexivity.
    + apply Forall_rev_list. exact Hnew.
  - intros Hall.
    rewrite <- (app_nil_r (rev (queue d))), getFromMemtables_skips; [reflexivity |].
    apply Forall_rev_list. exact Hall.
Qed.

Lemma alter_alter_same {A : Type} (f g : A -> A) (p : nat) (l : list A) (v : A) :
  l !! p = Some v -> f (g v) = v -> alter f p (alter g p l) = l.
Proof.
  intros Hl Hfg. apply list_eq. intros j.
  destruct (decide (j = p)) as [-> | Hne].
  - rewrite !list_lookup_alter_eq, Hl. cbn. f_equal. exact Hfg.
  - rewrite !list_lookup_alter_ne by auto. reflexivity.
Qed.

(** X14: [Get] leaves the DB as it found it: the reference it takes on
    the current version is dropped again on return, so that the version
    keeps its reference count and its place on the version list.  This
    needs the version to be referenced already (as every installed
    version is) and its count to be below the top of [int32]. *)
Theorem Get_restores_reference (d : DB) (key : list byte) (p : nat)
    (v : VersionSet.version) :
  VersionSet.currentVersion (versions d) = Some p ->
  VersionSet.vheap (versions d) !! p = Some v ->
  0 < VersionSet.refs v < 2 ^ 31 - 1 ->
  snd (Get memGet versionGet d key) = d.
Proof.
  intros Hcur Hv Hr. unfold Get. cbv zeta. rewrite Hcur. simpl snd.
  unfold VersionSet.unrefLocked, VersionSet.ref, VersionSet.refs_of.
  cbn [VersionSet.vheap VersionSet.set_vheap].
  assert (Hw : wrap32s (wrap32s (VersionSet.refs v + 1) - 1) = VersionSet.refs v).
  { unfold wrap32s.
    rewrite (Z.mod_small (VersionSet.refs v + 1 + 2 ^ 31)) by lia.
    replace (VersionSet.refs v + 1 + 2 ^ 31 - 2 ^ 31 - 1 + 2 ^ 31)
      with (VersionSet.refs v + 2 ^ 31) by lia.
    rewrite Z.mod_small by lia. lia. }
  rewrite (alter_alter_same _ _ p (VersionSet.vheap (versions d)) v Hv).
  2: { unfold VersionSet.with_refs. simpl. rewrite Hw. destruct v; reflexivity. }
  rewrite Hv. simpl from_option.
  destruct (Z.eqb_spec (VersionSet.refs v) 0) as [Hz | _]; [lia |].
  destruct d as [vs c q fl co po ta lg]. unfold set_versions. simpl.
  f_equal. destruct vs; reflexivity.
Qed.

End ReadProps.

(** A lookup that is conclusive on any memtable that is not empty, and a
    DB with two memtables, the newer one empty, and one version
    referenced once. *)
Definition sample_memGet (m : memTable) (_ : list byte) (_ : InternalKey)
    : list byte * bool * option error :=
  match m with
  | [] => ([], false, None)
  | (_, v) :: _ => (v, true, None)
  end.

Definition sample_versionGet (_ : option nat) (_ : VersionSet.versionSet)
    (_ : InternalKey) : list byte * option error :=
  ([], Some (ErrMsg "pebble: not found")).

Definition sample_db : DB :=
  {| versions :=
       VersionSet.set_versions [0%nat]
         (VersionSet.set_vheap [{| VersionSet.refs := 1; VersionSet.files := [] |}]
            VersionSet.vs_zero);
     closed := false;
     queue := [[(MakeInternalKey [x61] 1 1, [x31])]; []];
     flushing := false; compacting := false;
     pendingOutputs := ∅; tables := ∅; fslog := [] |}.

Lemma Get_newest_conclusive_memtable_witness :
  fst (Get sample_memGet sample_versionGet sample_db [x61]) = ([x31], None).
Proof.
  apply (proj1 (Get_newest_conclusive_memtable sample_memGet sample_versionGet
                  sample_db [x61])
           [] [(MakeInternalKey [x61] 1 1, [x31])] [[]]).
  - reflexivity.
  - repeat constructor.
  - reflexivity.
Defined.

Lemma Get_restores_reference_witness :
  snd (Get sample_memGet sample_versionGet sample_db [x61]) = sample_db.
Proof.
  apply (Get_restores_reference sample_memGet sample_versionGet sample_db [x61]
           0%nat {| VersionSet.refs := 1; VersionSet.files := [] |}).
  - reflexivity.
  - reflexivity.
  - simpl. lia.
Defined.

End Pebble.

(** ** sstable/block.go *)

Module Block.

(** *** Bytes and encoding/binary *)

Definition byte_to_Z (b : byte) : Z := Z.of_N (Byte.to_N b).

(** The conversion [byte(x)] of Go: the low eight bits. *)
Definition byte_of_Z (z : Z) : byte :=
  match Byte.of_N (Z.to_N (z mod 256)) with
  | Some b => b
  | None => x00
  end.

(** [binary.PutUvarint]: the loop runs at most nine times on a [uint64]. *)
Fixpoint putUvarint (fuel : nat) (x : Z) : list byte :=
  match fuel with
  | O => [byte_of_Z x]
  | S fuel' =>
      if 128 <=? x
      then byte_of_Z (Z.lor (x mod 256) 128) :: putUvarint fuel' (Z.shiftr x 7)
      else [byte_of_Z x]
  end.

Definition PutUvarint (x : Z) : list byte := putUvarint 9 x.

(** [binary.LittleEndian.PutUint32], [Uint32], [PutUint64], [Uint64]. *)

Fixpoint putLE (n : nat) (x : Z) : list byte :=
  match n with
  | O => []
  | S n' => byte_of_Z x :: putLE n' (Z.shiftr x 8)
  end.

Fixpoint getLE (bs : list byte) : Z :=
  match bs with
  | [] => 0
  | b :: rest => Z.lor (byte_to_Z b) (Z.shiftl (getLE rest) 8)
  end.

Definition PutUint32 (x : Z) : list byte := putLE 4 x.
Definition PutUint64 (x : Z) : list byte := putLE 8 x.
Definition Uint64 (bs : list byte) : Z := getLE (take 8 bs).

(** [binary.LittleEndian.Uint32(data[p:])] *)
Definition Uint32 (data : list byte) (p : Z) : Z :=
  getLE (take 4 (drop (Z.to_nat p) data)).

(** Modelled from the spec: [decodeVarint] is a helper of package sstable
    that is not among the sources.  It reads the varint of a [uint32] at
    [ptr], at most five bytes (the fifth is taken whatever its high bit),
    and returns the value and the pointer past it.  Bytes past the end of
    the block read as zero. *)
Fixpoint decodeVarintFrom (n : nat) (l : list byte) : Z * Z :=
  match n with
  | O => (0, 0)
  | S n' =>
      let b := match l with [] => 0 | b :: _ => byte_to_Z b end in
      if (b <? 128) || Nat.eqb n' 0 then (Z.land b 127, 1)
      else
        let '(v, c) := decodeVarintFrom n' (tl l) in
        (Z.lor (Z.land b 127) (Z.shiftl v 7), c + 1)
  end.

Definition decodeVarint (data : list byte) (ptr : Z) : Z * Z :=
  let '(v, c) := decodeVarintFrom 5 (drop (Z.to_nat ptr) data) in
  (wrap32 v, ptr + c).

(** Modelled from the spec: [getBytes ptr n] is the [n] bytes at [ptr]. *)
Definition getBytes (data : list byte) (ptr n : Z) : list byte :=
  take (Z.to_nat n) (drop (Z.to_nat ptr) data).

(** *** Internal keys on the wire (package db)

    Modelled from the spec: the encoded key is the user key followed by the
    eight bytes of the trailer, little-endian; a key of fewer than eight
    bytes decodes to the invalid key.  [SharedPrefixLen] is the length of
    the longest common prefix. *)

Definition Encode (k : InternalKey) : list byte :=
  UserKey k ++ PutUint64 (Trailer k).

Definition Size (k : InternalKey) : Z := Z.of_nat (length (UserKey k)) + 8.

Definition DecodeInternalKey (encodedKey : list byte) : InternalKey :=
  let n := (Z.of_nat (length encodedKey) - 8)%Z in
  if 0 <=? n
  then MakeIKey (take (Z.to_nat n) encodedKey)
                (Uint64 (drop (Z.to_nat n) encodedKey))
  else MakeIKey [] InternalKeyKindInvalid.

Fixpoint SharedPrefixLen (a b : list byte) : nat :=
  match a, b with
  | x :: a', y :: b' => if Byte.eqb x y then S (SharedPrefixLen a' b') else 0%nat
  | _, _ => 0%nat
  end.

(** [InternalCompare]: user keys by the comparer, then trailers, larger
    first. *)
Definition InternalCompare (cmp : list byte -> list byte -> Z) (a b : InternalKey) : Z :=
  let x := cmp (UserKey a) (UserKey b) in
  if negb (x =? 0) then x
  else if Trailer a <? Trailer b then 1
  else if Trailer b <? Trailer a then -1
  else 0.

(** *** blockWriter *)

Record blockWriter : Type := {
  restartInterval : Z;
  nEntries : Z;
  buf : list byte;
  w_restarts : list Z;
  curKey : list byte;
  prevKey : list byte
}.

(** [w.nEntries % w.restartInterval] panics in Go when the interval is 0;
    the writer is only used with an interval of at least 1. *)
Definition store (w : blockWriter) (keySize : Z) (value : list byte) : blockWriter :=
  let restart := Z.rem (nEntries w) (restartInterval w) =? 0 in
  let shared := if restart then 0
                else Z.of_nat (SharedPrefixLen (curKey w) (prevKey w)) in
  let restarts' := if restart
                   then w_restarts w ++ [wrap32 (Z.of_nat (length (buf w)))]
                   else w_restarts w in
  {| restartInterval := restartInterval w;
     nEntries := nEntries w + 1;
     buf := buf w ++ PutUvarint shared ++ PutUvarint (keySize - shared)
                ++ PutUvarint (Z.of_nat (length value))
                ++ drop (Z.to_nat shared) (curKey w) ++ value;
     w_restarts := restarts';
     curKey := curKey w;
     prevKey := prevKey w |}.

Definition add (w : blockWriter) (k : InternalKey) (value : list byte) : blockWriter :=
  (* w.curKey, w.prevKey = w.prevKey, w.curKey; then the key is encoded
     into w.curKey *)
  let w' := {| restartInterval := restartInterval w; nEntries := nEntries w;
               buf := buf w; w_restarts := w_restarts w;
               curKey := Encode k; prevKey := curKey w |} in
  store w' (Size k) value.

Definition finish (w : blockWriter) : list byte :=
  let restarts := if nEntries w =? 0 then [0] else w_restarts w in
  buf w ++ flat_map PutUint32 restarts
        ++ PutUint32 (wrap32 (Z.of_nat (length restarts))).

Definition newWriter (interval : Z) : blockWriter :=
  {| restartInterval := interval; nEntries := 0; buf := [];
     w_restarts := []; curKey := []; prevKey := [] |}.

(** A block written from a list of entries. *)
Definition entry : Type := (InternalKey * list byte)%type.

Definition addEntry (w : blockWriter) (e : entry) : blockWriter :=
  add w (fst e) (snd e).

Definition writeBlock (interval : Z) (entries : list entry) : list byte :=
  finish (fold_left addEntry entries (newWriter interval)).

(** *** Go slices of bytes

    The iterator keeps several slices that may share a backing array
    ([i.key], [i.cachedBuf], the keys of the cached entries).  A slice is
    an array of the heap, an offset, a length and a capacity.  [append]
    writes in place when the capacity allows, and otherwise allocates an
    array that is large enough; how much larger is up to the runtime, and
    is read off [slack]: the extra capacity granted by each allocation
    that [append] makes, in order. *)

Record slice : Type := {
  s_arr : nat;
  s_off : nat;
  s_len : nat;
  s_cap : nat
}.

Definition nil_slice : slice := {| s_arr := 0; s_off := 0; s_len := 0; s_cap := 0 |}.

Record memory : Type := {
  arrays : list (list byte);
  slack : list nat
}.

Definition contents (m : memory) (s : slice) : list byte :=
  take (s_len s) (drop (s_off s) (nth (s_arr s) (arrays m) [])).

Definition write_at (arr : list byte) (off : nat) (bs : list byte) : list byte :=
  take off arr ++ bs ++ drop (off + length bs) arr.

(** [s[:n]]: panics ([None]) when [n] exceeds the capacity. *)
Definition reslice (s : slice) (n : nat) : option slice :=
  if (n <=? s_cap s)%nat
  then Some {| s_arr := s_arr s; s_off := s_off s; s_len := n; s_cap := s_cap s |}
  else None.

(** [s[:len(s):len(s)]] *)
Definition clip (s : slice) : slice :=
  {| s_arr := s_arr s; s_off := s_off s; s_len := s_len s; s_cap := s_len s |}.

(** [s[lo:hi:hi]] for [lo <= hi <= len(s)] *)
Definition subslice (s : slice) (lo hi : nat) : slice :=
  {| s_arr := s_arr s; s_off := (s_off s + lo)%nat;
     s_len := (hi - lo)%nat; s_cap := (hi - lo)%nat |}.

(** [make([]byte, 0, n)] *)
Definition make (m : memory) (n : nat) : memory * slice :=
  ({| arrays := arrays m ++ [replicate n x00]; slack := slack m |},
   {| s_arr := length (arrays m); s_off := 0; s_len := 0; s_cap := n |}).

(** [append(s, bs...)] *)
Definition go_append (m : memory) (s : slice) (bs : list byte) : memory * slice :=
  let n := length bs in
  if (s_len s + n <=? s_cap s)%nat
  then
    ({| arrays := alter (fun arr => write_at arr (s_off s + s_len s) bs)
                        (s_arr s) (arrays m);
        slack := slack m |},
     {| s_arr := s_arr s; s_off := s_off s; s_len := (s_len s + n)%nat;
        s_cap := s_cap s |})
  else
    let extra := hd 0%nat (slack m) in
    ({| arrays := arrays m ++ [contents m s ++ bs ++ replicate extra x00];
        slack := tl (slack m) |},
     {| s_arr := length (arrays m); s_off := 0; s_len := (s_len s + n)%nat;
        s_cap := (s_len s + n + extra)%nat |}).

(** *** blockIter *)

Record blockEntry : Type := {
  e_offset : Z;
  e_key : slice;
  e_val : list byte
}.

(** [val] and the values of the cached entries point into the block,
    which is never written: they are kept by value.  [i.ikey] is the
    trailer and a user key that shares the array of [i.key]. *)
Record blockIter : Type := {
  offset : Z;
  nextOffset : Z;
  restarts : Z;
  numRestarts : Z;
  globalSeqNum : Z;
  data : list byte;
  key : slice;
  val : list byte;
  ikey_user : slice;
  ikey_trailer : Z;
  cached : list blockEntry;
  cachedBuf : slice;
  mem : memory
}.

Definition set_offset (x : Z) (i : blockIter) : blockIter :=
  {| offset := x; nextOffset := nextOffset i; restarts := restarts i;
     numRestarts := numRestarts i; globalSeqNum := globalSeqNum i;
     data := data i; key := key i; val := val i; ikey_user := ikey_user i;
     ikey_trailer := ikey_trailer i; cached := cached i;
     cachedBuf := cachedBuf i; mem := mem i |}.
Definition set_nextOffset (x : Z) (i : blockIter) : blockIter :=
  {| offset := offset i; nextOffset := x; restarts := restarts i;
     numRestarts := numRestarts i; globalSeqNum := globalSeqNum i;
     data := data i; key := key i; val := val i; ikey_user := ikey_user i;
     ikey_trailer := ikey_trailer i; cached := cached i;
     cachedBuf := cachedBuf i; mem := mem i |}.
Definition set_key (x : slice) (i : blockIter) : blockIter :=
  {| offset := offset i; nextOffset := nextOffset i; restarts := restarts i;
     numRestarts := numRestarts i; globalSeqNum := globalSeqNum i;
     data := data i; key := x; val := val i; ikey_user := ikey_user i;
     ikey_trailer := ikey_trailer i; cached := cached i;
     cachedBuf := cachedBuf i; mem := mem i |}.
Definition set_val (x : list byte) (i : blockIter) : blockIter :=
  {| offset := offset i; nextOffset := nextOffset i; restarts := restarts i;
     numRestarts := numRestarts i; globalSeqNum := globalSeqNum i;
     data := data i; key := key i; val := x; ikey_user := ikey_user i;
     ikey_trailer := ikey_trailer i; cached := cached i;
     cachedBuf := cachedBuf i; mem := mem i |}.
Definition set_ikey_user (x : slice) (i : blockIter) : blockIter :=
  {| offset := offset i; nextOffset := nextOffset i; restarts := restarts i;
     numRestarts := numRestarts i; globalSeqNum := globalSeqNum i;
     data := data i; key := key i; val := val i; ikey_user := x;
     ikey_trailer := ikey_trailer i; cached := cached i;
     cachedBuf := cachedBuf i; mem := mem i |}.
Definition set_ikey_trailer (x : Z) (i : blockIter) : blockIter :=
  {| offset := offset i; nextOffset := nextOffset i; restarts := restarts i;
     numRestarts := numRestarts i; globalSeqNum := globalSeqNum i;
     data := data i; key := key i; val := val i; ikey_user := ikey_user i;
     ikey_trailer := x; cached := cached i; cachedBuf := cachedBuf i;
     mem := mem i |}.
Definition set_cached (x : list blockEntry) (i : blockIter) : blockIter :=
  {| offset := offset i; nextOffset := nextOffset i; restarts := restarts i;
     numRestarts := numRestarts i; globalSeqNum := globalSeqNum i;
     data := data i; key := key i; val := val i; ikey_user := ikey_user i;
     ikey_trailer := ikey_trailer i; cached := x; cachedBuf := cachedBuf i;
     mem := mem i |}.
Definition set_cachedBuf (x : slice) (i : blockIter) : blockIter :=
  {| offset := offset i; nextOffset := nextOffset i; restarts := restarts i;
     numRestarts := numRestarts i; globalSeqNum := globalSeqNum i;
     data := data i; key := key i; val := val i; ikey_user := ikey_user i;
     ikey_trailer := ikey_trailer i; cached := cached i; cachedBuf := x;
     mem := mem i |}.
Definition set_mem (x : memory) (i : blockIter) : blockIter :=
  {| offset := offset i; nextOffset := nextOffset i; restarts := restarts i;
     numRestarts := numRestarts i; globalSeqNum := globalSeqNum i;
     data := data i; key := key i; val := val i; ikey_user := ikey_user i;
     ikey_trailer := ikey_trailer i; cached := cached i;
     cachedBuf := cachedBuf i; mem := x |}.

(** [sort.Search] of the Go library: binary search for the least index in
    [[0, n)] at which [f] holds; [None] if the fuel runs out. *)
Fixpoint search_loop (fuel : nat) (f : Z -> bool) (i j : Z) : option Z :=
  if i <? j then
    match fuel with
    | O => None
    | S fuel' =>
        let h := (i + j) / 2 in
        if negb (f h) then search_loop fuel' f (h + 1) j
        else search_loop fuel' f i h
    end
  else Some i.

Definition Search (n : Z) (f : Z -> bool) : option Z :=
  search_loop (Z.to_nat n) f 0 n.

Definition init (oracle : list nat) (block : list byte) : result blockIter :=
  if Z.of_nat (length block) <? 4
  then Panic "slice bounds out of range"
  else
    let nr := Uint32 block (Z.of_nat (length block) - 4) in
    if nr =? 0
    then Err (ErrMsg "pebble/table: invalid table (block has no restart points)")
    else
      let '(m, k) := make {| arrays := []; slack := oracle |} 256 in
      Ok {| offset := 0; nextOffset := 0;
            restarts := Z.of_nat (length block) - 4 * (1 + nr);
            numRestarts := nr; globalSeqNum := 0; data := block;
            key := k; val := []; ikey_user := nil_slice; ikey_trailer := 0;
            cached := []; cachedBuf := nil_slice; mem := m |}.

(** [newBlockIter] starts from a zero [blockIter], whose [key] is nil, so
    [init] allocates it. *)
Definition newBlockIter (oracle : list nat) (block : list byte) : result blockIter :=
  init oracle block.

Definition readEntry (i : blockIter) : option blockIter :=
  let ptr := offset i in
  let '(shared, ptr) := decodeVarint (data i) ptr in
  let '(unshared, ptr) := decodeVarint (data i) ptr in
  let '(value, ptr) := decodeVarint (data i) ptr in
  match reslice (key i) (Z.to_nat shared) with
  | None => None
  | Some s =>
      let '(m, k) := go_append (mem i) s (getBytes (data i) ptr unshared) in
      let k := clip k in
      let ptr := ptr + unshared in
      Some (set_nextOffset (ptr + value)
             (set_val (getBytes (data i) ptr value)
               (set_key k (set_mem m i))))
  end.

Definition decodeInternalKey (i : blockIter) : blockIter :=
  let n := (Z.of_nat (s_len (key i)) - 8)%Z in
  let '(user, trailer) :=
    if 0 <=? n
    then ({| s_arr := s_arr (key i); s_off := s_off (key i);
             s_len := Z.to_nat n; s_cap := Z.to_nat n |},
          Uint64 (drop (Z.to_nat n) (contents (mem i) (key i))))
    else (nil_slice, InternalKeyKindInvalid) in
  let trailer :=
    if negb (globalSeqNum i =? 0)
    then Z.lor (Z.shiftl (globalSeqNum i) 8) (Z.land trailer 255)
    else trailer in
  set_ikey_trailer trailer (set_ikey_user user i).

Definition loadEntry (i : blockIter) : option blockIter :=
  match readEntry i with
  | Some i => Some (decodeInternalKey i)
  | None => None
  end.

Definition clearCache (i : blockIter) : blockIter :=
  set_cachedBuf {| s_arr := s_arr (cachedBuf i); s_off := s_off (cachedBuf i);
                   s_len := 0; s_cap := s_cap (cachedBuf i) |}
    (set_cached [] i).

Definition cacheEntry (i : blockIter) : blockIter :=
  let k := contents (mem i) (key i) in
  let '(m, cb) := go_append (mem i) (cachedBuf i) k in
  let e := {| e_offset := offset i;
              e_key := subslice cb (s_len cb - s_len (key i)) (s_len cb);
              e_val := val i |} in
  set_cached (cached i ++ [e]) (set_cachedBuf cb (set_mem m i)).

Definition Valid (i : blockIter) : bool :=
  (0 <=? offset i) && (offset i <? restarts i).

(** [i.Key()] and [i.Value()], as the caller reads them. *)
Definition Key (i : blockIter) : InternalKey :=
  MakeIKey (contents (mem i) (ikey_user i)) (ikey_trailer i).

Definition Value (i : blockIter) : list byte := val i.

(** The offset stored at restart point [j]. *)
Definition restartAt (i : blockIter) (j : Z) : Z :=
  Uint32 (data i) (restarts i + 4 * j).

Definition First (i : blockIter) : option blockIter :=
  loadEntry (set_offset 0 i).

Definition Next (i : blockIter) : option (blockIter * bool) :=
  let i := set_offset (nextOffset i) i in
  if negb (Valid i) then Some (i, false)
  else match loadEntry i with
       | Some i => Some (i, true)
       | None => None
       end.

(** [for i.nextOffset < bound { i.offset = i.nextOffset; i.readEntry();
    i.cacheEntry() }] *)
Fixpoint readAndCache (fuel : nat) (bound : Z) (i : blockIter) : option blockIter :=
  if nextOffset i <? bound then
    match fuel with
    | O => None
    | S fuel' =>
        match readEntry (set_offset (nextOffset i) i) with
        | Some i => readAndCache fuel' bound (cacheEntry i)
        | None => None
        end
    end
  else Some i.

Definition Last (i : blockIter) : option blockIter :=
  let i := set_offset (restartAt i (numRestarts i - 1)) i in
  match readEntry i with
  | None => None
  | Some i =>
      let i := cacheEntry (clearCache i) in
      match readAndCache (length (data i)) (restarts i) i with
      | Some i => Some (decodeInternalKey i)
      | None => None
      end
  end.

Definition Prev (i : blockIter) : option (blockIter * bool) :=
  let n := (Z.of_nat (length (cached i)) - 1)%Z in
  let fast :=
    if 0 <? n then
      match nth_error (cached i) (Z.to_nat n), nth_error (cached i) (Z.to_nat (n - 1)) with
      | Some en, Some e => if e_offset en =? offset i then Some e else None
      | _, _ => None
      end
    else None in
  match fast with
  | Some e =>
      let i := set_nextOffset (offset i) i in
      let i := set_offset (e_offset e) i in
      let i := set_key (e_key e) i in
      let i := set_val (e_val e) i in
      let i := decodeInternalKey i in
      Some (set_cached (take (Z.to_nat n) (cached i)) i, true)
  | None =>
      if offset i =? 0
      then Some (set_nextOffset 0 (set_offset (-1) i), false)
      else
        let targetOffset := offset i in
        match Search (numRestarts i) (fun j => targetOffset <=? restartAt i j) with
        | None => None
        | Some index =>
            let i := set_offset 0 i in
            let i := if 0 <? index then set_offset (restartAt i (index - 1)) i else i in
            match readEntry i with
            | None => None
            | Some i =>
                let i := cacheEntry (clearCache i) in
                match readAndCache (length (data i)) targetOffset i with
                | Some i => Some (decodeInternalKey i, true)
                | None => None
                end
            end
        end
  end.

Section Seek.

Variable cmp : list byte -> list byte -> Z.

(** The key stored at restart point [j], read as [SeekGE] reads it. *)
Definition restartKey (i : blockIter) (j : Z) : InternalKey :=
  let offset := restartAt i j in
  let ptr := offset + 1 in
  let '(v1, ptr) := decodeVarint (data i) ptr in
  let '(_, ptr) := decodeVarint (data i) ptr in
  DecodeInternalKey (getBytes (data i) ptr v1).

(** [for ; i.Valid(); i.Next() { if InternalCompare(i.ikey, ikey) >= 0
    { break } }] *)
Fixpoint seekLoop (fuel : nat) (ikey : InternalKey) (i : blockIter) : option blockIter :=
  if Valid i then
    if 0 <=? InternalCompare cmp (Key i) ikey then Some i
    else
      match fuel with
      | O => None
      | S fuel' =>
          match Next i with
          | Some (i, _) => seekLoop fuel' ikey i
          | None => None
          end
      end
  else Some i.

Definition SeekGE (i : blockIter) (k : list byte) : option blockIter :=
  let ikey := MakeSearchKey k in
  let i := set_offset 0 i in
  match Search (numRestarts i)
          (fun j => InternalCompare cmp ikey (restartKey i j) <? 0) with
  | None => None
  | Some index =>
      let i := if 0 <? index then set_offset (restartAt i (index - 1)) i else i in
      match loadEntry i with
      | None => None
      | Some i => seekLoop (length (data i)) ikey i
      end
  end.

End Seek.

(** *** Iterating over a block

    [for i.First(); i.Valid(); i.Next()] and
    [for i.Last(); i.Valid(); i.Prev()], collecting what [Key] and [Value]
    return at each position. *)

Fixpoint collectNext (fuel : nat) (i : blockIter) : option (list (InternalKey * list byte)) :=
  if Valid i then
    match fuel with
    | O => None
    | S fuel' =>
        match Next i with
        | Some (i', _) =>
            match collectNext fuel' i' with
            | Some rest => Some ((Key i, Value i) :: rest)
            | None => None
            end
        | None => None
        end
    end
  else Some [].

Fixpoint collectPrev (fuel : nat) (i : blockIter) : option (list (InternalKey * list byte)) :=
  if Valid i then
    match fuel with
    | O => None
    | S fuel' =>
        match Prev i with
        | Some (i', _) =>
            match collectPrev fuel' i' with
            | Some rest => Some ((Key i, Value i) :: rest)
            | None => None
            end
        | None => None
        end
    end
  else Some [].

Definition iterateForward (oracle : list nat) (block : list byte)
    : option (list (InternalKey * list byte)) :=
  match newBlockIter oracle block with
  | Ok i =>
      match First i with
      | Some i => collectNext (length block) i
      | None => None
      end
  | _ => None
  end.

Definition iterateBackward (oracle : list nat) (block : list byte)
    : option (list (InternalKey * list byte)) :=
  match newBlockIter oracle block with
  | Ok i =>
      match Last i with
      | Some i => collectPrev (length block) i
      | None => None
      end
  | _ => None
  end.

(** *** Well-formedness and comparers *)

(** A slice lies within its backing array. *)
Definition valid_slice (m : memory) (s : slice) : Prop :=
  (s_arr s < length (arrays m))%nat
  /\ (s_off s + s_cap s <= length (nth (s_arr s) (arrays m) []))%nat
  /\ (s_len s <= s_cap s)%nat.

(** What is asked of the user comparer: its sign is antisymmetric and
    "not greater" is transitive. *)
Definition comparer_ok (cmp : list byte -> list byte -> Z) : Prop :=
  (forall a b, cmp a b < 0 <-> 0 < cmp b a)
  /\ (forall a b c, cmp a b <= 0 -> cmp b c <= 0 -> cmp a c <= 0).

(** [bytes.Compare], the default comparer. *)
Fixpoint bytesCompare (a b : list byte) : Z :=
  match a, b with
  | [], [] => 0
  | [], _ :: _ => -1
  | _ :: _, [] => 1
  | x :: a', y :: b' =>
      if byte_to_Z x <? byte_to_Z y then -1
      else if byte_to_Z y <? byte_to_Z x then 1
      else bytesCompare a' b'
  end.

(** *** A sample block

    Six entries with user keys "a" to "f", sequence number 1 and kind Set,
    written with restart interval 2.  All encoded keys have nine bytes. *)

Definition sample_key (b : byte) : InternalKey := MakeInternalKey [b] 1 1.

Definition sample_entries : list (InternalKey * list byte) :=
  [(sample_key "a", ["1"%byte]); (sample_key "b", ["2"%byte]);
   (sample_key "c", ["3"%byte]); (sample_key "d", ["4"%byte]);
   (sample_key "e", ["5"%byte]); (sample_key "f", ["6"%byte])].

Definition sample_block : list byte := writeBlock 2 sample_entries.

(** *** The rest of blockWriter *)

(** [uvarintLen]: the loop runs at most four times on a [uint32]. *)
Fixpoint uvarintLen_loop (fuel : nat) (v i : Z) : Z :=
  match fuel with
  | O => i + 1
  | S fuel' =>
      if 128 <=? v then uvarintLen_loop fuel' (Z.shiftr v 7) (i + 1)
      else i + 1
  end.

Definition uvarintLen (v : Z) : Z := uvarintLen_loop 4 v 0.

(** [reset] truncates the buffer and the restart points; the key buffers
    are left as they are. *)
Definition reset (w : blockWriter) : blockWriter :=
  {| restartInterval := restartInterval w; nEntries := 0; buf := [];
     w_restarts := []; curKey := curKey w; prevKey := prevKey w |}.

Definition estimatedSize (w : blockWriter) : Z :=
  Z.of_nat (length (buf w)) + 4 * (Z.of_nat (length (w_restarts w)) + 1).

(** *** The rest of blockIter *)

Definition NextUserKey (i : blockIter) : option (blockIter * bool) := Next i.

Definition PrevUserKey (i : blockIter) : option (blockIter * bool) := Prev i.

(** *** Bytes, varints and little-endian words *)

Lemma byte_to_Z_range (b : byte) : 0 <= byte_to_Z b < 256.
Proof.
  unfold byte_to_Z. pose proof (Byte.to_N_bounded b). lia.
Qed.

Lemma byte_to_of_Z (z : Z) : byte_to_Z (byte_of_Z z) = z mod 256.
Proof.
  unfold byte_to_Z, byte_of_Z.
  assert (Hr : 0 <= z mod 256 < 256) by (apply Z.mod_pos_bound; lia).
  destruct (Byte.of_N (Z.to_N (z mod 256))) as [b |] eqn:E.
  - apply Byte.to_of_N in E. rewrite E. apply Z2N.id. lia.
  - pose proof (Byte.to_of_N_option_map (Z.to_N (z mod 256))) as H.
    rewrite E in H. simpl in H.
    destruct (N.leb_spec (Z.to_N (z mod 256)) 255); [discriminate | lia].
Qed.

Lemma byte_of_to_Z (b : byte) : byte_of_Z (byte_to_Z b) = b.
Proof.
  unfold byte_of_Z. rewrite Z.mod_small by apply byte_to_Z_range.
  unfold byte_to_Z. rewrite N2Z.id, Byte.of_to_N. reflexivity.
Qed.

Lemma lor_shiftl_add (a b k : Z) :
  0 <= k -> 0 <= a < 2 ^ k -> Z.lor a (Z.shiftl b k) = a + b * 2 ^ k.
Proof.
  intros Hk Ha.
  rewrite <- (Z.shiftl_mul_pow2 b k) by exact Hk.
  rewrite <- (Z.add_lor_land a (Z.shiftl b k)).
  assert (Hz : Z.land a (Z.shiftl b k) = 0).
  { apply Z.bits_inj'. intros n Hn.
    rewrite Z.land_spec, Z.bits_0.
    destruct (Z.lt_ge_cases n k) as [Hlt | Hge].
    - rewrite (Z.shiftl_spec_low b k n Hlt). apply andb_false_r.
    - rewrite <- (Z.mod_small a (2 ^ k)) by exact Ha.
      rewrite Z.mod_pow2_bits_high by lia. reflexivity. }
  rewrite Hz. lia.
Qed.

Lemma land_127 (b : Z) : Z.land b 127 = b mod 128.
Proof.
  change 127 with (Z.ones 7). rewrite Z.land_ones by lia. reflexivity.
Qed.

Lemma lor_128 (x : Z) : 0 <= x < 128 -> Z.lor x 128 = x + 128.
Proof.
  intros H. change 128 with (Z.shiftl 1 7) at 1.
  rewrite lor_shiftl_add; [reflexivity | lia | change (2 ^ 7) with 128; lia].
Qed.

(** The first byte that [PutUvarint] writes for [x >= 128]. *)
Lemma continuation_byte (x : Z) :
  0 <= x ->
  byte_to_Z (byte_of_Z (Z.lor (x mod 256) 128)) = x mod 128 + 128.
Proof.
  intros Hx. rewrite byte_to_of_Z.
  assert (Hm : 0 <= x mod 256 < 256) by (apply Z.mod_pos_bound; lia).
  assert (Hl : Z.lor (x mod 256) 128 = x mod 128 + 128).
  { apply Z.bits_inj'. intros n Hn.
    rewrite Z.lor_spec.
    assert (H128 : Z.testbit 128 n = (n =? 7)).
    { change 128 with (2 ^ 7). rewrite Z.pow2_bits_eqb by lia. apply Z.eqb_sym. }
    rewrite <- (lor_128 (x mod 128)) by (apply Z.mod_pos_bound; lia).
    rewrite Z.lor_spec, H128.
    change 256 with (2 ^ 8). change 128 with (2 ^ 7).
    destruct (Z.eqb_spec n 7) as [-> | Hne]; [rewrite !orb_true_r; reflexivity |].
    rewrite !orb_false_r.
    destruct (Z.lt_ge_cases n 7) as [Hlt | Hge].
    - rewrite !Z.mod_pow2_bits_low by lia. reflexivity.
    - rewrite !Z.mod_pow2_bits_high by lia. reflexivity. }
  rewrite Hl. apply Z.mod_small.
  pose proof (Z.mod_pos_bound x 128). lia.
Qed.

Lemma shiftr_7 (x : Z) : Z.shiftr x 7 = x / 128.
Proof. rewrite Z.shiftr_div_pow2 by lia. reflexivity. Qed.

Lemma decodeVarintFrom_cons (n : nat) (b : byte) (l : list byte) :
  decodeVarintFrom (S n) (b :: l)
  = if (byte_to_Z b <? 128) || Nat.eqb n 0 then (Z.land (byte_to_Z b) 127, 1)
    else let '(v, c) := decodeVarintFrom n l in
         (Z.lor (Z.land (byte_to_Z b) 127) (Z.shiftl v 7), c + 1).
Proof. reflexivity. Qed.

(** Reading back what [putUvarint] wrote, when [S n] bytes are enough. *)
Lemma decode_putUvarint (n : nat) :
  forall (fuel : nat) (x : Z) (post : list byte),
    0 <= x < 2 ^ (7 * Z.of_nat (S n)) -> (n <= fuel)%nat ->
    decodeVarintFrom (S n) (putUvarint fuel x ++ post)
    = (x, Z.of_nat (length (putUvarint fuel x))).
Proof.
  induction n as [| n IH]; intros fuel x post Hx Hn.
  - change (2 ^ (7 * Z.of_nat 1)) with 128 in Hx.
    assert (Hp : putUvarint fuel x = [byte_of_Z x]).
    { destruct fuel; simpl; [reflexivity |].
      destruct (Z.leb_spec 128 x); [lia | reflexivity]. }
    rewrite Hp. simpl.
    rewrite byte_to_of_Z, (Z.mod_small x 256) by lia.
    rewrite orb_true_r, land_127, Z.mod_small by lia. reflexivity.
  - destruct fuel as [| fuel]; [lia |].
    simpl putUvarint.
    destruct (Z.leb_spec 128 x) as [Hge | Hlt].
    + cbn [app]. rewrite decodeVarintFrom_cons, continuation_byte by lia.
      assert (Hm : 0 <= x mod 128 < 128) by (apply Z.mod_pos_bound; lia).
      destruct (Z.ltb_spec (x mod 128 + 128) 128); [lia |].
      cbn [orb Nat.eqb].
      rewrite shiftr_7.
      rewrite (IH fuel (x / 128) post).
      * rewrite land_127.
        replace ((x mod 128 + 128) mod 128) with (x mod 128).
        2:{ clear. Z.div_mod_to_equations. lia. }
        rewrite lor_shiftl_add; [| lia | change (2 ^ 7) with 128; lia].
        f_equal.
        -- change (2 ^ 7) with 128. pose proof (Z.div_mod x 128). lia.
        -- cbn [length]. lia.
      * split; [apply Z.div_pos; lia |].
        apply Z.div_lt_upper_bound; [lia |].
        replace (7 * Z.of_nat (S (S n))) with (7 + 7 * Z.of_nat (S n)) in Hx by lia.
        rewrite Z.pow_add_r in Hx by lia. change (2 ^ 7) with 128 in Hx. lia.
      * lia.
    + cbn [app]. rewrite decodeVarintFrom_cons.
      rewrite byte_to_of_Z, (Z.mod_small x 256) by lia.
      destruct (Z.ltb_spec x 128); [| lia]. cbn [orb].
      rewrite land_127, Z.mod_small by lia. reflexivity.
Qed.

Lemma putUvarint_length (fuel : nat) (x : Z) :
  (1 <= length (putUvarint fuel x) <= S fuel)%nat.
Proof.
  revert x. induction fuel as [| f IH]; intros x; simpl; [lia |].
  destruct (128 <=? x); simpl; [specialize (IH (Z.shiftr x 7)) |]; lia.
Qed.

Lemma decodeVarint_PutUvarint (pre post : list byte) (x : Z) :
  0 <= x < 2 ^ 32 ->
  decodeVarint (pre ++ PutUvarint x ++ post) (Z.of_nat (length pre))
  = (x, Z.of_nat (length pre) + Z.of_nat (length (PutUvarint x))).
Proof.
  intros Hx. unfold decodeVarint.
  rewrite Nat2Z.id, drop_app_length.
  unfold PutUvarint. rewrite (decode_putUvarint 4 9 x post).
  - unfold wrap32. rewrite Z.mod_small by exact Hx. reflexivity.
  - change (7 * Z.of_nat 5) with 35.
    assert (2 ^ 32 < 2 ^ 35) by (apply Z.pow_lt_mono_r; lia). lia.
  - lia.
Qed.

Lemma getLE_putLE (n : nat) :
  forall x post, getLE (putLE n x) = x mod 2 ^ (8 * Z.of_nat n)
                 /\ take n (putLE n x ++ post) = putLE n x.
Proof.
  induction n as [| n IH]; intros x post.
  - simpl. split; [rewrite Z.mod_1_r; reflexivity | reflexivity].
  - cbn [putLE getLE]. destruct (IH (Z.shiftr x 8) post) as [IH1 IH2].
    split.
    + rewrite IH1, byte_to_of_Z.
      rewrite lor_shiftl_add;
        [| lia | change (2 ^ 8) with 256; apply Z.mod_pos_bound; lia].
      rewrite Z.shiftr_div_pow2 by lia.
      replace (8 * Z.of_nat (S n)) with (8 + 8 * Z.of_nat n) by lia.
      rewrite Z.pow_add_r by lia. change (2 ^ 8) with 256.
      rewrite Z.rem_mul_r by lia. lia.
    + simpl. f_equal. exact IH2.
Qed.

Lemma putLE_length (n : nat) (x : Z) : length (putLE n x) = n.
Proof.
  revert x. induction n as [| n IH]; intros x; simpl; [reflexivity |].
  rewrite IH. reflexivity.
Qed.

Lemma Uint32_PutUint32 (pre post : list byte) (x : Z) :
  0 <= x < 2 ^ 32 ->
  Uint32 (pre ++ PutUint32 x ++ post) (Z.of_nat (length pre)) = x.
Proof.
  intros Hx. unfold Uint32, PutUint32.
  rewrite Nat2Z.id, drop_app_length.
  destruct (getLE_putLE 4 x post) as [H1 H2].
  rewrite H2, H1. apply Z.mod_small. exact Hx.
Qed.

Lemma Uint64_PutUint64 (x : Z) :
  0 <= x < 2 ^ 64 -> Uint64 (PutUint64 x) = x.
Proof.
  intros Hx. unfold Uint64, PutUint64.
  destruct (getLE_putLE 8 x []) as [H1 H2].
  rewrite app_nil_r in H2. rewrite H2, H1. apply Z.mod_small. exact Hx.
Qed.

(** Decoding an encoded internal key gives the key back. *)
Lemma Decode_Encode (k : InternalKey) :
  0 <= Trailer k < 2 ^ 64 -> DecodeInternalKey (Encode k) = k.
Proof.
  intros Ht. unfold DecodeInternalKey, Encode.
  assert (Hlen : Z.of_nat (length (UserKey k ++ PutUint64 (Trailer k))) - 8
                 = Z.of_nat (length (UserKey k))).
  { rewrite length_app. unfold PutUint64. rewrite putLE_length. lia. }
  rewrite Hlen.
  destruct (Z.leb_spec 0 (Z.of_nat (length (UserKey k)))); [| lia].
  rewrite Nat2Z.id, take_app_length, drop_app_length.
  rewrite Uint64_PutUint64 by exact Ht.
  destruct k; reflexivity.
Qed.

(** *** Slices *)

Lemma nth_lookup_default (l : list (list byte)) (n : nat) :
  nth n l [] = default [] (l !! n).
Proof.
  revert n. induction l as [| x l IH]; intros [| n]; simpl; auto.
Qed.

Lemma write_at_length (arr : list byte) (off : nat) (bs : list byte) :
  (off + length bs <= length arr)%nat ->
  length (write_at arr off bs) = length arr.
Proof.
  intros H. unfold write_at. rewrite !length_app, length_take, length_drop. lia.
Qed.

Lemma write_at_read (arr : list byte) (off len : nat) (bs : list byte) :
  (off + len + length bs <= length arr)%nat ->
  take (len + length bs) (drop off (write_at arr (off + len) bs))
  = take len (drop off arr) ++ bs.
Proof.
  intros H. unfold write_at.
  assert (Hl : length (drop off (take (off + len) arr)) = len).
  { rewrite length_drop, length_take. lia. }
  rewrite drop_app_le by (rewrite length_take; lia).
  rewrite take_app, Hl.
  rewrite take_ge by lia.
  replace (len + length bs - len)%nat with (length bs) by lia.
  rewrite take_app_length.
  rewrite take_drop_commute. reflexivity.
Qed.

Lemma go_append_spec (m : memory) (s : slice) (bs : list byte) :
  valid_slice m s ->
  let m' := fst (go_append m s bs) in
  let s' := snd (go_append m s bs) in
  contents m' s' = contents m s ++ bs
  /\ valid_slice m' s'
  /\ s_len s' = (s_len s + length bs)%nat.
Proof.
  intros (Harr & Hcap & Hlen). unfold go_append.
  destruct (Nat.leb_spec (s_len s + length bs) (s_cap s)) as [Hfit | Hgrow]; simpl.
  - assert (Hl : arrays m !! s_arr s = Some (nth (s_arr s) (arrays m) [])).
    { rewrite nth_lookup_default.
      destruct (arrays m !! s_arr s) eqn:E; [reflexivity |].
      apply lookup_ge_None in E. lia. }
    split; [| split].
    + unfold contents; simpl.
      rewrite nth_lookup_default, list_lookup_alter_eq, Hl. simpl.
      apply write_at_read. lia.
    + unfold valid_slice; simpl. rewrite length_alter.
      split; [exact Harr |]. split; [| lia].
      rewrite nth_lookup_default, list_lookup_alter_eq, Hl. simpl.
      rewrite write_at_length by lia. exact Hcap.
    + reflexivity.
  - assert (Hc : length (contents m s) = s_len s).
    { unfold contents. rewrite length_take, length_drop. lia. }
    split; [| split].
    + unfold contents at 1; simpl.
      rewrite nth_lookup_default, lookup_app_r by lia.
      replace (length (arrays m) - length (arrays m))%nat with 0%nat by lia.
      simpl. rewrite drop_0, app_assoc.
      rewrite take_app_length' by (rewrite length_app; lia). reflexivity.
    + unfold valid_slice; simpl. rewrite length_app. simpl.
      split; [lia |]. split; [| lia].
      rewrite nth_lookup_default, lookup_app_r by lia.
      replace (length (arrays m) - length (arrays m))%nat with 0%nat by lia.
      simpl. rewrite !length_app, length_replicate. lia.
    + reflexivity.
Qed.

Lemma reslice_spec (m : memory) (s : slice) (n : nat) :
  valid_slice m s -> (n <= s_len s)%nat ->
  exists s', reslice s n = Some s'
             /\ contents m s' = take n (contents m s)
             /\ valid_slice m s'
             /\ s_len s' = n.
Proof.
  intros (Harr & Hcap & Hlen) Hn. unfold reslice.
  destruct (Nat.leb_spec n (s_cap s)); [| lia].
  eexists. split; [reflexivity |]. split; [| split].
  - unfold contents; simpl. rewrite take_take. f_equal. lia.
  - unfold valid_slice; simpl. lia.
  - reflexivity.
Qed.

Lemma clip_spec (m : memory) (s : slice) :
  valid_slice m s ->
  contents m (clip s) = contents m s /\ valid_slice m (clip s)
  /\ s_len (clip s) = s_len s.
Proof.
  intros (Harr & Hcap & Hlen). unfold clip, contents, valid_slice; simpl.
  repeat split; lia.
Qed.

Lemma make_spec (m : memory) (n : nat) :
  valid_slice (fst (make m n)) (snd (make m n))
  /\ s_len (snd (make m n)) = 0%nat.
Proof.
  unfold make, valid_slice; simpl. rewrite length_app; simpl.
  split; [| reflexivity]. split; [lia |]. split; [| lia].
  rewrite nth_lookup_default, lookup_app_r by lia.
  replace (length (arrays m) - length (arrays m))%nat with 0%nat by lia.
  simpl. rewrite length_replicate. lia.
Qed.

(** *** The layout of a written block *)

Section Layout.

Variable R : Z.

(** The number of key bytes entry number [n] shares with its predecessor. *)
Definition sharedLen (n : nat) (prev cur : list byte) : Z :=
  if Z.rem (Z.of_nat n) R =? 0 then 0 else Z.of_nat (SharedPrefixLen cur prev).

Definition entryBytes (shared : Z) (ek value : list byte) : list byte :=
  PutUvarint shared ++ PutUvarint (Z.of_nat (length ek) - shared)
    ++ PutUvarint (Z.of_nat (length value))
    ++ drop (Z.to_nat shared) ek ++ value.

(** The bytes of the entries [l], the first of which is entry number [n]
    and follows the encoded key [prev]. *)
Fixpoint encodeFrom (n : nat) (prev : list byte) (l : list entry) : list byte :=
  match l with
  | [] => []
  | e :: l' =>
      entryBytes (sharedLen n prev (Encode (fst e))) (Encode (fst e)) (snd e)
        ++ encodeFrom (S n) (Encode (fst e)) l'
  end.

Definition lastKey (prev : list byte) (l : list entry) : list byte :=
  match last l with
  | Some e => Encode (fst e)
  | None => prev
  end.

(** The numbers of the entries of [l] that start a restart interval. *)
Fixpoint restartIdx (n : nat) (l : list entry) : list nat :=
  match l with
  | [] => []
  | _ :: l' =>
      (if Z.rem (Z.of_nat n) R =? 0 then [n] else []) ++ restartIdx (S n) l'
  end.

(** The restart offsets the writer records for [l], when [off] bytes are
    in the buffer already. *)
Fixpoint restartsFrom (n : nat) (off : nat) (prev : list byte) (l : list entry) : list Z :=
  match l with
  | [] => []
  | e :: l' =>
      (if Z.rem (Z.of_nat n) R =? 0 then [wrap32 (Z.of_nat off)] else [])
        ++ restartsFrom (S n)
             (off + length (entryBytes (sharedLen n prev (Encode (fst e)))
                              (Encode (fst e)) (snd e)))
             (Encode (fst e)) l'
  end.

Lemma Size_Encode (k : InternalKey) : Size k = Z.of_nat (length (Encode k)).
Proof.
  unfold Size, Encode, PutUint64. rewrite length_app, putLE_length. lia.
Qed.

Lemma lastKey_cons (prev : list byte) (e : entry) (l : list entry) :
  lastKey prev (e :: l) = lastKey (Encode (fst e)) l.
Proof.
  unfold lastKey. destruct l as [| e' l]; [reflexivity |].
  change (last (e :: e' :: l)) with (last (e' :: l)).
  destruct (last (e' :: l)) eqn:E; [reflexivity |].
  apply last_None in E. discriminate.
Qed.

Lemma writer_fold (l : list entry) :
  forall (w : blockWriter) (n : nat),
    restartInterval w = R -> nEntries w = Z.of_nat n ->
    let w' := fold_left addEntry l w in
    restartInterval w' = R
    /\ nEntries w' = Z.of_nat (n + length l)
    /\ buf w' = buf w ++ encodeFrom n (curKey w) l
    /\ w_restarts w' = w_restarts w ++ restartsFrom n (length (buf w)) (curKey w) l
    /\ curKey w' = lastKey (curKey w) l.
Proof.
  induction l as [| e l IH]; intros w n HR Hn.
  - simpl. rewrite !app_nil_r, Nat.add_0_r. auto.
  - cbn [fold_left].
    assert (Hbuf : buf (addEntry w e)
                   = buf w ++ entryBytes (sharedLen n (curKey w) (Encode (fst e)))
                                (Encode (fst e)) (snd e)).
    { unfold addEntry, add, store, sharedLen, entryBytes; simpl.
      rewrite HR, Hn, Size_Encode.
      destruct (Z.rem (Z.of_nat n) R =? 0); reflexivity. }
    assert (Hrs : w_restarts (addEntry w e)
                  = w_restarts w
                    ++ (if Z.rem (Z.of_nat n) R =? 0
                        then [wrap32 (Z.of_nat (length (buf w)))] else [])).
    { unfold addEntry, add, store; simpl. rewrite HR, Hn.
      destruct (Z.rem (Z.of_nat n) R =? 0); [reflexivity |].
      rewrite app_nil_r. reflexivity. }
    destruct (IH (addEntry w e) (S n)) as (H1 & H2 & H3 & H4 & H5).
    { unfold addEntry, add, store; simpl. exact HR. }
    { unfold addEntry, add, store; simpl. lia. }
    split; [exact H1 |].
    split; [rewrite H2; f_equal; simpl; lia |].
    assert (Hck : curKey (addEntry w e) = Encode (fst e)) by reflexivity.
    split; [| split].
    + rewrite H3, Hbuf, Hck. cbn [encodeFrom]. rewrite <- !app_assoc. reflexivity.
    + rewrite H4, Hrs, Hbuf, Hck. cbn [restartsFrom].
      rewrite length_app, <- !app_assoc. reflexivity.
    + rewrite H5, Hck, lastKey_cons. reflexivity.
Qed.

Lemma encodeFrom_app (l1 l2 : list entry) :
  forall (n : nat) (prev : list byte),
    encodeFrom n prev (l1 ++ l2)
    = encodeFrom n prev l1 ++ encodeFrom (n + length l1) (lastKey prev l1) l2.
Proof.
  induction l1 as [| e l1 IH]; intros n prev.
  - simpl. rewrite Nat.add_0_r. reflexivity.
  - cbn [app encodeFrom length]. rewrite IH, lastKey_cons, <- app_assoc.
    replace (S n + length l1)%nat with (n + S (length l1))%nat by lia.
    reflexivity.
Qed.

(** The restart offsets are the offsets of the entries that start a
    restart interval. *)
Lemma restartsFrom_idx (l : list entry) :
  forall (n off : nat) (prev : list byte),
    restartsFrom n off prev l
    = map (fun j => wrap32 (Z.of_nat (off + length (encodeFrom n prev (take (j - n) l)))))
          (restartIdx n l).
Proof.
  induction l as [| e l IH]; intros n off prev; [reflexivity |].
  cbn [restartsFrom restartIdx]. rewrite map_app, IH. f_equal.
  - destruct (Z.rem (Z.of_nat n) R =? 0); [| reflexivity].
    simpl. rewrite Nat.sub_diag. simpl. rewrite Nat.add_0_r. reflexivity.
  - apply map_ext_in. intros j Hj.
    assert (Hge : (S n <= j)%nat).
    { clear -Hj. revert n Hj. induction l as [| e' l IHl]; intros n Hj; [inversion Hj |].
      cbn [restartIdx] in Hj. apply in_app_or in Hj. destruct Hj as [Hj | Hj].
      - destruct (Z.rem (Z.of_nat (S n)) R =? 0); [| inversion Hj].
        destruct Hj as [<- | []]. lia.
      - specialize (IHl (S n) Hj). lia. }
    replace (j - n)%nat with (S (j - S n)) by lia.
    cbn [take encodeFrom]. rewrite length_app. f_equal. lia.
Qed.

Lemma restartIdx_bounds (l : list entry) :
  forall (n j : nat), In j (restartIdx n l) ->
    (n <= j < n + length l)%nat /\ Z.rem (Z.of_nat j) R = 0.
Proof.
  induction l as [| e l IH]; intros n j Hj; [inversion Hj |].
  cbn [restartIdx] in Hj. apply in_app_or in Hj. destruct Hj as [Hj | Hj].
  - destruct (Z.eqb_spec (Z.rem (Z.of_nat n) R) 0) as [Hz |]; [| inversion Hj].
    destruct Hj as [<- | []]. simpl. split; [lia | exact Hz].
  - destruct (IH (S n) j Hj) as [Hb Hz]. simpl. split; [lia | exact Hz].
Qed.

Lemma restartIdx_sorted (l : list entry) :
  forall (n : nat), StronglySorted lt (restartIdx n l).
Proof.
  induction l as [| e l IH]; intros n; [constructor |].
  cbn [restartIdx].
  destruct (Z.rem (Z.of_nat n) R =? 0); [| apply IH].
  simpl. constructor; [apply IH |].
  apply Forall_forall. intros j Hj.
  apply list_elem_of_In in Hj.
  destruct (restartIdx_bounds l (S n) j Hj) as [Hb _]. lia.
Qed.

End Layout.

(** *** Reading an entry *)

Lemma getBytes_at (pre bs post : list byte) :
  getBytes (pre ++ bs ++ post) (Z.of_nat (length pre)) (Z.of_nat (length bs)) = bs.
Proof.
  unfold getBytes. rewrite !Nat2Z.id, drop_app_length, take_app_length.
  reflexivity.
Qed.

Lemma decodeVarint_at (d pre post : list byte) (x p : Z) :
  d = pre ++ PutUvarint x ++ post ->
  p = Z.of_nat (length pre) ->
  0 <= x < 2 ^ 32 ->
  decodeVarint d p = (x, p + Z.of_nat (length (PutUvarint x))).
Proof.
  intros -> -> Hx. apply decodeVarint_PutUvarint. exact Hx.
Qed.

Lemma getBytes_eq (d pre bs post : list byte) (p n : Z) :
  d = pre ++ bs ++ post ->
  p = Z.of_nat (length pre) ->
  n = Z.of_nat (length bs) ->
  getBytes d p n = bs.
Proof.
  intros -> -> ->. apply getBytes_at.
Qed.

Lemma readEntry_at (i : blockIter) (pre post ek v : list byte) (sh : Z) :
  data i = pre ++ entryBytes sh ek v ++ post ->
  offset i = Z.of_nat (length pre) ->
  valid_slice (mem i) (key i) ->
  0 <= sh <= Z.of_nat (length ek) ->
  (Z.to_nat sh <= s_len (key i))%nat ->
  take (Z.to_nat sh) (contents (mem i) (key i)) = take (Z.to_nat sh) ek ->
  Z.of_nat (length ek) < 2 ^ 32 ->
  Z.of_nat (length v) < 2 ^ 32 ->
  exists i',
    readEntry i = Some i'
    /\ contents (mem i') (key i') = ek
    /\ valid_slice (mem i') (key i')
    /\ s_len (key i') = length ek
    /\ val i' = v
    /\ nextOffset i' = Z.of_nat (length pre + length (entryBytes sh ek v))
    /\ offset i' = offset i
    /\ data i' = data i
    /\ restarts i' = restarts i
    /\ numRestarts i' = numRestarts i
    /\ globalSeqNum i' = globalSeqNum i
    /\ cached i' = cached i
    /\ cachedBuf i' = cachedBuf i.
Proof.
  intros Hdata Hoff Hvalid Hsh Hshlen Hprefix Hek Hv.
  set (p1 := PutUvarint sh).
  set (p2 := PutUvarint (Z.of_nat (length ek) - sh)).
  set (p3 := PutUvarint (Z.of_nat (length v))).
  set (suffix := drop (Z.to_nat sh) ek).
  assert (Hsuf : Z.of_nat (length suffix) = Z.of_nat (length ek) - sh).
  { subst suffix. rewrite length_drop. lia. }
  set (q1 := offset i + Z.of_nat (length p1)).
  set (q2 := q1 + Z.of_nat (length p2)).
  set (q3 := q2 + Z.of_nat (length p3)).
  assert (E1 : decodeVarint (data i) (offset i) = (sh, q1)).
  { apply (decodeVarint_at _ pre (p2 ++ p3 ++ suffix ++ v ++ post)); [| exact Hoff | lia].
    rewrite Hdata. unfold entryBytes. subst p1 p2 p3 suffix.
    rewrite <- !app_assoc. reflexivity. }
  assert (E2 : decodeVarint (data i) q1 = (Z.of_nat (length ek) - sh, q2)).
  { apply (decodeVarint_at _ (pre ++ p1) (p3 ++ suffix ++ v ++ post)); [| | lia].
    - rewrite Hdata. unfold entryBytes. subst p1 p2 p3 suffix.
      rewrite <- !app_assoc. reflexivity.
    - subst q1. rewrite length_app. lia. }
  assert (E3 : decodeVarint (data i) q2 = (Z.of_nat (length v), q3)).
  { apply (decodeVarint_at _ ((pre ++ p1) ++ p2) (suffix ++ v ++ post)); [| | lia].
    - rewrite Hdata. unfold entryBytes. subst p1 p2 p3 suffix.
      rewrite <- !app_assoc. reflexivity.
    - subst q2 q1. rewrite !length_app. lia. }
  assert (E4 : getBytes (data i) q3 (Z.of_nat (length ek) - sh) = suffix).
  { apply (getBytes_eq _ (((pre ++ p1) ++ p2) ++ p3) suffix (v ++ post)); [| | lia].
    - rewrite Hdata. unfold entryBytes. subst p1 p2 p3 suffix.
      rewrite <- !app_assoc. reflexivity.
    - subst q3 q2 q1. rewrite !length_app. lia. }
  assert (E5 : getBytes (data i) (q3 + (Z.of_nat (length ek) - sh))
                 (Z.of_nat (length v)) = v).
  { apply (getBytes_eq _ ((((pre ++ p1) ++ p2) ++ p3) ++ suffix) v post);
      [| | reflexivity].
    - rewrite Hdata. unfold entryBytes. subst p1 p2 p3 suffix.
      rewrite <- !app_assoc. reflexivity.
    - subst q3 q2 q1. rewrite !length_app. lia. }
  unfold readEntry. rewrite E1, E2, E3.
  destruct (reslice_spec (mem i) (key i) (Z.to_nat sh) Hvalid Hshlen)
    as (s & Hs & Hsc & Hsv & Hsl).
  rewrite Hs, E4, E5.
  destruct (go_append_spec (mem i) s suffix Hsv) as (Hc & Hva & Hl).
  destruct (go_append (mem i) s suffix) as [m k] eqn:Hga.
  simpl in Hc, Hva, Hl.
  destruct (clip_spec m k Hva) as (Hcc & Hcv & Hcl).
  eexists. split; [reflexivity |].
  unfold set_nextOffset, set_val, set_key, set_mem.
  cbn [key mem val nextOffset offset data restarts numRestarts globalSeqNum
       cached cachedBuf].
  split.
  { rewrite Hcc, Hc, Hsc, Hprefix. subst suffix. apply take_drop. }
  split; [exact Hcv |].
  split.
  { rewrite Hcl, Hl, Hsl. subst suffix. rewrite length_drop. lia. }
  split; [reflexivity |].
  split.
  { unfold entryBytes. fold p1 p2 p3 suffix. subst q3 q2 q1.
    rewrite !length_app, !Nat2Z.inj_add. lia. }
  repeat split; reflexivity.
Qed.

(** Decoding the key just read, for an iterator without global sequence
    number. *)
Lemma decodeInternalKey_spec (i : blockIter) (k : InternalKey) :
  globalSeqNum i = 0 ->
  contents (mem i) (key i) = Encode k ->
  s_len (key i) = length (Encode k) ->
  0 <= Trailer k < 2 ^ 64 ->
  Key (decodeInternalKey i) = k.
Proof.
  intros Hg Hc Hl Ht. unfold decodeInternalKey, Key.
  rewrite Hg, Hl, Hc. simpl negb. cbv iota.
  assert (Hlen : Z.of_nat (length (Encode k)) - 8 = Z.of_nat (length (UserKey k))).
  { unfold Encode, PutUint64. rewrite length_app, putLE_length. lia. }
  rewrite Hlen.
  destruct (Z.leb_spec 0 (Z.of_nat (length (UserKey k)))); [| lia].
  simpl. rewrite Nat2Z.id.
  unfold contents in *. simpl.
  replace (take (length (UserKey k))
             (drop (s_off (key i)) (nth (s_arr (key i)) (arrays (mem i)) [])))
    with (take (length (UserKey k)) (Encode k)).
  2:{ rewrite <- Hc, take_take. f_equal. rewrite Hl.
      unfold Encode. rewrite length_app. lia. }
  unfold Encode at 1 2. rewrite take_app_length, drop_app_length.
  rewrite Uint64_PutUint64 by exact Ht.
  destruct k; reflexivity.
Qed.

Lemma SharedPrefixLen_spec (a b : list byte) :
  (SharedPrefixLen a b <= length a)%nat
  /\ (SharedPrefixLen a b <= length b)%nat
  /\ take (SharedPrefixLen a b) b = take (SharedPrefixLen a b) a.
Proof.
  revert b. induction a as [| x a IH]; intros [| y b]; simpl;
    try (repeat split; lia || reflexivity).
  destruct (Byte.eqb x y) eqn:E; simpl; [| repeat split; lia || reflexivity].
  apply Byte.byte_dec_bl in E. subst y.
  destruct (IH b) as (H1 & H2 & H3).
  repeat split; [lia | lia | rewrite H3; reflexivity].
Qed.

Lemma sharedLen_bounds (R : Z) (n : nat) (prev cur : list byte) :
  0 <= sharedLen R n prev cur <= Z.of_nat (length cur)
  /\ sharedLen R n prev cur <= Z.of_nat (length prev)
  /\ take (Z.to_nat (sharedLen R n prev cur)) prev
     = take (Z.to_nat (sharedLen R n prev cur)) cur.
Proof.
  unfold sharedLen. destruct (Z.rem (Z.of_nat n) R =? 0).
  - simpl. repeat split; lia.
  - destruct (SharedPrefixLen_spec cur prev) as (H1 & H2 & H3).
    rewrite Nat2Z.id. repeat split; try lia. exact H3.
Qed.

Lemma entryBytes_length (sh : Z) (ek v : list byte) :
  0 <= sh <= Z.of_nat (length ek) ->
  (3 + (length ek - Z.to_nat sh) + length v <= length (entryBytes sh ek v))%nat.
Proof.
  intros H. unfold entryBytes. rewrite !length_app, length_drop.
  pose proof (putUvarint_length 9 sh).
  pose proof (putUvarint_length 9 (Z.of_nat (length ek) - sh)).
  pose proof (putUvarint_length 9 (Z.of_nat (length v))).
  unfold PutUvarint. lia.
Qed.

Lemma encodeFrom_length (R : Z) (l : list entry) :
  forall n prev, (3 * length l <= length (encodeFrom R n prev l))%nat.
Proof.
  induction l as [| e l IH]; intros n prev; simpl; [lia |].
  rewrite length_app. specialize (IH (S n) (Encode (fst e))).
  pose proof (sharedLen_bounds R n prev (Encode (fst e))) as (Hb & _).
  pose proof (entryBytes_length _ _ (snd e) Hb). lia.
Qed.

(** A key is no longer than what has been written up to its entry, plus
    the key before the first of these entries. *)
Lemma key_length_bound (R : Z) (l : list entry) :
  forall (n : nat) (prev : list byte) (e : entry),
    (length (Encode (fst e))
     <= length prev + length (encodeFrom R n prev (l ++ [e])))%nat.
Proof.
  assert (Hone : forall (n : nat) (prev : list byte) (e : entry),
    (length (Encode (fst e))
     <= length prev
        + length (entryBytes (sharedLen R n prev (Encode (fst e)))
                    (Encode (fst e)) (snd e)))%nat).
  { intros n prev e.
    pose proof (sharedLen_bounds R n prev (Encode (fst e))) as (Hb & Hp & _).
    pose proof (entryBytes_length _ _ (snd e) Hb). lia. }
  induction l as [| e1 l IH]; intros n prev e.
  - simpl. rewrite app_nil_r. apply Hone.
  - cbn [app encodeFrom]. rewrite length_app.
    specialize (IH (S n) (Encode (fst e1)) e).
    specialize (Hone n prev e1). lia.
Qed.

(** *** Decoding a written block *)

Section Decode.

Variable R : Z.
Variable entries : list entry.

Hypothesis trailers_ok :
  forall e, In e entries -> 0 <= Trailer (fst e) < 2 ^ 64.
Hypothesis block_small :
  Z.of_nat (length (writeBlock R entries)) < 2 ^ 32.

Definition body : list byte := encodeFrom R 0 [] entries.

Definition restartOffsets : list Z :=
  if nEntries (fold_left addEntry entries (newWriter R)) =? 0 then [0]
  else restartsFrom R 0 0 [] entries.

Definition table : list byte :=
  flat_map PutUint32 restartOffsets
    ++ PutUint32 (wrap32 (Z.of_nat (length restartOffsets))).

(** The offset of entry [j]. *)
Definition off (j : nat) : nat := length (encodeFrom R 0 [] (take j entries)).

Lemma writeBlock_layout : writeBlock R entries = body ++ table.
Proof.
  unfold writeBlock, finish, table, restartOffsets, body.
  destruct (writer_fold R entries (newWriter R) 0 eq_refl eq_refl)
    as (_ & Hn & Hb & Hr & _).
  rewrite Hb, Hr. simpl. reflexivity.
Qed.

Lemma restartOffsets_eq :
  restartOffsets = match entries with
                   | [] => [0]
                   | _ => map (fun j => wrap32 (Z.of_nat (off j))) (restartIdx R 0 entries)
                   end.
Proof.
  unfold restartOffsets.
  destruct (writer_fold R entries (newWriter R) 0 eq_refl eq_refl)
    as (_ & Hn & _).
  rewrite Hn. destruct entries as [| e l] eqn:E; [reflexivity |].
  simpl length. destruct (Z.eqb_spec (Z.of_nat (0 + S (length l))) 0); [lia |].
  rewrite restartsFrom_idx. apply map_ext. intros j.
  unfold off. rewrite Nat.sub_0_r, E. reflexivity.
Qed.

Lemma flat_map_PutUint32_length (l : list Z) :
  length (flat_map PutUint32 l) = (4 * length l)%nat.
Proof.
  induction l as [| x l IH]; [reflexivity |].
  cbn [flat_map]. rewrite length_app, IH. unfold PutUint32.
  rewrite putLE_length. simpl length. lia.
Qed.

Lemma table_length : length table = (4 * length restartOffsets + 4)%nat.
Proof.
  unfold table. rewrite length_app, flat_map_PutUint32_length.
  unfold PutUint32. rewrite putLE_length. reflexivity.
Qed.

Lemma restartOffsets_nonempty : (1 <= length restartOffsets)%nat.
Proof.
  rewrite restartOffsets_eq. destruct entries as [| e l]; [simpl; lia |].
  rewrite length_map. cbn [restartIdx].
  change (Z.rem (Z.of_nat 0) R =? 0) with true. simpl. lia.
Qed.

Lemma off_S (j : nat) (e : entry) :
  entries !! j = Some e ->
  off (S j)
  = (off j
     + length (entryBytes (sharedLen R j (lastKey [] (take j entries)) (Encode (fst e)))
                 (Encode (fst e)) (snd e)))%nat.
Proof.
  intros He. unfold off.
  rewrite (take_S_r _ _ _ He), encodeFrom_app, length_app.
  rewrite Nat.add_0_l, length_take_le.
  - simpl. rewrite app_nil_r. reflexivity.
  - apply lookup_lt_Some in He. lia.
Qed.

Lemma body_split (j : nat) (e : entry) :
  entries !! j = Some e ->
  body
  = encodeFrom R 0 [] (take j entries)
    ++ entryBytes (sharedLen R j (lastKey [] (take j entries)) (Encode (fst e)))
         (Encode (fst e)) (snd e)
    ++ encodeFrom R (S j) (Encode (fst e)) (drop (S j) entries).
Proof.
  intros He. unfold body.
  rewrite <- (take_drop_middle _ _ _ He) at 1.
  rewrite encodeFrom_app. f_equal.
  rewrite Nat.add_0_l, length_take_le by (apply lookup_lt_Some in He; lia).
  reflexivity.
Qed.

Lemma off_le_body (j : nat) : (off j <= length body)%nat.
Proof.
  unfold off, body.
  rewrite <- (take_drop j entries) at 2.
  rewrite encodeFrom_app, length_app. lia.
Qed.

Lemma off_lt_body (j : nat) :
  (j < length entries)%nat -> (off j + 3 <= length body)%nat.
Proof.
  intros Hj. destruct (lookup_lt_is_Some_2 _ _ Hj) as [e He].
  rewrite (body_split j e He), !length_app. fold (off j).
  pose proof (sharedLen_bounds R j (lastKey [] (take j entries)) (Encode (fst e)))
    as (Hb & _).
  pose proof (entryBytes_length _ _ (snd e) Hb). lia.
Qed.

Lemma off_all : off (length entries) = length body.
Proof. unfold off, body. rewrite firstn_all. reflexivity. Qed.

Lemma body_small : Z.of_nat (length body) + 8 <= Z.of_nat (length (writeBlock R entries)).
Proof.
  rewrite writeBlock_layout, length_app, table_length.
  pose proof restartOffsets_nonempty. lia.
Qed.

Lemma key_small (j : nat) (e : entry) :
  entries !! j = Some e -> (length (Encode (fst e)) <= length body)%nat.
Proof.
  intros He.
  pose proof (key_length_bound R (take j entries) 0 [] e) as H.
  rewrite <- (take_S_r _ _ _ He) in H. simpl in H.
  fold (off (S j)) in H. pose proof (off_le_body (S j)). lia.
Qed.

Lemma lastKey_take (j : nat) (e : entry) :
  entries !! j = Some e -> lastKey [] (take (S j) entries) = Encode (fst e).
Proof.
  intros He. rewrite (take_S_r _ _ _ He). unfold lastKey.
  rewrite last_snoc. reflexivity.
Qed.


(** What [init] sets and no call changes. *)
Definition Static (i : blockIter) : Prop :=
  data i = writeBlock R entries
  /\ restarts i = Z.of_nat (length body)
  /\ numRestarts i = Z.of_nat (length restartOffsets)
  /\ globalSeqNum i = 0.

(** The iterator is positioned at entry [j], which is [e]. *)
Definition At (i : blockIter) (j : nat) (e : entry) : Prop :=
  Static i
  /\ entries !! j = Some e
  /\ offset i = Z.of_nat (off j)
  /\ nextOffset i = Z.of_nat (off (S j))
  /\ contents (mem i) (key i) = Encode (fst e)
  /\ s_len (key i) = length (Encode (fst e))
  /\ valid_slice (mem i) (key i)
  /\ Key i = fst e
  /\ Value i = snd e.

Lemma decodeInternalKey_fields (i : blockIter) :
  offset (decodeInternalKey i) = offset i
  /\ nextOffset (decodeInternalKey i) = nextOffset i
  /\ restarts (decodeInternalKey i) = restarts i
  /\ numRestarts (decodeInternalKey i) = numRestarts i
  /\ globalSeqNum (decodeInternalKey i) = globalSeqNum i
  /\ data (decodeInternalKey i) = data i
  /\ key (decodeInternalKey i) = key i
  /\ val (decodeInternalKey i) = val i
  /\ mem (decodeInternalKey i) = mem i
  /\ cached (decodeInternalKey i) = cached i
  /\ cachedBuf (decodeInternalKey i) = cachedBuf i.
Proof.
  unfold decodeInternalKey.
  destruct (0 <=? Z.of_nat (s_len (key i)) - 8); repeat split; reflexivity.
Qed.

Lemma newBlockIter_spec (oracle : list nat) :
  exists i,
    newBlockIter oracle (writeBlock R entries) = Ok i
    /\ Static i
    /\ valid_slice (mem i) (key i)
    /\ cached i = [].
Proof.
  unfold newBlockIter, init.
  pose proof body_small as Hb.
  destruct (Z.ltb_spec (Z.of_nat (length (writeBlock R entries))) 4); [lia |].
  assert (Hlen : length (writeBlock R entries)
                 = (length body + 4 * length restartOffsets + 4)%nat).
  { rewrite writeBlock_layout, length_app, table_length. lia. }
  assert (Hnr : Uint32 (writeBlock R entries)
                  (Z.of_nat (length (writeBlock R entries)) - 4)
                = Z.of_nat (length restartOffsets)).
  { rewrite writeBlock_layout at 1. unfold table. rewrite app_assoc.
    rewrite <- (app_nil_r (PutUint32 _)).
    replace (Z.of_nat (length (writeBlock R entries)) - 4)
      with (Z.of_nat (length (body ++ flat_map PutUint32 restartOffsets))).
    2:{ rewrite Hlen, length_app, flat_map_PutUint32_length. lia. }
    rewrite Uint32_PutUint32.
    - unfold wrap32. apply Z.mod_small. lia.
    - unfold wrap32. apply Z.mod_pos_bound. lia. }
  rewrite Hnr.
  pose proof restartOffsets_nonempty.
  destruct (Z.eqb_spec (Z.of_nat (length restartOffsets)) 0); [lia |].
  destruct (make_spec {| arrays := []; slack := oracle |} 256) as [Hv _].
  destruct (make {| arrays := []; slack := oracle |} 256) as [m k].
  eexists. split; [reflexivity |].
  split; [| split; [exact Hv | reflexivity]].
  unfold Static; simpl. repeat split; try reflexivity. lia.
Qed.

Lemma loadEntry_at (i : blockIter) (j : nat) (e : entry) :
  Static i ->
  entries !! j = Some e ->
  offset i = Z.of_nat (off j) ->
  valid_slice (mem i) (key i) ->
  (sharedLen R j (lastKey [] (take j entries)) (Encode (fst e)) = 0
   \/ (contents (mem i) (key i) = lastKey [] (take j entries)
       /\ s_len (key i) = length (lastKey [] (take j entries)))) ->
  exists i',
    loadEntry i = Some i' /\ At i' j e
    /\ cached i' = cached i /\ cachedBuf i' = cachedBuf i.
Proof.
  intros (Hd & Hr & Hn & Hg) He Hoff Hvalid Hkey.
  set (prev := lastKey [] (take j entries)) in *.
  set (sh := sharedLen R j prev (Encode (fst e))) in *.
  pose proof (sharedLen_bounds R j prev (Encode (fst e))) as (Hb & Hp & Ht).
  fold sh in Hb, Hp, Ht.
  pose proof (key_small j e He) as Hks.
  pose proof body_small as Hbs.
  assert (Hvs : (length (snd e) <= length body)%nat).
  { rewrite (body_split j e He), !length_app.
    pose proof (entryBytes_length _ _ (snd e) Hb). fold prev sh. lia. }
  destruct (readEntry_at i (encodeFrom R 0 [] (take j entries))
              (encodeFrom R (S j) (Encode (fst e)) (drop (S j) entries) ++ table)
              (Encode (fst e)) (snd e) sh)
    as (i' & Hre & Hc & Hv & Hl & Hval & Hnext & Hoff' & Hd' & Hr' & Hn' & Hg' & Hca & Hcb).
  - rewrite Hd, writeBlock_layout, (body_split j e He). fold prev sh.
    rewrite <- !app_assoc. reflexivity.
  - exact Hoff.
  - exact Hvalid.
  - exact Hb.
  - destruct Hkey as [Hz | [_ Hl]]; [rewrite Hz; simpl; lia | rewrite Hl; lia].
  - destruct Hkey as [Hz | [Hc _]]; [rewrite Hz; reflexivity |].
    rewrite Hc. exact Ht.
  - lia.
  - lia.
  - destruct (decodeInternalKey_fields i')
      as (F1 & F2 & F3 & F4 & F5 & F6 & F7 & F8 & F9 & F10 & F11).
    exists (decodeInternalKey i'). unfold loadEntry. rewrite Hre.
    split; [reflexivity |]. split.
    + unfold At, Static.
      rewrite F1, F2, F3, F4, F5, F6, F7, F9.
      unfold Value. rewrite F8.
      rewrite Hd', Hr', Hn', Hg', Hoff'.
      split; [repeat split; assumption |].
      split; [exact He |]. split; [exact Hoff |].
      split; [rewrite Hnext, (off_S j e He); fold prev sh; reflexivity |].
      split; [exact Hc |]. split; [exact Hl |]. split; [exact Hv |].
      split; [| exact Hval].
      apply decodeInternalKey_spec; try assumption; [congruence |].
      apply trailers_ok. apply list_elem_of_In.
      apply (list_elem_of_lookup_2 _ _ _ He).
    + rewrite F10, F11. split; assumption.
Qed.

Lemma At_valid (i : blockIter) (j : nat) (e : entry) :
  At i j e -> Valid i = true.
Proof.
  intros ((_ & Hr & _) & He & Hoff & _).
  unfold Valid. rewrite Hoff, Hr.
  pose proof (off_lt_body j (lookup_lt_Some _ _ _ He)).
  apply andb_true_intro. split; [apply Z.leb_le | apply Z.ltb_lt]; lia.
Qed.

Lemma Next_at (i : blockIter) (j : nat) (e : entry) :
  At i j e ->
  match entries !! S j with
  | Some e' => exists i', Next i = Some (i', true) /\ At i' (S j) e'
  | None => exists i', Next i = Some (i', false) /\ Valid i' = false
  end.
Proof.
  intros ((Hd & Hr & Hn & Hg) & He & Hoff & Hnext & Hc & Hl & Hv & _).
  unfold Next.
  destruct (entries !! S j) as [e' |] eqn:He'.
  - assert (Hvalid : Valid (set_offset (nextOffset i) i) = true).
    { unfold Valid; simpl. rewrite Hnext, Hr.
      pose proof (off_lt_body (S j) (lookup_lt_Some _ _ _ He')).
      apply andb_true_intro. split; [apply Z.leb_le | apply Z.ltb_lt]; lia. }
    rewrite Hvalid. simpl negb. cbv iota.
    destruct (loadEntry_at (set_offset (nextOffset i) i) (S j) e')
      as (i' & Hle & Hat & _).
    + repeat split; assumption.
    + exact He'.
    + simpl. exact Hnext.
    + simpl. exact Hv.
    + right. simpl. rewrite (lastKey_take j e He). split; assumption.
    + exists i'. rewrite Hle. split; [reflexivity | exact Hat].
  - apply lookup_ge_None in He'.
    assert (Hj : S j = length entries).
    { apply lookup_lt_Some in He. lia. }
    assert (Hinv : Valid (set_offset (nextOffset i) i) = false).
    { unfold Valid; simpl. rewrite Hnext, Hr, Hj, off_all.
      rewrite Z.ltb_irrefl. apply andb_false_r. }
    rewrite Hinv. simpl. eexists. split; [reflexivity | exact Hinv].
Qed.

(** Forward iteration from entry [j] returns the entries from [j] on. *)
Lemma collectNext_at (fuel : nat) :
  forall (i : blockIter) (j : nat) (e : entry),
    At i j e -> (length entries - j <= fuel)%nat ->
    collectNext fuel i = Some (drop j entries).
Proof.
  induction fuel as [| fuel IH]; intros i j e Hat Hfuel.
  - destruct Hat as (_ & He & _). apply lookup_lt_Some in He. lia.
  - cbn [collectNext]. rewrite (At_valid i j e Hat).
    pose proof (Next_at i j e Hat) as Hn.
    destruct Hat as (_ & He & _ & _ & _ & _ & _ & Hk & Hv).
    rewrite (drop_S _ _ _ He), Hk, Hv.
    destruct (entries !! S j) as [e' |] eqn:He'.
    + destruct Hn as (i' & Hn & Hat'). rewrite Hn.
      rewrite (IH i' (S j) e' Hat') by lia.
      destruct e; reflexivity.
    + destruct Hn as (i' & Hn & Hinv). rewrite Hn.
      apply lookup_ge_None in He'. rewrite (drop_ge _ (S j)) by lia.
      destruct fuel; cbn [collectNext]; rewrite Hinv; destruct e; reflexivity.
Qed.


(** *** The restart table *)

Lemma flat_map_PutUint32_split (rs : list Z) (r : nat) (x : Z) :
  rs !! r = Some x ->
  flat_map PutUint32 rs
  = flat_map PutUint32 (take r rs) ++ PutUint32 x ++ flat_map PutUint32 (drop (S r) rs).
Proof.
  intros H. rewrite <- (take_drop_middle _ _ _ H) at 1.
  rewrite flat_map_app. reflexivity.
Qed.

Lemma restartAt_spec (i : blockIter) (r j : nat) :
  Static i -> entries <> [] ->
  restartIdx R 0 entries !! r = Some j ->
  restartAt i (Z.of_nat r) = Z.of_nat (off j).
Proof.
  intros (Hd & Hr & _) Hne Hj. unfold restartAt.
  assert (Hrs : restartOffsets !! r = Some (wrap32 (Z.of_nat (off j)))).
  { rewrite restartOffsets_eq. destruct entries; [contradiction |].
    rewrite list_lookup_fmap, Hj. reflexivity. }
  pose proof (off_le_body j). pose proof body_small.
  rewrite Hd, Hr, writeBlock_layout. unfold table.
  rewrite (flat_map_PutUint32_split _ _ _ Hrs).
  rewrite <- !app_assoc, (app_assoc body).
  replace (Z.of_nat (length body) + 4 * Z.of_nat r)
    with (Z.of_nat (length (body ++ flat_map PutUint32 (take r restartOffsets)))).
  2:{ rewrite length_app, flat_map_PutUint32_length, length_take_le; [lia |].
      apply lookup_lt_Some in Hrs. lia. }
  assert (Hw : wrap32 (Z.of_nat (off j)) = Z.of_nat (off j)).
  { unfold wrap32. apply Z.mod_small. lia. }
  rewrite Uint32_PutUint32; [exact Hw | rewrite Hw; lia].
Qed.

Lemma restart_shared (j : nat) (prev cur : list byte) :
  In j (restartIdx R 0 entries) -> sharedLen R j prev cur = 0.
Proof.
  intros Hj. destruct (restartIdx_bounds R entries 0 j Hj) as [_ Hz].
  unfold sharedLen. rewrite Hz. reflexivity.
Qed.

Lemma restartKey_spec (i : blockIter) (r j : nat) (e : entry) :
  Static i ->
  restartIdx R 0 entries !! r = Some j ->
  entries !! j = Some e ->
  restartKey i (Z.of_nat r) = fst e.
Proof.
  intros Hs Hj He.
  assert (Hne : entries <> []) by (intros E; rewrite E in He; discriminate).
  unfold restartKey. rewrite (restartAt_spec i r j Hs Hne Hj).
  destruct Hs as (Hd & _).
  assert (Hin : In j (restartIdx R 0 entries)).
  { apply list_elem_of_In. apply (list_elem_of_lookup_2 _ _ _ Hj). }
  pose proof (key_small j e He) as Hks.
  pose proof body_small as Hbs.
  assert (Hvs : (length (snd e) <= length body)%nat).
  { rewrite (body_split j e He), !length_app.
    pose proof (sharedLen_bounds R j (lastKey [] (take j entries)) (Encode (fst e)))
      as (Hb & _).
    pose proof (entryBytes_length _ _ (snd e) Hb). lia. }
  set (pre := encodeFrom R 0 [] (take j entries)).
  set (p2 := PutUvarint (Z.of_nat (length (Encode (fst e))))).
  set (p3 := PutUvarint (Z.of_nat (length (snd e)))).
  set (post := snd e ++ encodeFrom R (S j) (Encode (fst e)) (drop (S j) entries) ++ table).
  assert (Hdata : data i = (pre ++ [byte_of_Z 0]) ++ p2 ++ p3 ++ Encode (fst e) ++ post).
  { rewrite Hd, writeBlock_layout, (body_split j e He).
    rewrite (restart_shared j _ _ Hin). unfold entryBytes.
    subst pre p2 p3 post. rewrite Z.sub_0_r. simpl drop.
    change (PutUvarint 0) with [byte_of_Z 0].
    rewrite <- !app_assoc. reflexivity. }
  assert (E1 : decodeVarint (data i) (Z.of_nat (off j) + 1)
               = (Z.of_nat (length (Encode (fst e))),
                  Z.of_nat (off j) + 1 + Z.of_nat (length p2))).
  { apply (decodeVarint_at _ (pre ++ [byte_of_Z 0]) (p3 ++ Encode (fst e) ++ post));
      [exact Hdata | | lia].
    rewrite length_app. subst pre. fold (off j). simpl. lia. }
  assert (E2 : decodeVarint (data i) (Z.of_nat (off j) + 1 + Z.of_nat (length p2))
               = (Z.of_nat (length (snd e)),
                  Z.of_nat (off j) + 1 + Z.of_nat (length p2) + Z.of_nat (length p3))).
  { apply (decodeVarint_at _ ((pre ++ [byte_of_Z 0]) ++ p2) (Encode (fst e) ++ post));
      [| | lia].
    - rewrite Hdata, <- !app_assoc. reflexivity.
    - rewrite !length_app. subst pre. fold (off j). simpl. lia. }
  rewrite E1, E2.
  rewrite (getBytes_eq _ (((pre ++ [byte_of_Z 0]) ++ p2) ++ p3) (Encode (fst e)) post).
  - apply Decode_Encode. apply trailers_ok. apply list_elem_of_In.
    apply (list_elem_of_lookup_2 _ _ _ He).
  - rewrite Hdata, <- !app_assoc. reflexivity.
  - rewrite !length_app. subst pre. fold (off j). simpl. lia.
  - reflexivity.
Qed.

End Decode.

(** *** Binary search *)

Lemma search_loop_spec (f : Z -> bool) (n : Z) :
  (forall x y, 0 <= x <= y -> y < n -> f x = true -> f y = true) ->
  forall (fuel : nat) (i j : Z),
    0 <= i <= j -> j <= n -> j - i <= Z.of_nat fuel ->
    (forall x, 0 <= x < i -> f x = false) ->
    (forall x, j <= x < n -> f x = true) ->
    exists r,
      search_loop fuel f i j = Some r
      /\ 0 <= r <= n
      /\ (forall x, 0 <= x < r -> f x = false)
      /\ (forall x, r <= x < n -> f x = true).
Proof.
  intros Hmono. induction fuel as [| fuel IH]; intros i j Hij Hjn Hfuel Hlo Hhi.
  - assert (i = j) by lia. subst j. simpl.
    rewrite Z.ltb_irrefl. exists i. repeat split; try assumption; lia.
  - cbn [search_loop]. destruct (Z.ltb_spec i j) as [Hlt | Hge].
    + assert (Hh : i <= (i + j) / 2 < j).
      { split; [apply Z.div_le_lower_bound; lia | apply Z.div_lt_upper_bound; lia]. }
      destruct (f ((i + j) / 2)) eqn:Hf; simpl.
      * apply IH; try lia; [exact Hlo |].
        intros x Hx. apply (Hmono ((i + j) / 2) x); [lia | lia | exact Hf].
      * apply IH; try lia; [| exact Hhi].
        intros x Hx. destruct (f x) eqn:Hfx; [| reflexivity].
        rewrite (Hmono x ((i + j) / 2)) in Hf; [discriminate | lia | lia | exact Hfx].
    + assert (i = j) by lia. subst j.
      exists i. repeat split; try assumption; lia.
Qed.

Lemma Search_spec (f : Z -> bool) (n : Z) :
  0 <= n ->
  (forall x y, 0 <= x <= y -> y < n -> f x = true -> f y = true) ->
  exists r,
    Search n f = Some r
    /\ 0 <= r <= n
    /\ (forall x, 0 <= x < r -> f x = false)
    /\ (forall x, r <= x < n -> f x = true).
Proof.
  intros Hn Hmono. unfold Search.
  apply (search_loop_spec f n Hmono); try lia.
Qed.

(** *** The order on internal keys *)

Section Order.

Variable cmp : list byte -> list byte -> Z.
Hypothesis cmp_ok : comparer_ok cmp.

Lemma cmp_zero_sym (a b : list byte) : cmp a b = 0 -> cmp b a = 0.
Proof.
  destruct cmp_ok as [Ha _]. intros H.
  pose proof (Ha a b). pose proof (Ha b a). lia.
Qed.

Lemma IC_antisym (a b : InternalKey) :
  InternalCompare cmp a b < 0 <-> 0 < InternalCompare cmp b a.
Proof.
  destruct cmp_ok as [Ha _]. unfold InternalCompare.
  pose proof (Ha (UserKey a) (UserKey b)) as H1.
  pose proof (Ha (UserKey b) (UserKey a)) as H2.
  destruct (Z.eqb_spec (cmp (UserKey a) (UserKey b)) 0) as [Hz | Hnz];
    destruct (Z.eqb_spec (cmp (UserKey b) (UserKey a)) 0) as [Hz' | Hnz']; simpl;
    try lia.
  destruct (Z.ltb_spec (Trailer a) (Trailer b));
    destruct (Z.ltb_spec (Trailer b) (Trailer a)); lia.
Qed.

Lemma IC_ge_le (a b : InternalKey) :
  0 <= InternalCompare cmp a b <-> InternalCompare cmp b a <= 0.
Proof.
  pose proof (IC_antisym a b). pose proof (IC_antisym b a). lia.
Qed.

Lemma IC_refl (a : InternalKey) : InternalCompare cmp a a = 0.
Proof.
  pose proof (IC_antisym a a). 
  unfold InternalCompare in *.
  destruct (Z.eqb_spec (cmp (UserKey a) (UserKey a)) 0); simpl in *; [| lia].
  rewrite Z.ltb_irrefl. reflexivity.
Qed.

(** [InternalCompare a b <= 0] spelled out. *)
Lemma IC_le_iff (a b : InternalKey) :
  InternalCompare cmp a b <= 0
  <-> cmp (UserKey a) (UserKey b) < 0
      \/ (cmp (UserKey a) (UserKey b) = 0 /\ Trailer b <= Trailer a).
Proof.
  unfold InternalCompare.
  destruct (Z.eqb_spec (cmp (UserKey a) (UserKey b)) 0) as [Hz | Hnz]; simpl.
  - destruct (Z.ltb_spec (Trailer a) (Trailer b));
      destruct (Z.ltb_spec (Trailer b) (Trailer a)); lia.
  - lia.
Qed.

Lemma IC_trans (a b c : InternalKey) :
  InternalCompare cmp a b <= 0 -> InternalCompare cmp b c <= 0 ->
  InternalCompare cmp a c <= 0.
Proof.
  destruct cmp_ok as [Ha Ht].
  rewrite !IC_le_iff. intros Hab Hbc.
  pose proof (Ha (UserKey a) (UserKey b)).
  pose proof (Ha (UserKey b) (UserKey a)).
  pose proof (Ha (UserKey b) (UserKey c)).
  pose proof (Ha (UserKey c) (UserKey b)).
  pose proof (Ha (UserKey a) (UserKey c)).
  pose proof (Ha (UserKey c) (UserKey a)).
  assert (Hac : cmp (UserKey a) (UserKey c) <= 0).
  { apply (Ht _ (UserKey b)); lia. }
  destruct (Z.eq_dec (cmp (UserKey a) (UserKey c)) 0) as [Hz | Hnz]; [| lia].
  right. split; [exact Hz |].
  assert (Hca : cmp (UserKey c) (UserKey a) <= 0) by lia.
  assert (Hba : cmp (UserKey b) (UserKey a) <= 0).
  { apply (Ht _ (UserKey c)); lia. }
  assert (Hcb : cmp (UserKey c) (UserKey b) <= 0).
  { apply (Ht _ (UserKey a)); lia. }
  lia.
Qed.

Lemma IC_lt_le_trans (a b c : InternalKey) :
  InternalCompare cmp a b < 0 -> InternalCompare cmp b c <= 0 ->
  InternalCompare cmp a c < 0.
Proof.
  intros Hab Hbc.
  destruct (Z.lt_ge_cases (InternalCompare cmp a c) 0) as [| Hge]; [assumption |].
  exfalso. apply Z.ge_le_iff in Hge. apply Z.ge_le in Hge.
  apply IC_ge_le in Hge.
  pose proof (IC_trans b c a Hbc Hge) as Hba.
  apply IC_antisym in Hab. lia.
Qed.

Lemma IC_le_lt_trans (a b c : InternalKey) :
  InternalCompare cmp a b <= 0 -> InternalCompare cmp b c < 0 ->
  InternalCompare cmp a c < 0.
Proof.
  intros Hab Hbc.
  destruct (Z.lt_ge_cases (InternalCompare cmp a c) 0) as [| Hge]; [assumption |].
  exfalso. apply Z.ge_le_iff in Hge. apply Z.ge_le in Hge.
  apply IC_ge_le in Hge.
  pose proof (IC_trans c a b Hge Hab) as Hcb.
  apply IC_antisym in Hbc. lia.
Qed.

(** Against the search key, which carries the largest trailer, an
    internal key compares as its user key does. *)
Lemma IC_search_key (a : InternalKey) (k : list byte) :
  0 <= Trailer a < 2 ^ 64 ->
  (0 <= InternalCompare cmp a (MakeSearchKey k) <-> 0 <= cmp (UserKey a) k).
Proof.
  intros Ht. unfold InternalCompare.
  change (Trailer (MakeSearchKey k)) with (2 ^ 64 - 1).
  change (UserKey (MakeSearchKey k)) with k.
  destruct (Z.eqb_spec (cmp (UserKey a) k) 0) as [Hz | Hnz]; simpl; [| lia].
  destruct (Z.ltb_spec (Trailer a) (2 ^ 64 - 1));
    destruct (Z.ltb_spec (2 ^ 64 - 1) (Trailer a)); lia.
Qed.

End Order.

(** *** SeekGE on a written block *)

Section SeekProof.

Variable cmp : list byte -> list byte -> Z.
Variable R : Z.
Variable entries : list entry.

Hypothesis cmp_ok : comparer_ok cmp.
Hypothesis trailers_ok :
  forall e, In e entries -> 0 <= Trailer (fst e) < 2 ^ 64.
Hypothesis block_small :
  Z.of_nat (length (writeBlock R entries)) < 2 ^ 32.
Hypothesis sorted :
  forall (j : nat) (e1 e2 : entry),
    entries !! j = Some e1 -> entries !! S j = Some e2 ->
    InternalCompare cmp (fst e1) (fst e2) <= 0.

Lemma sorted_le (j1 j2 : nat) (e1 e2 : entry) :
  (j1 <= j2)%nat -> entries !! j1 = Some e1 -> entries !! j2 = Some e2 ->
  InternalCompare cmp (fst e1) (fst e2) <= 0.
Proof.
  intros Hle. revert e2. induction Hle as [| j2 Hle IH]; intros e2 H1 H2.
  - rewrite H1 in H2. inversion H2; subst. rewrite (IC_refl cmp cmp_ok). lia.
  - destruct (lookup_lt_is_Some_2 entries j2) as [e He].
    { apply lookup_lt_Some in H2. lia. }
    apply (IC_trans cmp cmp_ok _ (fst e)); [apply IH; assumption |].
    apply (sorted j2); assumption.
Qed.

(** The scan of [SeekGE], started at entry [j]: it stops at the first
    entry from [j] on that is not below [ikey], or runs off the end. *)
Lemma seekLoop_at (ikey : InternalKey) (fuel : nat) :
  forall (i : blockIter) (j : nat) (e : entry),
    At R entries i j e -> (length entries - j <= fuel)%nat ->
    exists i',
      seekLoop cmp fuel ikey i = Some i'
      /\ ((exists j' e', At R entries i' j' e' /\ (j <= j')%nat
             /\ 0 <= InternalCompare cmp (fst e') ikey
             /\ forall (q : nat) (ex : entry), (j <= q < j')%nat -> entries !! q = Some ex ->
                  InternalCompare cmp (fst ex) ikey < 0)
          \/ (Valid i' = false
              /\ forall (q : nat) (ex : entry), (j <= q)%nat -> entries !! q = Some ex ->
                   InternalCompare cmp (fst ex) ikey < 0)).
Proof.
  induction fuel as [| fuel IH]; intros i j e Hat Hfuel.
  - destruct Hat as (_ & He & _). apply lookup_lt_Some in He. lia.
  - cbn [seekLoop]. rewrite (At_valid R entries i j e Hat).
    assert (Hk : Key i = fst e) by (destruct Hat as (_ & _ & _ & _ & _ & _ & _ & Hk & _); exact Hk).
    assert (He : entries !! j = Some e) by (destruct Hat as (_ & He & _); exact He).
    rewrite Hk.
    destruct (Z.leb_spec 0 (InternalCompare cmp (fst e) ikey)) as [Hge | Hlt].
    + exists i. split; [reflexivity |]. left. exists j, e.
      split; [exact Hat |]. split; [lia |]. split; [exact Hge |].
      intros q ex Hq. lia.
    + pose proof (Next_at R entries trailers_ok block_small i j e Hat) as Hn.
      destruct (entries !! S j) as [e' |] eqn:He'.
      * destruct Hn as (i1 & Hn & Hat1). rewrite Hn.
        destruct (IH i1 (S j) e' Hat1) as (i' & Hs & Hres); [lia |].
        exists i'. split; [exact Hs |].
        destruct Hres as [(j' & e'' & Hat' & Hj' & Hge & Hbelow) | (Hinv & Hbelow)].
        -- left. exists j', e''. split; [exact Hat' |]. split; [lia |].
           split; [exact Hge |].
           intros q ex Hq Hex. destruct (Nat.eq_dec q j) as [-> | Hne].
           ++ replace ex with e by congruence. exact Hlt.
           ++ apply (Hbelow q ex); [lia | exact Hex].
        -- right. split; [exact Hinv |].
           intros q ex Hq Hex. destruct (Nat.eq_dec q j) as [-> | Hne].
           ++ replace ex with e by congruence. exact Hlt.
           ++ apply (Hbelow q ex); [lia | exact Hex].
      * destruct Hn as (i1 & Hn & Hinv). rewrite Hn.
        exists i1. split.
        { destruct fuel; cbn [seekLoop]; rewrite Hinv; reflexivity. }
        right. split; [exact Hinv |].
        intros q ex Hq Hex. apply lookup_ge_None in He'.
        assert (q = j) by (apply lookup_lt_Some in Hex; lia). subst q.
        replace ex with e by congruence. exact Hlt.
Qed.


Lemma sorted_lookup_le (l : list nat) :
  StronglySorted lt l ->
  forall (x y jx jy : nat),
    (x <= y)%nat -> l !! x = Some jx -> l !! y = Some jy -> (jx <= jy)%nat.
Proof.
  induction 1 as [| a l Hs IH Hall]; intros x y jx jy Hxy Hx Hy.
  - rewrite lookup_nil in Hx. discriminate.
  - destruct x as [| x], y as [| y]; simpl in Hx, Hy.
    + inversion Hx; inversion Hy; subst. lia.
    + inversion Hx; subst.
      rewrite Forall_forall in Hall.
      pose proof (Hall jy (list_elem_of_lookup_2 _ _ _ Hy)). lia.
    + lia.
    + apply (IH x y); [lia | assumption | assumption].
Qed.

(** Loading at offset 0 of a block without entries leaves the iterator
    invalid. *)
Lemma loadEntry_empty_block (i : blockIter) :
  data i = writeBlock R [] -> restarts i = 0 -> offset i = 0 ->
  exists i', loadEntry i = Some i' /\ Valid i' = false /\ data i' = data i.
Proof.
  intros Hd Hr Hoff.
  assert (E0 : decodeVarint (data i) (offset i) = (0, 1)) by (rewrite Hd, Hoff; reflexivity).
  assert (E1 : decodeVarint (data i) 1 = (0, 2)) by (rewrite Hd; reflexivity).
  assert (E2 : decodeVarint (data i) 2 = (0, 3)) by (rewrite Hd; reflexivity).
  unfold loadEntry, readEntry. rewrite E0, E1, E2.
  unfold reslice. change (Z.to_nat 0) with 0%nat. cbn [Nat.leb].
  match goal with |- context [go_append ?m0 ?s0 ?b0] =>
    destruct (go_append m0 s0 b0) as [m k] eqn:Hga
  end.
  eexists. split; [reflexivity |].
  match goal with |- context [decodeInternalKey ?s] =>
    destruct (decodeInternalKey_fields s) as (F1 & _ & F3 & _ & _ & F6 & _)
  end.
  split.
  - unfold Valid. rewrite F1, F3. simpl. rewrite Hoff, Hr. reflexivity.
  - rewrite F6. reflexivity.
Qed.

(** [SeekGE] on a written block, from any position of the iterator. *)
Lemma SeekGE_from (i0 : blockIter) (k : list byte) :
  Static R entries i0 -> valid_slice (mem i0) (key i0) ->
  exists i,
    SeekGE cmp i0 k = Some i
    /\ ((exists (j : nat) (e : entry),
           At R entries i j e
           /\ 0 <= InternalCompare cmp (fst e) (MakeSearchKey k)
           /\ forall (q : nat) (e' : entry),
                entries !! q = Some e' ->
                0 <= InternalCompare cmp (fst e') (MakeSearchKey k) ->
                InternalCompare cmp (fst e) (fst e') <= 0)
        \/ (Valid i = false
            /\ forall (q : nat) (e' : entry),
                 entries !! q = Some e' ->
                 InternalCompare cmp (fst e') (MakeSearchKey k) < 0)).
Proof.
  intros Hst Hvalid. set (probe := MakeSearchKey k).
  assert (Hst0 : Static R entries (set_offset 0 i0)) by exact Hst.
  destruct Hst as (Hd & Hr & Hn & Hg).
  unfold SeekGE. fold probe.
  set (f := fun j : Z => InternalCompare cmp probe (restartKey (set_offset 0 i0) j) <? 0).
  destruct (decide (entries = [])) as [Hempty | Hne].
  { (* no entry *)
    rewrite Hempty in Hd, Hr, Hn.
    change (Z.of_nat (length (body R []))) with 0 in Hr.
    change (Z.of_nat (length (restartOffsets R []))) with 1 in Hn.
    assert (HS : exists r, Search (numRestarts (set_offset 0 i0)) f = Some r
                           /\ 0 <= r <= numRestarts (set_offset 0 i0)
                           /\ (forall x, 0 <= x < r -> f x = false)
                           /\ (forall x, r <= x < numRestarts (set_offset 0 i0) -> f x = true)).
    { apply Search_spec.
      - simpl. rewrite Hn. lia.
      - simpl. rewrite Hn. intros x y Hxy Hy Hfx.
        assert (x = y) by lia. subst. exact Hfx. }
    destruct HS as (r & Hs & Hrange & _).
    rewrite Hs. simpl in Hrange. rewrite Hn in Hrange.
    assert (Hload : exists i',
              loadEntry (if 0 <? r
                         then set_offset (restartAt (set_offset 0 i0) (r - 1)) (set_offset 0 i0)
                         else set_offset 0 i0) = Some i'
              /\ Valid i' = false).
    { destruct (loadEntry_empty_block
                  (if 0 <? r
                   then set_offset (restartAt (set_offset 0 i0) (r - 1)) (set_offset 0 i0)
                   else set_offset 0 i0)) as (i1 & Hl & Hinv & _).
      - destruct (0 <? r); simpl; exact Hd.
      - destruct (0 <? r); simpl; exact Hr.
      - destruct (Z.ltb_spec 0 r); simpl; [| reflexivity].
        assert (r = 1) by lia. subst r.
        unfold restartAt; simpl. rewrite Hd, Hr. reflexivity.
      - exists i1. split; assumption. }
    destruct Hload as (i1 & Hl & Hinv).
    rewrite Hl. exists i1. split.
    - destruct (length (data i1)); cbn [seekLoop]; rewrite Hinv; reflexivity.
    - right. split; [exact Hinv |].
      intros q e' He'. rewrite Hempty, lookup_nil in He'. discriminate. }
  assert (Hentries : exists e0 rest, entries = e0 :: rest).
  { clear -Hne. destruct entries as [| e0 rest]; [contradiction | eauto]. }
  destruct Hentries as (e0 & rest & Hentries).
  set (idx := restartIdx R 0 entries).
  assert (Hm : length (restartOffsets R entries) = length idx).
  { rewrite (restartOffsets_eq R entries trailers_ok block_small).
    rewrite Hentries at 1. rewrite length_map. reflexivity. }
  assert (Hidx0 : idx !! 0%nat = Some 0%nat).
  { subst idx. rewrite Hentries. cbn [restartIdx].
    change (Z.rem (Z.of_nat 0) R =? 0) with true. reflexivity. }
  assert (Hidx_lt : forall r j, idx !! r = Some j -> (j < length entries)%nat).
  { intros r j Hj. apply list_elem_of_lookup_2, list_elem_of_In in Hj.
    destruct (restartIdx_bounds R entries 0 j Hj). lia. }
  assert (Hkey : forall (r j : nat) (e : entry), idx !! r = Some j -> entries !! j = Some e ->
                   restartKey (set_offset 0 i0) (Z.of_nat r) = fst e).
  { intros r j e Hj He.
    apply (restartKey_spec R entries trailers_ok block_small _ r j e Hst0 Hj He). }
  assert (Hmono : forall x y, 0 <= x <= y -> y < numRestarts (set_offset 0 i0) ->
                    f x = true -> f y = true).
  { simpl. rewrite Hn, Hm. intros x y Hxy Hy Hfx. subst f. cbv beta in *.
    destruct (lookup_lt_is_Some_2 idx (Z.to_nat x)) as [jx Hjx]; [lia |].
    destruct (lookup_lt_is_Some_2 idx (Z.to_nat y)) as [jy Hjy]; [lia |].
    destruct (lookup_lt_is_Some_2 entries jx (Hidx_lt _ _ Hjx)) as [ex Hex].
    destruct (lookup_lt_is_Some_2 entries jy (Hidx_lt _ _ Hjy)) as [ey Hey].
    rewrite <- (Z2Nat.id x), (Hkey _ _ _ Hjx Hex) in Hfx by lia.
    rewrite <- (Z2Nat.id y), (Hkey _ _ _ Hjy Hey) by lia.
    apply Z.ltb_lt in Hfx. apply Z.ltb_lt.
    apply (IC_lt_le_trans cmp cmp_ok _ (fst ex)); [exact Hfx |].
    apply (sorted_le jx jy); try assumption.
    apply (sorted_lookup_le idx (restartIdx_sorted R entries 0)
             (Z.to_nat x) (Z.to_nat y)); [lia | assumption | assumption]. }
  assert (HS : exists r, Search (numRestarts (set_offset 0 i0)) f = Some r
                         /\ 0 <= r <= numRestarts (set_offset 0 i0)
                         /\ (forall x, 0 <= x < r -> f x = false)
                         /\ (forall x, r <= x < numRestarts (set_offset 0 i0) -> f x = true)).
  { apply Search_spec; [simpl; rewrite Hn; lia | exact Hmono]. }
  destruct HS as (r & Hs & Hrange & Hlo & Hhi).
  rewrite Hs. simpl numRestarts in Hrange. rewrite Hn, Hm in Hrange.
  (* the entry the scan starts at *)
  assert (Hstart : exists (s : nat) (es : entry),
            In s idx /\ entries !! s = Some es
            /\ offset (if 0 <? r
                       then set_offset (restartAt (set_offset 0 i0) (r - 1)) (set_offset 0 i0)
                       else set_offset 0 i0) = Z.of_nat (off R entries s)
            /\ (forall (q : nat) (eq' : entry), (q < s)%nat -> entries !! q = Some eq' ->
                  InternalCompare cmp (fst eq') probe <= 0
                  /\ InternalCompare cmp (fst es) probe <= 0)).
  { destruct (Z.ltb_spec 0 r) as [Hpos | Hzero].
    - destruct (lookup_lt_is_Some_2 idx (Z.to_nat (r - 1))) as [s Hs']; [lia |].
      destruct (lookup_lt_is_Some_2 entries s (Hidx_lt _ _ Hs')) as [es Hes].
      exists s, es.
      split; [apply list_elem_of_In; apply (list_elem_of_lookup_2 _ _ _ Hs') |].
      split; [exact Hes |]. split.
      + simpl. rewrite <- (Z2Nat.id (r - 1)) by lia.
        apply (restartAt_spec R entries trailers_ok block_small _ _ s Hst0 Hne Hs').
      + assert (Hfs : f (r - 1) = false) by (apply Hlo; lia).
        subst f. cbv beta in Hfs.
        rewrite <- (Z2Nat.id (r - 1)), (Hkey _ _ _ Hs' Hes) in Hfs by lia.
        apply Z.ltb_ge in Hfs. apply (IC_ge_le cmp cmp_ok) in Hfs.
        intros q eq' Hq Heq'. split; [| exact Hfs].
        apply (IC_trans cmp cmp_ok _ (fst es)); [| exact Hfs].
        apply (sorted_le q s); [lia | assumption | assumption].
    - destruct (lookup_lt_is_Some_2 entries 0) as [es Hes].
      { rewrite Hentries. simpl. lia. }
      exists 0%nat, es.
      split; [apply list_elem_of_In; apply (list_elem_of_lookup_2 _ _ _ Hidx0) |].
      split; [exact Hes |]. split; [reflexivity |].
      intros q eq' Hq. lia. }
  destruct Hstart as (s & es & Hsin & Hes & Hsoff & Hbefore).
  destruct (loadEntry_at R entries trailers_ok block_small
              (if 0 <? r
               then set_offset (restartAt (set_offset 0 i0) (r - 1)) (set_offset 0 i0)
               else set_offset 0 i0) s es)
    as (i1 & Hload & Hat1 & _).
  { destruct (0 <? r); exact Hst0. }
  { exact Hes. }
  { exact Hsoff. }
  { destruct (0 <? r); exact Hvalid. }
  { left. apply (restart_shared R entries); exact Hsin. }
  rewrite Hload.
  destruct (seekLoop_at probe (length (data i1)) i1 s es Hat1) as (i & Hseek & Hres).
  { destruct Hat1 as ((Hd1 & _) & _). rewrite Hd1.
    rewrite (writeBlock_layout R entries), length_app.
    pose proof (encodeFrom_length R entries 0 []). unfold body. lia. }
  exists i. split; [exact Hseek |].
  destruct Hres as [(j & e & Hat & Hj & Hge & Hbelow) | (Hinv & Hbelow)].
  - left. exists j, e. split; [exact Hat |]. split; [exact Hge |].
    assert (Hej : entries !! j = Some e) by (destruct Hat as (_ & He & _); exact He).
    intros q e' He' Hge'.
    destruct (Nat.le_gt_cases j q) as [Hjq | Hqj].
    + apply (sorted_le j q); assumption.
    + destruct (Nat.le_gt_cases s q) as [Hsq | Hqs].
      * pose proof (Hbelow q e' (conj Hsq Hqj) He'). lia.
      * destruct (Hbefore q e' Hqs He') as [_ Hsle].
        assert (Hsp : 0 <= InternalCompare cmp (fst es) probe).
        { apply (IC_ge_le cmp cmp_ok).
          apply (IC_trans cmp cmp_ok _ (fst e')).
          - apply (IC_ge_le cmp cmp_ok). exact Hge'.
          - apply (sorted_le q s); [lia | assumption | assumption]. }
        assert (j = s).
        { destruct (Nat.eq_dec j s) as [| Hne']; [assumption |].
          pose proof (Hbelow s es ltac:(lia) Hes). lia. }
        subst j. replace e with es by congruence.
        apply (IC_trans cmp cmp_ok _ probe); [exact Hsle |].
        apply (IC_ge_le cmp cmp_ok). exact Hge'.
  - right. split; [exact Hinv |].
    intros q e' He'.
    destruct (Nat.le_gt_cases s q) as [Hsq | Hqs].
    + apply (Hbelow q e' Hsq He').
    + apply (IC_le_lt_trans cmp cmp_ok _ (fst es)).
      * apply (sorted_le q s); [lia | assumption | assumption].
      * apply (Hbelow s es (Nat.le_refl s) Hes).
Qed.

End SeekProof.

(** *** Backward iteration revisits a cached key that was overwritten *)

(** C1 at the sample block.  Forward iteration returns the entries as
    they were added.  Backward iteration from [Last], whatever capacities
    the runtime grants to [append], does not return their reverse: the
    fast path of [Prev] makes [i.key] share the array of [i.cachedBuf], the
    next refill of the cache then writes the following key over the cached
    key of a restart point, and the walk ends on key "b" with the value of
    "a". *)
Theorem backward_iteration_returns_wrong_key (oracle : list nat) :
  iterateForward oracle sample_block = Some sample_entries
  /\ exists l,
       iterateBackward oracle sample_block = Some l
       /\ l <> rev sample_entries
       /\ last l = Some (sample_key "b", ["1"%byte])
       /\ last (rev sample_entries) = Some (sample_key "a", ["1"%byte]).
Proof.
  split; [vm_compute; reflexivity |].
  destruct oracle as [| [| [| [| [| [| [| [| [| [| a]]]]]]]]] rest];
    (eexists; split; [vm_compute; reflexivity |];
     split; [vm_compute; intros H; discriminate H |];
     split; vm_compute; reflexivity).
Qed.

(** *** Forward iteration and SeekGE on any written block *)

(** Forward iteration over a written block returns the entries added, in
    the order they were added. *)
Theorem forward_iteration_returns_entries
    (R : Z) (entries : list entry) (oracle : list nat) :
  1 <= R ->
  (forall e, In e entries -> 0 <= Trailer (fst e) < 2 ^ 64) ->
  Z.of_nat (length (writeBlock R entries)) < 2 ^ 32 ->
  iterateForward oracle (writeBlock R entries) = Some entries.
Proof.
  intros _ Htr Hsmall. unfold iterateForward.
  destruct (newBlockIter_spec R entries Htr Hsmall oracle) as (i0 & Hnew & Hst & Hv & _).
  rewrite Hnew.
  destruct entries as [| e0 rest] eqn:Hentries.
  - destruct (loadEntry_empty_block R (set_offset 0 i0)) as (i1 & Hl & Hinv & _).
    + destruct Hst as (Hd & _). exact Hd.
    + destruct Hst as (_ & Hr & _). exact Hr.
    + reflexivity.
    + unfold First. rewrite Hl.
      destruct (length (writeBlock R [])); cbn [collectNext]; rewrite Hinv; reflexivity.
  - rewrite <- Hentries in *.
    assert (He0 : entries !! 0%nat = Some e0) by (rewrite Hentries; reflexivity).
    destruct (loadEntry_at R entries Htr Hsmall (set_offset 0 i0) 0 e0)
      as (i1 & Hl & Hat & _).
    + exact Hst.
    + exact He0.
    + reflexivity.
    + exact Hv.
    + left. unfold sharedLen. reflexivity.
    + unfold First. rewrite Hl.
      rewrite (collectNext_at R entries Htr Hsmall _ i1 0 e0 Hat).
      * reflexivity.
      * rewrite (writeBlock_layout R entries), length_app.
        pose proof (encodeFrom_length R entries 0 []). unfold body. lia.
Qed.

Lemma forward_iteration_returns_entries_witness :
  iterateForward [] (writeBlock 2 sample_entries) = Some sample_entries.
Proof.
  apply forward_iteration_returns_entries.
  - lia.
  - intros e He. simpl in He.
    repeat (destruct He as [<- | He]; [vm_compute; split; congruence |]).
    contradiction.
  - vm_compute. reflexivity.
Defined.

(** C2: after [SeekGE k] on a block written from entries in
    non-decreasing order, the iterator is either valid and at an entry
    that is not below the search key [(k, MaxSeq, Max)], that is, whose
    user key is not below [k], and that is no larger than any other such
    entry; or it is invalid and every entry has a user key below [k]. *)
Theorem SeekGE_smallest_entry_at_or_above
    (cmp : list byte -> list byte -> Z) (R : Z) (entries : list entry)
    (oracle : list nat) (k : list byte) :
  comparer_ok cmp ->
  1 <= R ->
  (forall e, In e entries -> 0 <= Trailer (fst e) < 2 ^ 64) ->
  (forall (j : nat) (e1 e2 : entry),
     entries !! j = Some e1 -> entries !! S j = Some e2 ->
     InternalCompare cmp (fst e1) (fst e2) <= 0) ->
  Z.of_nat (length (writeBlock R entries)) < 2 ^ 32 ->
  exists i0 i,
    newBlockIter oracle (writeBlock R entries) = Ok i0
    /\ SeekGE cmp i0 k = Some i
    /\ if Valid i
       then In (Key i, Value i) entries
            /\ 0 <= InternalCompare cmp (Key i) (MakeSearchKey k)
            /\ 0 <= cmp (UserKey (Key i)) k
            /\ (forall e, In e entries ->
                  0 <= cmp (UserKey (fst e)) k ->
                  InternalCompare cmp (Key i) (fst e) <= 0)
       else forall e, In e entries -> cmp (UserKey (fst e)) k < 0.
Proof.
  intros Hcmp _ Htr Hsorted Hsmall.
  destruct (newBlockIter_spec R entries Htr Hsmall oracle) as (i0 & Hnew & Hst & Hv & _).
  destruct (SeekGE_from cmp R entries Hcmp Htr Hsmall Hsorted i0 k Hst Hv)
    as (i & Hseek & Hres).
  exists i0, i. split; [exact Hnew |]. split; [exact Hseek |].
  destruct Hres as [(j & e & Hat & Hge & Hmin) | (Hinv & Hbelow)].
  - rewrite (At_valid R entries i j e Hat).
    destruct Hat as (_ & He & _ & _ & _ & _ & _ & Hk & Hval).
    assert (Hin : In e entries).
    { apply list_elem_of_In. apply (list_elem_of_lookup_2 _ _ _ He). }
    rewrite Hk, Hval. split; [destruct e; exact Hin |].
    split; [exact Hge |].
    split; [apply (IC_search_key cmp (fst e) k (Htr e Hin)); exact Hge |].
    intros e' Hin' Hge'.
    apply list_elem_of_In, list_elem_of_lookup_1 in Hin'. destruct Hin' as [q Hq].
    apply (Hmin q e' Hq).
    apply (IC_search_key cmp (fst e') k); [| exact Hge'].
    apply Htr. apply list_elem_of_In. apply (list_elem_of_lookup_2 _ _ _ Hq).
  - rewrite Hinv. intros e Hin.
    pose proof Hin as Hin'.
    apply list_elem_of_In, list_elem_of_lookup_1 in Hin'. destruct Hin' as [q Hq].
    pose proof (Hbelow q e Hq) as Hlt.
    pose proof (IC_search_key cmp (fst e) k (Htr e Hin)) as Hiff. lia.
Qed.

Lemma bytesCompare_ok : comparer_ok bytesCompare.
Proof.
  split.
  - induction a as [| x a IH]; intros [| y b]; simpl; try lia.
    specialize (IH b).
    destruct (Z.ltb_spec (byte_to_Z x) (byte_to_Z y));
      destruct (Z.ltb_spec (byte_to_Z y) (byte_to_Z x)); lia.
  - induction a as [| x a IH]; intros [| y b] [| z c]; simpl; try lia.
    specialize (IH b c).
    destruct (Z.ltb_spec (byte_to_Z x) (byte_to_Z y));
      destruct (Z.ltb_spec (byte_to_Z y) (byte_to_Z x));
      destruct (Z.ltb_spec (byte_to_Z y) (byte_to_Z z));
      destruct (Z.ltb_spec (byte_to_Z z) (byte_to_Z y));
      destruct (Z.ltb_spec (byte_to_Z x) (byte_to_Z z));
      destruct (Z.ltb_spec (byte_to_Z z) (byte_to_Z x)); lia.
Qed.

Lemma SeekGE_smallest_entry_at_or_above_witness :
  exists i0 i,
    newBlockIter [] (writeBlock 2 sample_entries) = Ok i0
    /\ SeekGE bytesCompare i0 ["c"%byte] = Some i
    /\ Valid i = true
    /\ Key i = sample_key "c".
Proof.
  destruct (SeekGE_smallest_entry_at_or_above bytesCompare 2 sample_entries []
              ["c"%byte] bytesCompare_ok) as (i0 & i & Hnew & Hseek & _).
  - lia.
  - intros e He. simpl in He.
    repeat (destruct He as [<- | He]; [vm_compute; split; congruence |]).
    contradiction.
  - intros j e1 e2 H1 H2.
    do 6 (destruct j as [| j];
          [inversion H1; inversion H2; subst; vm_compute; congruence |]).
    destruct j; discriminate H1.
  - vm_compute. reflexivity.
  - exists i0, i. split; [exact Hnew |]. split; [exact Hseek |].
    vm_compute in Hnew. inversion Hnew; subst i0; clear Hnew.
    vm_compute in Hseek. inversion Hseek; subst i; clear Hseek.
    split; vm_compute; reflexivity.
Defined.

(** *** uvarintLen, estimatedSize and reset *)

Lemma uvarintLen_loop_spec (f : nat) :
  forall (g : nat) (v i : Z),
    0 <= v < 2 ^ (7 * Z.of_nat (S f)) -> (f <= g)%nat ->
    uvarintLen_loop f v i = i + Z.of_nat (length (putUvarint g v)).
Proof.
  induction f as [| f IH]; intros g v i Hv Hg.
  - change (2 ^ (7 * Z.of_nat 1)) with 128 in Hv. simpl uvarintLen_loop.
    destruct g; simpl; [lia |].
    destruct (Z.leb_spec 128 v); [lia | simpl; lia].
  - destruct g as [| g]; [lia |].
    simpl uvarintLen_loop. simpl putUvarint.
    destruct (Z.leb_spec 128 v) as [Hge | Hlt]; [| simpl; lia].
    rewrite (IH g).
    + cbn [length]. lia.
    + rewrite shiftr_7. split; [apply Z.div_pos; lia |].
      apply Z.div_lt_upper_bound; [lia |].
      replace (7 * Z.of_nat (S (S f))) with (7 + 7 * Z.of_nat (S f)) in Hv by lia.
      rewrite Z.pow_add_r in Hv by lia. change (2 ^ 7) with 128 in Hv. lia.
    + lia.
Qed.

(** X15: for every [uint32], [uvarintLen] is the number of bytes that
    [binary.PutUvarint] writes for it, between 1 and 5. *)
Theorem uvarintLen_is_PutUvarint_length (v : Z) :
  0 <= v < 2 ^ 32 ->
  uvarintLen v = Z.of_nat (length (PutUvarint v))
  /\ 1 <= uvarintLen v <= 5.
Proof.
  intros Hv.
  assert (H35 : 2 ^ 32 < 2 ^ (7 * Z.of_nat 5)) by (apply Z.pow_lt_mono_r; lia).
  assert (E : forall g, (4 <= g)%nat ->
                uvarintLen v = Z.of_nat (length (putUvarint g v))).
  { intros g Hg. unfold uvarintLen.
    rewrite (uvarintLen_loop_spec 4 g v 0) by lia. lia. }
  split.
  - apply (E 9%nat). lia.
  - rewrite (E 4%nat) by lia. pose proof (putUvarint_length 4 v). lia.
Qed.

Lemma uvarintLen_is_PutUvarint_length_witness :
  uvarintLen 300 = Z.of_nat (length (PutUvarint 300)) /\ 1 <= uvarintLen 300 <= 5.
Proof.
  apply (uvarintLen_is_PutUvarint_length 300). lia.
Defined.

Lemma encodeFrom_restart (R : Z) (prev1 prev2 : list byte) (l : list entry) :
  encodeFrom R 0 prev1 l = encodeFrom R 0 prev2 l.
Proof.
  destruct l as [| e l]; [reflexivity |].
  cbn [encodeFrom]. unfold sharedLen.
  change (Z.rem (Z.of_nat 0) R =? 0) with true. reflexivity.
Qed.

Lemma restartsFrom_restart (R : Z) (off : nat) (prev1 prev2 : list byte)
    (l : list entry) :
  restartsFrom R 0 off prev1 l = restartsFrom R 0 off prev2 l.
Proof.
  destruct l as [| e l]; [reflexivity |].
  cbn [restartsFrom]. unfold sharedLen.
  change (Z.rem (Z.of_nat 0) R =? 0) with true. reflexivity.
Qed.

Lemma PutUint32_flat_length (l : list Z) :
  length (flat_map PutUint32 l) = (4 * length l)%nat.
Proof.
  induction l as [| x l IH]; [reflexivity |].
  cbn [flat_map]. rewrite length_app, IH. unfold PutUint32.
  rewrite putLE_length. simpl length. lia.
Qed.

(** X16: once an entry has been added, [estimatedSize] is exactly the
    length of the block that [finish] returns; on a writer without
    entries it is 4 bytes short, because [finish] then adds the restart
    point that every block must have. *)
Theorem estimatedSize_is_finish_length (R : Z) (entries : list entry) :
  1 <= R ->
  let w := fold_left addEntry entries (newWriter R) in
  estimatedSize w
  = Z.of_nat (length (finish w)) - (match entries with [] => 4 | _ => 0 end).
Proof.
  intros _. cbv zeta.
  destruct (writer_fold R entries (newWriter R) 0 eq_refl eq_refl)
    as (_ & Hn & _ & Hr & _).
  unfold estimatedSize, finish. rewrite Hn.
  rewrite !length_app, PutUint32_flat_length. unfold PutUint32.
  rewrite putLE_length.
  destruct entries as [| e l].
  - simpl. lia.
  - destruct (Z.eqb_spec (Z.of_nat (0 + length (e :: l))) 0) as [Hz | _];
      [simpl in Hz; lia |].
    lia.
Qed.

Lemma estimatedSize_is_finish_length_witness :
  estimatedSize (fold_left addEntry sample_entries (newWriter 2))
  = Z.of_nat (length sample_block).
Proof.
  pose proof (estimatedSize_is_finish_length 2 sample_entries ltac:(lia)) as H.
  cbv zeta in H. rewrite H. unfold sample_block, writeBlock.
  change (match sample_entries with [] => 4 | _ => 0 end) with 0. lia.
Defined.

(** X17: a writer that has been [reset] writes the same blocks as a new
    one: whatever was added before the reset, the entries added after it
    finish into the block a fresh writer with the same restart interval
    produces for them. *)
Theorem reset_gives_fresh_writer (R : Z) (before after : list entry) :
  1 <= R ->
  finish (fold_left addEntry after
            (reset (fold_left addEntry before (newWriter R))))
  = writeBlock R after.
Proof.
  intros _.
  destruct (writer_fold R before (newWriter R) 0 eq_refl eq_refl)
    as (HR & _).
  set (w1 := fold_left addEntry before (newWriter R)) in *.
  destruct (writer_fold R after (reset w1) 0 HR eq_refl)
    as (_ & Hn & Hb & Hr & _).
  destruct (writer_fold R after (newWriter R) 0 eq_refl eq_refl)
    as (_ & Hn' & Hb' & Hr' & _).
  unfold writeBlock, finish.
  rewrite Hn, Hb, Hr, Hn', Hb', Hr'. simpl.
  rewrite (encodeFrom_restart R (curKey w1) [] after).
  rewrite (restartsFrom_restart R 0 (curKey w1) [] after).
  reflexivity.
Qed.

Lemma reset_gives_fresh_writer_witness :
  finish (fold_left addEntry sample_entries
            (reset (fold_left addEntry (rev sample_entries) (newWriter 2))))
  = sample_block.
Proof.
  apply (reset_gives_fresh_writer 2 (rev sample_entries) sample_entries). lia.
Defined.

(** *** Seeking and scanning *)

Lemma filter_split_at {A : Type} (p : A -> bool) (l : list A) (j : nat) :
  (forall q x, (q < j)%nat -> l !! q = Some x -> p x = false) ->
  (forall q x, (j <= q)%nat -> l !! q = Some x -> p x = true) ->
  List.filter p l = drop j l.
Proof.
  revert j. induction l as [| a l IH]; intros j Hlo Hhi.
  - rewrite drop_nil. reflexivity.
  - destruct j as [| j].
    + simpl. rewrite (Hhi 0%nat a) by (try lia; reflexivity).
      f_equal. apply (IH 0%nat).
      * intros q x Hq. lia.
      * intros q x _ Hx. apply (Hhi (S q)); [lia | exact Hx].
    + simpl. rewrite (Hlo 0%nat a) by (try lia; reflexivity).
      apply IH.
      * intros q x Hq Hx. apply (Hlo (S q)); [lia | exact Hx].
      * intros q x Hq Hx. apply (Hhi (S q)); [lia | exact Hx].
Qed.

(** X18: a range scan.  On a block written from entries whose keys
    increase strictly, [SeekGE k] followed by [Next] until the iterator
    is no longer valid returns exactly the entries whose user key is not
    below [k], in the order they were added. *)
Theorem SeekGE_then_Next_scans_range
    (cmp : list byte -> list byte -> Z) (R : Z) (entries : list entry)
    (oracle : list nat) (k : list byte) :
  comparer_ok cmp ->
  1 <= R ->
  (forall e, In e entries -> 0 <= Trailer (fst e) < 2 ^ 64) ->
  (forall (j : nat) (e1 e2 : entry),
     entries !! j = Some e1 -> entries !! S j = Some e2 ->
     InternalCompare cmp (fst e1) (fst e2) < 0) ->
  Z.of_nat (length (writeBlock R entries)) < 2 ^ 32 ->
  exists i0 i,
    newBlockIter oracle (writeBlock R entries) = Ok i0
    /\ SeekGE cmp i0 k = Some i
    /\ collectNext (length (writeBlock R entries)) i
       = Some (List.filter (fun e => 0 <=? cmp (UserKey (fst e)) k) entries).
Proof.
  intros Hcmp _ Htr Hstrict Hsmall.
  assert (Hsorted : forall (j : nat) (e1 e2 : entry),
            entries !! j = Some e1 -> entries !! S j = Some e2 ->
            InternalCompare cmp (fst e1) (fst e2) <= 0).
  { intros j e1 e2 H1 H2. pose proof (Hstrict j e1 e2 H1 H2). lia. }
  assert (Hin : forall q (e : entry), entries !! q = Some e -> In e entries).
  { intros q e Hq. apply list_elem_of_In. apply (list_elem_of_lookup_2 _ _ _ Hq). }
  destruct (newBlockIter_spec R entries Htr Hsmall oracle) as (i0 & Hnew & Hst & Hv & _).
  destruct (SeekGE_from cmp R entries Hcmp Htr Hsmall Hsorted i0 k Hst Hv)
    as (i & Hseek & Hres).
  exists i0, i. split; [exact Hnew |]. split; [exact Hseek |].
  destruct Hres as [(j & e & Hat & Hge & Hmin) | (Hinv & Hbelow)].
  - rewrite (collectNext_at R entries Htr Hsmall _ i j e Hat).
    2:{ rewrite (writeBlock_layout R entries), length_app.
        pose proof (encodeFrom_length R entries 0 []). unfold body. lia. }
    f_equal. symmetry. apply filter_split_at.
    + intros q x Hq Hx. apply Z.leb_gt.
      destruct Hat as (_ & He & _).
      destruct (Z.lt_ge_cases (cmp (UserKey (fst x)) k) 0) as [| Hxge]; [assumption |].
      exfalso.
      assert (Hx' : 0 <= InternalCompare cmp (fst x) (MakeSearchKey k)).
      { apply (IC_search_key cmp (fst x) k (Htr x (Hin q x Hx))). lia. }
      pose proof (Hmin q x Hx Hx') as Hle.
      destruct (lookup_lt_is_Some_2 entries (S q)) as [y Hy].
      { apply lookup_lt_Some in He. lia. }
      pose proof (Hstrict q x y Hx Hy) as Hxy.
      pose proof (sorted_le cmp R entries Hcmp Hsorted (S q) j y e ltac:(lia) Hy He)
        as Hye.
      pose proof (IC_lt_le_trans cmp Hcmp _ _ _ Hxy Hye) as Hxe.
      apply (IC_antisym cmp Hcmp) in Hxe. lia.
    + intros q x Hq Hx. apply Z.leb_le.
      destruct Hat as (_ & He & _).
      apply (IC_search_key cmp (fst x) k (Htr x (Hin q x Hx))).
      apply (IC_ge_le cmp Hcmp).
      apply (IC_trans cmp Hcmp _ (fst e)).
      * apply (IC_ge_le cmp Hcmp). exact Hge.
      * apply (sorted_le cmp R entries Hcmp Hsorted j q e x Hq He Hx).
  - assert (Hnone : List.filter (fun e => 0 <=? cmp (UserKey (fst e)) k) entries = []).
    { rewrite (filter_split_at _ entries (length entries)).
      - apply drop_all.
      - intros q x _ Hx. apply Z.leb_gt.
        pose proof (Hbelow q x Hx) as Hlt.
        pose proof (IC_search_key cmp (fst x) k (Htr x (Hin q x Hx))). lia.
      - intros q x Hq Hx. apply lookup_lt_Some in Hx. lia. }
    rewrite Hnone.
    destruct (length (writeBlock R entries)); cbn [collectNext]; rewrite Hinv;
      reflexivity.
Qed.

Lemma SeekGE_then_Next_scans_range_witness :
  exists i0 i,
    newBlockIter [] sample_block = Ok i0
    /\ SeekGE bytesCompare i0 ["c"%byte] = Some i
    /\ collectNext (length sample_block) i = Some (drop 2 sample_entries).
Proof.
  destruct (SeekGE_then_Next_scans_range bytesCompare 2 sample_entries []
              ["c"%byte] bytesCompare_ok) as (i0 & i & Hnew & Hseek & Hscan).
  - lia.
  - intros e He. simpl in He.
    repeat (destruct He as [<- | He]; [vm_compute; split; congruence |]).
    contradiction.
  - intros j e1 e2 H1 H2.
    do 6 (destruct j as [| j];
          [inversion H1; inversion H2; subst; vm_compute; congruence |]).
    destruct j; discriminate H1.
  - vm_compute. reflexivity.
  - exists i0, i. split; [exact Hnew |]. split; [exact Hseek |].
    exact Hscan.
Defined.

(** *** Slices that an append leaves alone *)

Lemma write_at_below (arr : list byte) (w off len : nat) (bs : list byte) :
  (off + len <= w)%nat -> (w <= length arr)%nat ->
  take len (drop off (write_at arr w bs)) = take len (drop off arr).
Proof.
  intros H Hw. unfold write_at.
  rewrite drop_app_le by (rewrite length_take; lia).
  rewrite take_app_le by (rewrite length_drop, length_take; lia).
  replace w with (off + (w - off))%nat at 1 by lia.
  rewrite <- take_drop_commute, take_take. f_equal. lia.
Qed.

(** A slice [t] keeps its contents across [append(s, bs...)] when it lies
    in another array, or below the end of [s], or when the append has to
    allocate. *)
Definition untouched (s t : slice) (n : nat) : Prop :=
  s_arr t <> s_arr s
  \/ (s_off t + s_len t <= s_off s + s_len s)%nat
  \/ (s_cap s < s_len s + n)%nat.

Lemma go_append_frame (m : memory) (s t : slice) (bs : list byte) :
  valid_slice m s -> valid_slice m t -> untouched s t (length bs) ->
  contents (fst (go_append m s bs)) t = contents m t
  /\ valid_slice (fst (go_append m s bs)) t.
Proof.
  intros (Harr & Hcap & Hlen) (Tarr & Tcap & Tlen) Hun. unfold go_append.
  destruct (Nat.leb_spec (s_len s + length bs) (s_cap s)) as [Hfit | Hgrow]; simpl.
  - destruct (decide (s_arr t = s_arr s)) as [Heq | Hne].
    + destruct Hun as [Hun | [Hun | Hun]]; [contradiction | | lia].
      assert (Hl : arrays m !! s_arr s = Some (nth (s_arr s) (arrays m) [])).
      { rewrite nth_lookup_default.
        destruct (arrays m !! s_arr s) eqn:E; [reflexivity |].
        apply lookup_ge_None in E. lia. }
      split.
      * unfold contents; simpl. rewrite Heq.
        rewrite (nth_lookup_default (alter _ _ _)), list_lookup_alter_eq, Hl. simpl.
        apply write_at_below; lia.
      * unfold valid_slice; simpl. rewrite length_alter, Heq.
        split; [lia |]. split; [| lia].
        rewrite (nth_lookup_default (alter _ _ _)), list_lookup_alter_eq, Hl. simpl.
        rewrite write_at_length by lia. rewrite <- Heq. exact Tcap.
    + assert (Hn : nth (s_arr t)
                     (alter (fun arr => write_at arr (s_off s + s_len s) bs)
                        (s_arr s) (arrays m)) []
                   = nth (s_arr t) (arrays m) []).
      { rewrite !nth_lookup_default, list_lookup_alter_ne by auto. reflexivity. }
      split.
      * unfold contents; simpl. rewrite Hn. reflexivity.
      * unfold valid_slice; simpl. rewrite length_alter, Hn. auto.
  - assert (Hn : forall x, nth (s_arr t) (arrays m ++ [x]) []
                           = nth (s_arr t) (arrays m) []).
    { intros x. rewrite !nth_lookup_default, lookup_app_l by lia. reflexivity. }
    split.
    + unfold contents; simpl. rewrite Hn. reflexivity.
    + unfold valid_slice; simpl. rewrite length_app, Hn. simpl.
      split; [lia |]. auto.
Qed.

(** Where the result of an append lives: in the array of [s], with the
    same offset and capacity, or in a new array. *)
Lemma go_append_arr (m : memory) (s : slice) (bs : list byte) :
  let m' := fst (go_append m s bs) in
  let s' := snd (go_append m s bs) in
  (length (arrays m) <= length (arrays m'))%nat
  /\ ((s_arr s' = s_arr s /\ s_off s' = s_off s /\ s_cap s' = s_cap s
       /\ (s_len s + length bs <= s_cap s)%nat)
      \/ (s_arr s' = length (arrays m) /\ (s_cap s < s_len s + length bs)%nat)).
Proof.
  unfold go_append.
  destruct (Nat.leb_spec (s_len s + length bs) (s_cap s)) as [Hfit | Hgrow]; simpl.
  - rewrite length_alter. split; [lia |]. left. auto.
  - rewrite length_app. simpl. split; [lia |]. right. auto.
Qed.

Lemma subslice_spec (m : memory) (s : slice) (lo hi : nat) :
  valid_slice m s -> (lo <= hi <= s_len s)%nat ->
  contents m (subslice s lo hi) = take (hi - lo) (drop lo (contents m s))
  /\ valid_slice m (subslice s lo hi)
  /\ s_len (subslice s lo hi) = (hi - lo)%nat.
Proof.
  intros (Harr & Hcap & Hlen) H. unfold subslice, contents, valid_slice; simpl.
  split; [| split; [split; [exact Harr | split; lia] | reflexivity]].
  replace (s_len s) with (lo + (s_len s - lo))%nat by lia.
  rewrite <- take_drop_commute, take_take, drop_drop.
  rewrite Nat.min_l by lia. reflexivity.
Qed.

(** *** The key buffer and the cache

    [readEntry] appends to [i.key] and [cacheEntry] to [i.cachedBuf].  As
    long as the two buffers live in different arrays, neither overwrites
    the other, and the keys of the cached entries, which are pieces of
    [i.cachedBuf] as it was when they were cached, stay as they are. *)

(** [i.key] and [i.cachedBuf] do not share an array ([i.cachedBuf] may
    still be nil). *)
Definition apart (i : blockIter) : Prop :=
  s_arr (key i) <> s_arr (cachedBuf i) \/ cachedBuf i = nil_slice.

(** The slice [t] is out of reach of what the iterator appends to. *)
Definition safe (i : blockIter) (t : slice) : Prop :=
  valid_slice (mem i) t
  /\ s_arr t <> s_arr (key i)
  /\ (s_arr t <> s_arr (cachedBuf i)
      \/ (s_off t + s_len t <= s_off (cachedBuf i) + s_len (cachedBuf i))%nat).

Lemma readEntry_frame (i i' : blockIter) :
  readEntry i = Some i' ->
  valid_slice (mem i) (key i) ->
  (forall t, valid_slice (mem i) t ->
     s_arr t <> s_arr (key i) \/ (s_off t + s_len t <= s_off (key i))%nat ->
     contents (mem i') t = contents (mem i) t /\ valid_slice (mem i') t)
  /\ (s_arr (key i') = s_arr (key i)
      \/ (length (arrays (mem i)) <= s_arr (key i'))%nat)
  /\ (length (arrays (mem i)) <= length (arrays (mem i')))%nat
  /\ cached i' = cached i /\ cachedBuf i' = cachedBuf i.
Proof.
  unfold readEntry. intros H (Harr & Hcap & Hlen).
  destruct (decodeVarint (data i) (offset i)) as [shared p1].
  destruct (decodeVarint (data i) p1) as [unshared p2].
  destruct (decodeVarint (data i) p2) as [value p3].
  unfold reslice in H.
  destruct (Nat.leb_spec (Z.to_nat shared) (s_cap (key i))) as [Hsh | Hsh];
    [| discriminate].
  set (s := {| s_arr := s_arr (key i); s_off := s_off (key i);
               s_len := Z.to_nat shared; s_cap := s_cap (key i) |}) in *.
  assert (Hs : valid_slice (mem i) s).
  { unfold valid_slice; simpl. auto. }
  pose proof (go_append_arr (mem i) s (getBytes (data i) p3 unshared)) as Ha.
  pose proof (fun t Ht Hu =>
                go_append_frame (mem i) s t (getBytes (data i) p3 unshared) Hs Ht Hu)
    as Hf.
  destruct (go_append (mem i) s (getBytes (data i) p3 unshared)) as [m k].
  cbv zeta in Ha. simpl in Ha, Hf.
  inversion H; subst i'; clear H.
  unfold set_nextOffset, set_val, set_key, set_mem; simpl.
  split; [| split; [| split; [| split; reflexivity]]].
  - intros t Ht Hu. apply Hf; [exact Ht |].
    unfold untouched; simpl. destruct Hu as [Hu | Hu]; [left; exact Hu |].
    right; left. lia.
  - destruct Ha as (_ & [(Hk & _) | (Hk & _)]); [left | right]; [exact Hk | lia].
  - destruct Ha as (Hl & _). exact Hl.
Qed.

Lemma readEntry_safe (i i' : blockIter) (t : slice) :
  readEntry i = Some i' ->
  valid_slice (mem i) (key i) ->
  safe i t ->
  safe i' t /\ contents (mem i') t = contents (mem i) t.
Proof.
  intros Hre Hv (Ht & Hk & Hc).
  destruct (readEntry_frame i i' Hre Hv) as (Hf & Harr & _ & _ & Hcb).
  destruct (Hf t Ht (or_introl Hk)) as (Hcont & Hval).
  split; [| exact Hcont].
  split; [exact Hval |]. split.
  - destruct Harr as [-> | Hfresh]; [exact Hk |].
    destruct Ht as (Ht & _). lia.
  - rewrite Hcb. exact Hc.
Qed.

Lemma readEntry_apart (i i' : blockIter) :
  readEntry i = Some i' ->
  valid_slice (mem i) (key i) ->
  valid_slice (mem i) (cachedBuf i) ->
  apart i ->
  apart i' /\ valid_slice (mem i') (cachedBuf i').
Proof.
  intros Hre Hv Hcv Hap.
  destruct (readEntry_frame i i' Hre Hv) as (Hf & Harr & _ & _ & Hcb).
  rewrite Hcb. split.
  - unfold apart. rewrite Hcb.
    destruct Hap as [Hne | Hnil]; [| right; exact Hnil].
    left. destruct Harr as [-> | Hfresh]; [exact Hne |].
    destruct Hcv as (Hcv & _). lia.
  - apply Hf; [exact Hcv |].
    destruct Hap as [Hne | Hnil]; [left; auto |].
    right. rewrite Hnil. simpl. lia.
Qed.

Lemma contents_length (m : memory) (s : slice) :
  valid_slice m s -> length (contents m s) = s_len s.
Proof.
  intros (_ & Hcap & Hlen). unfold contents.
  rewrite length_take, length_drop. lia.
Qed.

Lemma cacheEntry_spec (i : blockIter) :
  valid_slice (mem i) (key i) ->
  valid_slice (mem i) (cachedBuf i) ->
  apart i ->
  (0 < s_len (key i))%nat ->
  let i' := cacheEntry i in
  (offset i' = offset i /\ nextOffset i' = nextOffset i
   /\ restarts i' = restarts i /\ numRestarts i' = numRestarts i
   /\ globalSeqNum i' = globalSeqNum i /\ data i' = data i
   /\ key i' = key i /\ val i' = val i)
  /\ contents (mem i') (key i') = contents (mem i) (key i)
  /\ valid_slice (mem i') (key i')
  /\ valid_slice (mem i') (cachedBuf i')
  /\ s_arr (key i') <> s_arr (cachedBuf i')
  /\ (exists c,
        cached i' = cached i ++ [c]
        /\ e_offset c = offset i /\ e_val c = val i
        /\ contents (mem i') (e_key c) = contents (mem i) (key i)
        /\ s_len (e_key c) = s_len (key i)
        /\ safe i' (e_key c))
  /\ (forall t, safe i t -> safe i' t /\ contents (mem i') t = contents (mem i) t).
Proof.
  intros Hkv Hcv Hap Hpos. unfold cacheEntry.
  set (k := contents (mem i) (key i)).
  assert (Hklen : length k = s_len (key i)) by (apply contents_length; exact Hkv).
  pose proof (go_append_spec (mem i) (cachedBuf i) k Hcv) as (Hc & Hv & Hl).
  pose proof (go_append_arr (mem i) (cachedBuf i) k) as (Hgrow & Harr).
  pose proof (fun t Ht Hu => go_append_frame (mem i) (cachedBuf i) t k Hcv Ht Hu) as Hf.
  destruct (go_append (mem i) (cachedBuf i) k) as [m cb].
  simpl in Hc, Hv, Hl, Hgrow, Harr, Hf.
  unfold set_cached, set_cachedBuf, set_mem.
  cbn [offset nextOffset restarts numRestarts globalSeqNum data key val mem
       cached cachedBuf].
  assert (Hkey : contents m (key i) = k /\ valid_slice m (key i)).
  { apply Hf; [exact Hkv |]. unfold untouched.
    destruct Hap as [Hne | Hnil]; [left; exact Hne |].
    right; right. rewrite Hnil. simpl. lia. }
  assert (Hne : s_arr (key i) <> s_arr cb).
  { destruct Harr as [(Ha & _ & _ & Hfit) | (Ha & _)].
    - rewrite Ha. destruct Hap as [Hne | Hnil]; [exact Hne |].
      rewrite Hnil in Hfit. simpl in Hfit. lia.
    - rewrite Ha. destruct Hkv as (Hkv & _). lia. }
  split; [repeat split; reflexivity |].
  split; [apply Hkey |]. split; [apply Hkey |]. split; [exact Hv |].
  split; [exact Hne |]. split.
  - eexists. split; [reflexivity |]. simpl.
    split; [reflexivity |]. split; [reflexivity |].
    destruct (subslice_spec m cb (s_len cb - s_len (key i)) (s_len cb) Hv)
      as (Hsc & Hsv & Hsl); [lia |].
    split; [| split].
    + rewrite Hsc, Hc.
      replace (s_len cb - s_len (key i))%nat with (length (contents (mem i) (cachedBuf i))).
      2:{ rewrite (contents_length _ _ Hcv). lia. }
      rewrite drop_app_length.
      replace (s_len cb - length (contents (mem i) (cachedBuf i)))%nat
        with (length k).
      2:{ rewrite (contents_length _ _ Hcv). lia. }
      apply firstn_all.
    + clear -Hl Hklen. simpl in *. lia.
    + split; [exact Hsv |]. simpl. split; [auto |]. right. lia.
  - intros t (Ht & Hk & Hcb).
    destruct (Hf t Ht) as (Hcont & Hval).
    { unfold untouched. destruct Hcb as [Hcb | Hcb]; [left | right; left]; exact Hcb. }
    split; [| exact Hcont].
    split; [exact Hval |]. split; [exact Hk |].
    cbn [cachedBuf key mem].
    destruct Harr as [(Ha & Ho & _ & _) | (Ha & _)].
    + rewrite Ha, Ho. destruct Hcb as [Hcb | Hcb]; [left; exact Hcb | right; lia].
    + left. rewrite Ha. destruct Ht as (Ht & _). lia.
Qed.

Lemma clearCache_spec (i : blockIter) :
  valid_slice (mem i) (cachedBuf i) -> apart i ->
  let i' := clearCache i in
  cached i' = [] /\ valid_slice (mem i') (cachedBuf i') /\ apart i'
  /\ mem i' = mem i /\ key i' = key i /\ offset i' = offset i
  /\ nextOffset i' = nextOffset i /\ restarts i' = restarts i
  /\ numRestarts i' = numRestarts i /\ globalSeqNum i' = globalSeqNum i
  /\ data i' = data i /\ val i' = val i.
Proof.
  intros (Ha & Hc & Hl) Hap. unfold clearCache, set_cachedBuf, set_cached; simpl.
  split; [reflexivity |]. split; [| split; [| repeat split; reflexivity]].
  - unfold valid_slice; simpl. split; [exact Ha |]. split; [exact Hc | lia].
  - unfold apart; simpl. destruct Hap as [Hne | Hnil]; [left; exact Hne |].
    right. rewrite Hnil. reflexivity.
Qed.

(** *** When the cache cannot serve Prev *)

Lemma nth_error_is_lookup {A : Type} (l : list A) (n : nat) :
  nth_error l n = l !! n.
Proof.
  revert n. induction l as [| x l IH]; intros [| n]; simpl; auto.
Qed.

(** The test at the head of [Prev] fails: the cache has no entry before
    the current one, or its last entry is not the current one. *)
Definition cache_miss (i : blockIter) : Prop :=
  (let n := (Z.of_nat (length (cached i)) - 1)%Z in
   if 0 <? n then
     match nth_error (cached i) (Z.to_nat n),
           nth_error (cached i) (Z.to_nat (n - 1)) with
     | Some en, Some e => if e_offset en =? offset i then Some e else None
     | _, _ => None
     end
   else None) = None.

Lemma cache_miss_short (i : blockIter) :
  (length (cached i) <= 1)%nat -> cache_miss i.
Proof.
  intros H. unfold cache_miss. cbv zeta.
  destruct (Z.ltb_spec 0 (Z.of_nat (length (cached i)) - 1)); [lia | reflexivity].
Qed.

Lemma cache_miss_other (i : blockIter) :
  (forall c, cached i !! (length (cached i) - 1)%nat = Some c ->
             e_offset c <> offset i) ->
  cache_miss i.
Proof.
  intros H. unfold cache_miss. cbv zeta.
  destruct (Z.ltb_spec 0 (Z.of_nat (length (cached i)) - 1)); [| reflexivity].
  rewrite !nth_error_is_lookup.
  replace (Z.to_nat (Z.of_nat (length (cached i)) - 1))
    with (length (cached i) - 1)%nat by lia.
  destruct (cached i !! (length (cached i) - 1)%nat) as [en |] eqn:Hen; [| reflexivity].
  destruct (cached i !! Z.to_nat (Z.of_nat (length (cached i)) - 1 - 1));
    [| reflexivity].
  destruct (Z.eqb_spec (e_offset en) (offset i)) as [Heq | _]; [| reflexivity].
  exfalso. apply (H en eq_refl Heq).
Qed.

(** *** Reading backwards in a written block *)

Section Backward.

Variable R : Z.
Variable entries : list entry.

Hypothesis trailers_ok :
  forall e, In e entries -> 0 <= Trailer (fst e) < 2 ^ 64.
Hypothesis block_small :
  Z.of_nat (length (writeBlock R entries)) < 2 ^ 32.

Lemma off_lt (a b : nat) :
  (a < b)%nat -> (b <= length entries)%nat ->
  (off R entries a < off R entries b)%nat.
Proof.
  intros Hab Hb. induction Hab as [| b Hab IH].
  - destruct (lookup_lt_is_Some_2 entries a) as [e He]; [lia |].
    rewrite (off_S R entries a e He).
    pose proof (sharedLen_bounds R a (lastKey [] (take a entries)) (Encode (fst e)))
      as (Hs & _).
    pose proof (entryBytes_length _ _ (snd e) Hs). lia.
  - destruct (lookup_lt_is_Some_2 entries b) as [e He]; [lia |].
    rewrite (off_S R entries b e He). specialize (IH ltac:(lia)). lia.
Qed.

Lemma off_inj_le (a b : nat) :
  (a <= length entries)%nat -> (b <= length entries)%nat ->
  (off R entries a <= off R entries b)%nat -> (a <= b)%nat.
Proof.
  intros Ha Hb Hle.
  destruct (Nat.le_gt_cases a b) as [| Hgt]; [assumption |].
  pose proof (off_lt b a Hgt Ha). lia.
Qed.

Lemma Encode_length (k : InternalKey) : (8 <= length (Encode k))%nat.
Proof.
  unfold Encode, PutUint64. rewrite length_app, putLE_length. lia.
Qed.

(** [readEntry] at the offset of entry [j]. *)
Lemma readEntry_entry (i : blockIter) (j : nat) (e : entry) :
  Static R entries i ->
  entries !! j = Some e ->
  offset i = Z.of_nat (off R entries j) ->
  valid_slice (mem i) (key i) ->
  (sharedLen R j (lastKey [] (take j entries)) (Encode (fst e)) = 0
   \/ (contents (mem i) (key i) = lastKey [] (take j entries)
       /\ s_len (key i) = length (lastKey [] (take j entries)))) ->
  exists i1,
    readEntry i = Some i1
    /\ Static R entries i1
    /\ offset i1 = Z.of_nat (off R entries j)
    /\ nextOffset i1 = Z.of_nat (off R entries (S j))
    /\ contents (mem i1) (key i1) = Encode (fst e)
    /\ s_len (key i1) = length (Encode (fst e))
    /\ valid_slice (mem i1) (key i1)
    /\ val i1 = snd e.
Proof.
  intros Hst He Hoff Hv Hpre.
  destruct (loadEntry_at R entries trailers_ok block_small i j e Hst He Hoff Hv Hpre)
    as (i' & Hle & Hat & _).
  unfold loadEntry in Hle.
  destruct (readEntry i) as [i1 |]; [| discriminate].
  inversion Hle; subst i'; clear Hle.
  destruct (decodeInternalKey_fields i1)
    as (F1 & F2 & F3 & F4 & F5 & F6 & F7 & F8 & F9 & _).
  destruct Hat as ((S1 & S2 & S3 & S4) & _ & A1 & A2 & A3 & A4 & A5 & _ & A7).
  unfold Value in A7.
  rewrite F1 in A1. rewrite F2 in A2. rewrite F3 in S2. rewrite F4 in S3.
  rewrite F5 in S4. rewrite F6 in S1. rewrite F7, F9 in A3, A5. rewrite F7 in A4.
  rewrite F8 in A7.
  exists i1. split; [reflexivity |].
  split; [repeat split; assumption |].
  repeat (split; [assumption |]). assumption.
Qed.

(** A cached entry is entry [j] of the block. *)
Definition record_ok (m : memory) (c : blockEntry) (j : nat) : Prop :=
  exists e,
    entries !! j = Some e
    /\ e_offset c = Z.of_nat (off R entries j)
    /\ e_val c = snd e
    /\ contents m (e_key c) = Encode (fst e)
    /\ s_len (e_key c) = length (Encode (fst e)).

(** The state in the middle of a backward read: the entries from [r] to
    [q] have been read and cached, the key buffer holds the key of entry
    [q], and nothing cached can be overwritten. *)
Definition Mid (i : blockIter) (r q : nat) (e : entry) : Prop :=
  Static R entries i
  /\ entries !! q = Some e
  /\ (r <= q)%nat
  /\ offset i = Z.of_nat (off R entries q)
  /\ nextOffset i = Z.of_nat (off R entries (S q))
  /\ contents (mem i) (key i) = Encode (fst e)
  /\ s_len (key i) = length (Encode (fst e))
  /\ valid_slice (mem i) (key i)
  /\ val i = snd e
  /\ valid_slice (mem i) (cachedBuf i)
  /\ s_arr (key i) <> s_arr (cachedBuf i)
  /\ length (cached i) = S (q - r)
  /\ (forall k c, cached i !! k = Some c ->
        record_ok (mem i) c (r + k) /\ safe i (e_key c)).

Lemma Static_cacheEntry (i : blockIter) :
  Static R entries i -> Static R entries (cacheEntry i).
Proof.
  unfold Static, cacheEntry.
  destruct (go_append (mem i) (cachedBuf i) (contents (mem i) (key i))).
  simpl. auto.
Qed.

Lemma mid_start (i : blockIter) (r : nat) (e : entry) :
  Static R entries i ->
  valid_slice (mem i) (key i) ->
  valid_slice (mem i) (cachedBuf i) ->
  apart i ->
  entries !! r = Some e ->
  offset i = Z.of_nat (off R entries r) ->
  sharedLen R r (lastKey [] (take r entries)) (Encode (fst e)) = 0 ->
  exists i1,
    readEntry i = Some i1 /\ Mid (cacheEntry (clearCache i1)) r r e.
Proof.
  intros Hst Hkv Hcv Hap He Hoff Hsh.
  destruct (readEntry_entry i r e Hst He Hoff Hkv (or_introl Hsh))
    as (i1 & Hre & Hst1 & Ho1 & Hn1 & Hc1 & Hl1 & Hv1 & Hval1).
  destruct (readEntry_apart i i1 Hre Hkv Hcv Hap) as (Hap1 & Hcv1).
  exists i1. split; [exact Hre |].
  destruct (clearCache_spec i1 Hcv1 Hap1)
    as (C1 & C2 & C3 & C4 & C5 & C6 & C7 & C8 & C9 & C10 & C11 & C12).
  set (i2 := clearCache i1) in *.
  assert (Hkv2 : valid_slice (mem i2) (key i2)) by (rewrite C4, C5; exact Hv1).
  assert (Hpos : (0 < s_len (key i2))%nat).
  { rewrite C5, Hl1. pose proof (Encode_length (fst e)). lia. }
  destruct (cacheEntry_spec i2 Hkv2 C2 C3 Hpos)
    as ((D1 & D2 & D3 & D4 & D5 & D6 & D7 & D8) & Dc & Dv & Dcv & Dne & Drec & _).
  destruct Drec as (c & Hcached & Rc1 & Rc2 & Rc3 & Rc4 & Rc5).
  unfold Mid.
  split; [apply Static_cacheEntry; destruct Hst1 as (S1 & S2 & S3 & S4);
          repeat split; congruence |].
  split; [exact He |]. split; [lia |].
  split; [congruence |]. split; [congruence |].
  split; [rewrite Dc, C4, C5; exact Hc1 |].
  split; [rewrite D7, C5; exact Hl1 |].
  split; [exact Dv |]. split; [congruence |].
  split; [exact Dcv |]. split; [exact Dne |].
  rewrite Hcached, C1. simpl. split; [f_equal; lia |].
  intros k c' Hk. destruct k as [| k]; [| discriminate].
  inversion Hk; subst c'. split; [| exact Rc5].
  exists e. rewrite Nat.add_0_r.
  split; [exact He |]. split; [congruence |]. split; [congruence |].
  split; [rewrite Rc3, C4, C5; exact Hc1 | rewrite Rc4, C5; exact Hl1].
Qed.

Lemma mid_step (i : blockIter) (r q : nat) (e e' : entry) :
  Mid i r q e ->
  entries !! S q = Some e' ->
  exists i1,
    readEntry (set_offset (nextOffset i) i) = Some i1
    /\ Mid (cacheEntry i1) r (S q) e'.
Proof.
  intros (Hst & He & Hrq & Hoff & Hnext & Hc & Hl & Hkv & Hval & Hcv & Hne & Hlen & Hrec)
         He'.
  set (i0 := set_offset (nextOffset i) i).
  assert (Hap0 : apart i0) by (left; exact Hne).
  destruct (readEntry_entry i0 (S q) e') as (i1 & Hre & Hst1 & Ho1 & Hn1 & Hc1 & Hl1 & Hv1 & Hval1).
  { exact Hst. }
  { exact He'. }
  { exact Hnext. }
  { exact Hkv. }
  { right. rewrite (lastKey_take entries q e He). split; assumption. }
  destruct (readEntry_apart i0 i1 Hre Hkv Hcv Hap0) as (Hap1 & Hcv1).
  destruct (readEntry_frame i0 i1 Hre Hkv) as (_ & _ & _ & Hca1 & Hcb1).
  exists i1. split; [exact Hre |].
  assert (Hpos : (0 < s_len (key i1))%nat).
  { rewrite Hl1. pose proof (Encode_length (fst e')). lia. }
  destruct (cacheEntry_spec i1 Hv1 Hcv1 Hap1 Hpos)
    as ((D1 & D2 & D3 & D4 & D5 & D6 & D7 & D8) & Dc & Dv & Dcv & Dne & Drec & Dsafe).
  destruct Drec as (c & Hcached & Rc1 & Rc2 & Rc3 & Rc4 & Rc5).
  unfold Mid.
  split; [apply Static_cacheEntry; exact Hst1 |].
  split; [exact He' |]. split; [lia |].
  split; [congruence |]. split; [congruence |].
  split; [rewrite Dc; exact Hc1 |].
  split; [rewrite D7; exact Hl1 |].
  split; [exact Dv |]. split; [congruence |].
  split; [exact Dcv |]. split; [exact Dne |].
  rewrite Hcached, Hca1. change (cached i0) with (cached i).
  split; [rewrite length_app, Hlen; simpl; lia |].
  intros k c' Hk.
  destruct (Nat.lt_ge_cases k (length (cached i))) as [Hlt | Hge].
  - rewrite lookup_app_l in Hk by exact Hlt.
    destruct (Hrec k c' Hk) as ((ex & X1 & X2 & X3 & X4 & X5) & Hs).
    assert (Hs0 : safe i0 (e_key c')) by exact Hs.
    destruct (readEntry_safe i0 i1 (e_key c') Hre Hkv Hs0) as (Hs1 & Hcont1).
    destruct (Dsafe (e_key c') Hs1) as (Hs2 & Hcont2).
    split; [| exact Hs2].
    exists ex. split; [exact X1 |]. split; [exact X2 |]. split; [exact X3 |].
    split; [| exact X5].
    rewrite Hcont2, Hcont1. exact X4.
  - rewrite lookup_app_r in Hk by exact Hge.
    destruct (k - length (cached i))%nat as [| k'] eqn:Hk'; [| discriminate].
    inversion Hk; subst c'. split; [| exact Rc5].
    assert (Hidx : (r + k = S q)%nat) by lia.
    rewrite Hidx. exists e'.
    split; [exact He' |]. split; [congruence |]. split; [congruence |].
    split; [rewrite Rc3; exact Hc1 | rewrite Rc4; exact Hl1].
Qed.

(** The loop [for i.nextOffset < bound { ... }] with the bound at the end
    of entry [j]: it reads and caches the entries up to [j]. *)
Lemma mid_loop (r j : nat) (fuel : nat) :
  forall (i : blockIter) (q : nat) (e : entry),
    Mid i r q e ->
    (q <= j < length entries)%nat ->
    (j - q <= fuel)%nat ->
    exists i' e',
      readAndCache fuel (Z.of_nat (off R entries (S j))) i = Some i'
      /\ Mid i' r j e'.
Proof.
  induction fuel as [| fuel IH]; intros i q e Hmid Hq Hfuel.
  - assert (q = j) by lia. subst q.
    pose proof Hmid as (Hst & He & Hrq & Hoff & Hnext & Hrest).
    exists i, e. cbn [readAndCache]. rewrite Hnext, Z.ltb_irrefl.
    split; [reflexivity | exact Hmid].
  - cbn [readAndCache].
    pose proof Hmid as (Hst & He & Hrq & Hoff & Hnext & Hrest).
    destruct (Nat.eq_dec q j) as [-> | Hne].
    + exists i, e. rewrite Hnext, Z.ltb_irrefl. split; [reflexivity | exact Hmid].
    + assert (Hlt : (off R entries (S q) < off R entries (S j))%nat)
        by (apply off_lt; lia).
      rewrite Hnext.
      destruct (Z.ltb_spec (Z.of_nat (off R entries (S q)))
                  (Z.of_nat (off R entries (S j)))) as [_ | Hbad]; [| lia].
      destruct (lookup_lt_is_Some_2 entries (S q)) as [e' He']; [lia |].
      destruct (mid_step i r q e e' Hmid He') as (i1 & Hre & Hmid1).
      rewrite <- Hnext. rewrite Hre.
      apply (IH (cacheEntry i1) (S q) e' Hmid1); lia.
Qed.

(** The iterator is at entry [q] and the cache holds the entries from
    [r] to [q]. *)
Definition Back (i : blockIter) (r q : nat) (e : entry) : Prop :=
  Mid i r q e /\ Key i = fst e /\ Value i = snd e.

Lemma mid_decode (i : blockIter) (r q : nat) (e : entry) :
  Mid i r q e -> Back (decodeInternalKey i) r q e.
Proof.
  intros (Hst & He & Hrq & Hoff & Hnext & Hc & Hl & Hkv & Hval & Hcv & Hne & Hlen & Hrec).
  destruct (decodeInternalKey_fields i)
    as (F1 & F2 & F3 & F4 & F5 & F6 & F7 & F8 & F9 & F10 & F11).
  destruct Hst as (S1 & S2 & S3 & S4).
  split; [| split].
  - unfold Mid, Static, safe. rewrite F1, F2, F3, F4, F5, F6, F7, F8, F9, F10, F11.
    split; [repeat split; assumption |].
    repeat (split; [assumption |]). exact Hrec.
  - apply decodeInternalKey_spec; try assumption.
    apply trailers_ok. apply list_elem_of_In.
    apply (list_elem_of_lookup_2 _ _ _ He).
  - unfold Value. rewrite F8. exact Hval.
Qed.

Lemma restartIdx_head :
  entries <> [] -> restartIdx R 0 entries !! 0%nat = Some 0%nat.
Proof.
  destruct entries as [| e l]; [contradiction |]. intros _. reflexivity.
Qed.

Lemma numRestarts_idx (i : blockIter) :
  Static R entries i -> entries <> [] ->
  numRestarts i = Z.of_nat (length (restartIdx R 0 entries)).
Proof.
  intros (_ & _ & Hn & _) Hne. rewrite Hn.
  rewrite (restartOffsets_eq R entries trailers_ok block_small).
  destruct entries; [contradiction |]. rewrite length_map. reflexivity.
Qed.

Lemma restartIdx_lookup_mono (x y jx jy : nat) :
  (x <= y)%nat ->
  restartIdx R 0 entries !! x = Some jx ->
  restartIdx R 0 entries !! y = Some jy ->
  (jx <= jy)%nat.
Proof.
  apply (sorted_lookup_le R entries). apply restartIdx_sorted.
Qed.

Lemma restartIdx_In (r : nat) :
  In r (restartIdx R 0 entries) ->
  exists e, entries !! r = Some e
            /\ sharedLen R r (lastKey [] (take r entries)) (Encode (fst e)) = 0.
Proof.
  intros Hr. destruct (restartIdx_bounds R entries 0 r Hr) as [Hb _].
  destruct (lookup_lt_is_Some_2 entries r) as [e He]; [lia |].
  exists e. split; [exact He |]. apply (restart_shared R entries). exact Hr.
Qed.

(** A backward read: from the restart point [r], entries are read and
    cached up to entry [j]. *)
Lemma run_from_restart (i : blockIter) (r j fuel : nat) :
  Static R entries i ->
  valid_slice (mem i) (key i) ->
  valid_slice (mem i) (cachedBuf i) ->
  apart i ->
  In r (restartIdx R 0 entries) ->
  offset i = Z.of_nat (off R entries r) ->
  (r <= j < length entries)%nat ->
  (j - r <= fuel)%nat ->
  exists i1 i2 e',
    readEntry i = Some i1
    /\ readAndCache fuel (Z.of_nat (off R entries (S j)))
         (cacheEntry (clearCache i1)) = Some i2
    /\ Static R entries (cacheEntry (clearCache i1))
    /\ Back (decodeInternalKey i2) r j e'.
Proof.
  intros Hst Hkv Hcv Hap Hr Hoff Hj Hfuel.
  destruct (restartIdx_In r Hr) as (e & He & Hsh).
  destruct (mid_start i r e Hst Hkv Hcv Hap He Hoff Hsh) as (i1 & Hre & Hmid).
  destruct (mid_loop r j fuel _ r e Hmid ltac:(lia) Hfuel) as (i2 & e' & Hloop & Hmid2).
  exists i1, i2, e'. split; [exact Hre |]. split; [exact Hloop |].
  split; [destruct Hmid as (H & _); exact H |].
  apply mid_decode. exact Hmid2.
Qed.

Lemma block_fuel : (length entries <= length (writeBlock R entries))%nat.
Proof.
  rewrite (writeBlock_layout R entries), length_app.
  pose proof (encodeFrom_length R entries 0 []). unfold body. lia.
Qed.

(** [Last] on a block with at least one entry. *)
Lemma Last_spec (i : blockIter) :
  Static R entries i ->
  valid_slice (mem i) (key i) ->
  valid_slice (mem i) (cachedBuf i) ->
  apart i ->
  entries <> [] ->
  exists i' r e,
    Last i = Some i'
    /\ Back i' r (length entries - 1) e
    /\ In r (restartIdx R 0 entries)
    /\ (forall y, In y (restartIdx R 0 entries) -> (y <= r)%nat).
Proof.
  intros Hst Hkv Hcv Hap Hne.
  pose proof (numRestarts_idx i Hst Hne) as Hn.
  pose proof (restartIdx_head Hne) as H0.
  set (ridx := restartIdx R 0 entries) in *.
  assert (Hlen : (1 <= length ridx)%nat).
  { apply lookup_lt_Some in H0. lia. }
  destruct (lookup_lt_is_Some_2 ridx (length ridx - 1)) as [r Hr]; [lia |].
  assert (Hin : In r ridx).
  { apply list_elem_of_In. apply (list_elem_of_lookup_2 _ _ _ Hr). }
  assert (Hmax : forall y, In y ridx -> (y <= r)%nat).
  { intros y Hy. apply list_elem_of_In, list_elem_of_lookup_1 in Hy.
    destruct Hy as [x Hx].
    apply (restartIdx_lookup_mono x (length ridx - 1) y r); [| exact Hx | exact Hr].
    apply lookup_lt_Some in Hx. lia. }
  assert (Hra : restartAt i (numRestarts i - 1) = Z.of_nat (off R entries r)).
  { rewrite Hn. replace (Z.of_nat (length ridx) - 1) with (Z.of_nat (length ridx - 1)) by lia.
    apply (restartAt_spec R entries trailers_ok block_small i _ r Hst Hne Hr). }
  destruct (restartIdx_bounds R entries 0 r Hin) as [Hb _].
  assert (Hentries : (0 < length entries)%nat) by lia.
  assert (Hj : (r <= length entries - 1 < length entries)%nat) by lia.
  assert (Hfuel : (length entries - 1 - r <= length (writeBlock R entries))%nat).
  { pose proof block_fuel. lia. }
  destruct (run_from_restart (set_offset (restartAt i (numRestarts i - 1)) i)
              r (length entries - 1) (length (writeBlock R entries))
              Hst Hkv Hcv Hap Hin Hra Hj Hfuel)
    as (i1 & i2 & e' & Hre & Hloop & Hst1 & Hback).
  exists (decodeInternalKey i2), r, e'.
  split; [| split; [exact Hback | split; assumption]].
  unfold Last. rewrite Hre.
  destruct Hst1 as (Hd1 & Hr1 & _).
  cbv zeta. rewrite Hd1, Hr1.
  rewrite <- (off_all R entries).
  replace (S (length entries - 1)) with (length entries) in Hloop by lia.
  rewrite Hloop. reflexivity.
Qed.

Lemma off_0 : off R entries 0 = 0%nat.
Proof. reflexivity. Qed.

Lemma off_le (a b : nat) :
  (a <= b)%nat -> (b <= length entries)%nat ->
  (off R entries a <= off R entries b)%nat.
Proof.
  intros Hab Hb. destruct (Nat.eq_dec a b) as [-> | Hne]; [lia |].
  pose proof (off_lt a b ltac:(lia) Hb). lia.
Qed.

Lemma restartAt_idx (i : blockIter) (x : Z) :
  Static R entries i -> entries <> [] ->
  0 <= x < Z.of_nat (length (restartIdx R 0 entries)) ->
  exists y,
    restartIdx R 0 entries !! Z.to_nat x = Some y
    /\ restartAt i x = Z.of_nat (off R entries y)
    /\ (y < length entries)%nat.
Proof.
  intros Hst Hne Hx.
  destruct (lookup_lt_is_Some_2 (restartIdx R 0 entries) (Z.to_nat x)) as [y Hy];
    [lia |].
  exists y. split; [exact Hy |]. split.
  - rewrite <- (Z2Nat.id x) at 1 by lia.
    apply (restartAt_spec R entries trailers_ok block_small i _ y Hst Hne Hy).
  - assert (Hin : In y (restartIdx R 0 entries)).
    { apply list_elem_of_In. apply (list_elem_of_lookup_2 _ _ _ Hy). }
    destruct (restartIdx_bounds R entries 0 y Hin) as [Hb _]. lia.
Qed.

(** [Prev] when the cache cannot serve it: the block is read again from
    the restart point before the current entry. *)
Lemma Prev_slow (i : blockIter) (q : nat) :
  Static R entries i ->
  (0 < q <= length entries)%nat ->
  offset i = Z.of_nat (off R entries q) ->
  valid_slice (mem i) (key i) ->
  valid_slice (mem i) (cachedBuf i) ->
  apart i ->
  cache_miss i ->
  exists i' r' e',
    Prev i = Some (i', true)
    /\ Back i' r' (q - 1) e'
    /\ In r' (restartIdx R 0 entries)
    /\ (r' < q)%nat
    /\ (forall y, In y (restartIdx R 0 entries) -> (y < q)%nat -> (y <= r')%nat).
Proof.
  intros Hst [Hq Hqlen] Hoff Hkv Hcv Hap Hcache.
  assert (Hne : entries <> []) by (intros E; rewrite E in Hqlen; simpl in Hqlen; lia).
  pose proof (numRestarts_idx i Hst Hne) as Hn.
  pose proof (restartIdx_head Hne) as H0.
  set (f := fun j : Z => offset i <=? restartAt i j).
  assert (Hoffq : (0 < off R entries q)%nat).
  { pose proof (off_lt 0 q Hq ltac:(lia)). rewrite off_0 in H. exact H. }
  destruct (Search_spec f (numRestarts i)) as (idx & Hs & Hidx & Hlo & Hhi).
  { lia. }
  { intros x y Hxy Hy Hfx. unfold f in *. rewrite Hn in Hy.
    destruct (restartAt_idx i x Hst Hne ltac:(lia)) as (jx & Hjx & Hrx & _).
    destruct (restartAt_idx i y Hst Hne ltac:(lia)) as (jy & Hjy & Hry & Hjyl).
    rewrite Hrx in Hfx. rewrite Hry. apply Z.leb_le in Hfx. apply Z.leb_le.
    pose proof (restartIdx_lookup_mono (Z.to_nat x) (Z.to_nat y) jx jy
                  ltac:(lia) Hjx Hjy) as Hle.
    pose proof (off_le jx jy Hle ltac:(lia)). lia. }
  assert (Hpos : 0 < idx).
  { destruct (Z.eq_dec idx 0) as [Hz | Hnz]; [| lia]. exfalso.
    assert (Hf0 : f 0 = true).
    { apply Hhi. apply lookup_lt_Some in H0. lia. }
    unfold f in Hf0.
    destruct (restartAt_idx i 0 Hst Hne) as (j0 & Hj0 & Hr0 & _).
    { apply lookup_lt_Some in H0. lia. }
    change (Z.to_nat 0) with 0%nat in Hj0. rewrite H0 in Hj0.
    inversion Hj0; subst j0. rewrite Hr0, off_0, Hoff in Hf0.
    apply Z.leb_le in Hf0. lia. }
  destruct (restartAt_idx i (idx - 1) Hst Hne ltac:(lia)) as (r' & Hr' & Hra & Hr'l).
  assert (Hin : In r' (restartIdx R 0 entries)).
  { apply list_elem_of_In. apply (list_elem_of_lookup_2 _ _ _ Hr'). }
  assert (Hlt : (r' < q)%nat).
  { pose proof (Hlo (idx - 1) ltac:(lia)) as Hf. unfold f in Hf.
    rewrite Hra, Hoff in Hf. apply Z.leb_gt in Hf.
    destruct (Nat.le_gt_cases q r') as [Hle |]; [| assumption].
    pose proof (off_le q r' Hle ltac:(lia)). lia. }
  assert (Hmax : forall y, In y (restartIdx R 0 entries) -> (y < q)%nat -> (y <= r')%nat).
  { intros y Hy Hyq. apply list_elem_of_In, list_elem_of_lookup_1 in Hy.
    destruct Hy as [x Hx].
    destruct (Z_lt_le_dec (Z.of_nat x) idx) as [Hxl | Hxg].
    - apply (restartIdx_lookup_mono x (Z.to_nat (idx - 1)) y r'); [lia | exact Hx | exact Hr'].
    - exfalso.
      assert (Hxn : Z.of_nat x < numRestarts i).
      { rewrite Hn. apply lookup_lt_Some in Hx. lia. }
      pose proof (Hhi (Z.of_nat x) ltac:(lia)) as Hf. unfold f in Hf.
      destruct (restartAt_idx i (Z.of_nat x) Hst Hne ltac:(lia)) as (y' & Hy' & Hry & _).
      rewrite Nat2Z.id, Hx in Hy'. inversion Hy'; subst y'.
      rewrite Hry, Hoff in Hf. apply Z.leb_le in Hf.
      pose proof (off_lt y q Hyq ltac:(lia)). lia. }
  assert (Hj : (r' <= q - 1 < length entries)%nat) by lia.
  assert (Hfuel : (q - 1 - r' <= length (writeBlock R entries))%nat).
  { pose proof block_fuel. lia. }
  set (ist := set_offset (restartAt (set_offset 0 i) (idx - 1)) (set_offset 0 i)).
  assert (Hoffs : offset ist = Z.of_nat (off R entries r')) by exact Hra.
  destruct (run_from_restart ist r' (q - 1) (length (writeBlock R entries))
              Hst Hkv Hcv Hap Hin Hoffs Hj Hfuel)
    as (i1 & i2 & e' & Hre & Hloop & Hst1 & Hback).
  exists (decodeInternalKey i2), r', e'.
  split; [| split; [exact Hback | split; [exact Hin | split; [exact Hlt | exact Hmax]]]].
  unfold Prev. unfold cache_miss in Hcache. rewrite Hcache.
  assert (Hnz : (offset i =? 0) = false) by (apply Z.eqb_neq; lia).
  rewrite Hnz. fold f. rewrite Hs.
  assert (Hip : (0 <? idx) = true) by (apply Z.ltb_lt; exact Hpos).
  rewrite Hip. fold ist. rewrite Hre.
  destruct Hst1 as (Hd1 & _).
  cbv zeta. rewrite Hd1, Hoff.
  replace (S (q - 1)) with q in Hloop by lia.
  rewrite Hloop. reflexivity.
Qed.

(** The iterator is at entry [q] and the cache holds the entries from
    [r] to [q]; nothing is said of where the keys live. *)
Definition Weak (i : blockIter) (r q : nat) (e : entry) : Prop :=
  Static R entries i
  /\ entries !! q = Some e
  /\ (r <= q)%nat
  /\ offset i = Z.of_nat (off R entries q)
  /\ Key i = fst e
  /\ Value i = snd e
  /\ length (cached i) = S (q - r)
  /\ (forall k c, cached i !! k = Some c -> record_ok (mem i) c (r + k)).

Lemma Back_Weak (i : blockIter) (r q : nat) (e : entry) :
  Back i r q e -> Weak i r q e.
Proof.
  intros ((Hst & He & Hrq & Hoff & _ & _ & _ & _ & _ & _ & _ & Hlen & Hrec) & Hk & Hv).
  unfold Weak. repeat (split; [assumption |]).
  intros k c Hc. apply (Hrec k c Hc).
Qed.

Lemma Weak_valid (i : blockIter) (r q : nat) (e : entry) :
  Weak i r q e -> Valid i = true.
Proof.
  intros ((_ & Hr & _) & He & _ & Hoff & _).
  unfold Valid. rewrite Hoff, Hr.
  pose proof (off_lt_body R entries q (lookup_lt_Some _ _ _ He)).
  apply andb_true_intro. split; [apply Z.leb_le | apply Z.ltb_lt]; lia.
Qed.

(** [Prev] served by the cache. *)
Lemma Prev_fast (i : blockIter) (r q : nat) (e : entry) :
  Weak i r q e -> (r < q)%nat ->
  exists i' e', Prev i = Some (i', true) /\ Weak i' r (q - 1) e'.
Proof.
  intros (Hst & He & Hrq & Hoff & Hk & Hv & Hlen & Hrec) Hlt.
  destruct (lookup_lt_is_Some_2 (cached i) (q - r)) as [cn Hcn]; [lia |].
  destruct (lookup_lt_is_Some_2 (cached i) (q - r - 1)) as [cp Hcp]; [lia |].
  destruct (Hrec _ _ Hcn) as (en & N1 & N2 & _).
  destruct (Hrec _ _ Hcp) as (ep & P1 & P2 & P3 & P4 & P5).
  replace (r + (q - r))%nat with q in N1, N2 by lia.
  replace (r + (q - r - 1))%nat with (q - 1)%nat in P1, P2 by lia.
  set (n := Z.of_nat (length (cached i)) - 1).
  assert (Hn : n = Z.of_nat (q - r)) by (unfold n; lia).
  set (i4 := set_val (e_val cp) (set_key (e_key cp)
               (set_offset (e_offset cp) (set_nextOffset (offset i) i)))).
  destruct (decodeInternalKey_fields i4)
    as (F1 & F2 & F3 & F4 & F5 & F6 & F7 & F8 & F9 & F10 & F11).
  exists (set_cached (take (Z.to_nat n) (cached (decodeInternalKey i4)))
            (decodeInternalKey i4)), ep.
  split.
  - unfold Prev. fold n.
    assert (H0 : (0 <? n) = true) by (apply Z.ltb_lt; lia).
    rewrite H0, !nth_error_is_lookup.
    replace (Z.to_nat n) with (q - r)%nat by lia.
    replace (Z.to_nat (n - 1)) with (q - r - 1)%nat by lia.
    rewrite Hcn, Hcp, N2, <- Hoff, Z.eqb_refl. reflexivity.
  - destruct Hst as (S1 & S2 & S3 & S4).
    unfold Weak, Static.
    cbn [offset nextOffset restarts numRestarts globalSeqNum data key val mem
         cached set_cached].
    rewrite F1, F3, F4, F5, F6, F9, F10.
    split; [repeat split; assumption |].
    split; [exact P1 |]. split; [lia |]. split; [exact P2 |].
    split.
    { change (Key (set_cached _ (decodeInternalKey i4)))
        with (Key (decodeInternalKey i4)).
      apply decodeInternalKey_spec.
      - exact S4.
      - exact P4.
      - exact P5.
      - apply trailers_ok. apply list_elem_of_In.
        apply (list_elem_of_lookup_2 _ _ _ P1). }
    split.
    { unfold Value. cbn [val set_cached]. rewrite F8. exact P3. }
    split.
    { rewrite length_take. cbn [cached set_val set_key set_offset set_nextOffset i4].
      lia. }
    intros k c Hc.
    apply lookup_take_Some in Hc. destruct Hc as [Hc _].
    apply (Hrec k c Hc).
Qed.

(** [Prev] at the first entry. *)
Lemma Prev_first (i : blockIter) (e : entry) :
  Weak i 0 0 e ->
  exists i', Prev i = Some (i', false) /\ Valid i' = false.
Proof.
  intros (Hst & He & _ & Hoff & _ & _ & Hlen & _).
  exists (set_nextOffset 0 (set_offset (-1) i)). split.
  - unfold Prev. rewrite Hlen. simpl Z.sub.
    change (0 <? 0) with false. cbv iota.
    rewrite Hoff, off_0. reflexivity.
  - reflexivity.
Qed.

Lemma collectPrev_invalid (fuel : nat) (i : blockIter) :
  Valid i = false -> collectPrev fuel i = Some [].
Proof.
  intros H. destruct fuel; cbn [collectPrev]; rewrite H; reflexivity.
Qed.

(** Walking back through a cache that starts at the first entry. *)
Lemma collectPrev_weak (q : nat) :
  forall (fuel : nat) (i : blockIter) (e : entry),
    Weak i 0 q e -> (q < fuel)%nat ->
    collectPrev fuel i = Some (rev (take (S q) entries)).
Proof.
  induction q as [| q IH]; intros fuel i e Hw Hfuel.
  - destruct fuel as [| fuel]; [lia |].
    cbn [collectPrev]. rewrite (Weak_valid i 0 0 e Hw).
    destruct (Prev_first i e Hw) as (i' & Hp & Hinv).
    rewrite Hp, (collectPrev_invalid fuel i' Hinv).
    destruct Hw as (_ & He & _ & _ & Hk & Hv & _).
    rewrite Hk, Hv. rewrite (take_S_r entries 0 e He). simpl.
    destruct e; reflexivity.
  - destruct fuel as [| fuel]; [lia |].
    cbn [collectPrev]. rewrite (Weak_valid i 0 (S q) e Hw).
    destruct (Prev_fast i 0 (S q) e Hw ltac:(lia)) as (i' & e' & Hp & Hw').
    replace (S q - 1)%nat with q in Hw' by lia.
    rewrite Hp, (IH fuel i' e' Hw') by lia.
    destruct Hw as (_ & He & _ & _ & Hk & Hv & _).
    rewrite Hk, Hv. rewrite (take_S_r entries (S q) e He), rev_app_distr.
    simpl. destruct e; reflexivity.
Qed.

(** Every restart interval after the first holds a single entry. *)
Definition lone_restarts : Prop :=
  forall x, In x (restartIdx R 0 entries) -> (0 < x)%nat ->
    In (S x) (restartIdx R 0 entries) \/ S x = length entries.

(** Walking back from entry [q] when the cache is never used across a
    restart point. *)
Lemma collectPrev_back (q : nat) :
  lone_restarts ->
  forall (fuel : nat) (i : blockIter) (r : nat) (e : entry),
    Back i r q e -> (r = 0 \/ r = q)%nat -> (q < fuel)%nat ->
    collectPrev fuel i = Some (rev (take (S q) entries)).
Proof.
  intros Hlone. induction q as [| q IH]; intros fuel i r e Hb Hr Hfuel.
  - assert (r = 0)%nat by lia. subst r.
    apply (collectPrev_weak 0 fuel i e (Back_Weak i 0 0 e Hb) Hfuel).
  - destruct Hr as [-> | ->].
    { apply (collectPrev_weak (S q) fuel i e (Back_Weak i 0 (S q) e Hb) Hfuel). }
    destruct fuel as [| fuel]; [lia |].
    cbn [collectPrev]. rewrite (Weak_valid i (S q) (S q) e (Back_Weak _ _ _ _ Hb)).
    pose proof Hb as ((Hst & He & _ & Hoff & _ & _ & _ & Hkv & _ & Hcv & Hne & Hlen & _)
                       & Hk & Hv).
    assert (Hq : (S q < length entries)%nat) by (apply lookup_lt_Some in He; exact He).
    destruct (Prev_slow i (S q) Hst ltac:(lia) Hoff Hkv Hcv (or_introl Hne))
      as (i' & r' & e' & Hp & Hb' & Hin & Hlt & Hmax).
    { apply cache_miss_short. rewrite Hlen. lia. }
    replace (S q - 1)%nat with q in Hb' by lia.
    assert (Hr' : (r' = 0 \/ r' = q)%nat).
    { destruct (Nat.eq_dec r' 0%nat) as [| Hnz]; [left; assumption | right].
      destruct (Hlone r' Hin ltac:(lia)) as [Hs | Hs]; [| lia].
      destruct (Nat.lt_ge_cases (S r') (S q)) as [Hlt' | Hge]; [| lia].
      pose proof (Hmax (S r') Hs Hlt'). lia. }
    rewrite Hp, (IH fuel i' r' e' Hb' Hr') by lia.
    rewrite Hk, Hv. rewrite (take_S_r entries (S q) e He), rev_app_distr.
    simpl. destruct e; reflexivity.
Qed.

(** After [Last], under the same condition, the backward walk returns
    every entry. *)
Lemma collectPrev_from_Last (i : blockIter) :
  lone_restarts ->
  Static R entries i ->
  valid_slice (mem i) (key i) ->
  valid_slice (mem i) (cachedBuf i) ->
  apart i ->
  entries <> [] ->
  exists i',
    Last i = Some i'
    /\ collectPrev (length (writeBlock R entries)) i' = Some (rev entries).
Proof.
  intros Hlone Hst Hkv Hcv Hap Hne.
  destruct (Last_spec i Hst Hkv Hcv Hap Hne) as (i' & r & e & Hlast & Hb & Hin & Hmax).
  exists i'. split; [exact Hlast |].
  assert (Hlen : (0 < length entries)%nat).
  { destruct entries; [contradiction | simpl; lia]. }
  rewrite (collectPrev_back (length entries - 1) Hlone _ i' r e Hb).
  - replace (S (length entries - 1)) with (length entries) by lia.
    rewrite firstn_all. reflexivity.
  - destruct (Nat.eq_dec r 0%nat) as [| Hnz]; [left; assumption | right].
    destruct (Hlone r Hin ltac:(lia)) as [Hs | Hs]; [| lia].
    pose proof (Hmax (S r) Hs). lia.
  - pose proof block_fuel. lia.
Qed.

(** The writer's restart points are the multiples of the interval. *)
Lemma restartIdx_complete (l : list entry) :
  forall (n x : nat),
    (n <= x < n + length l)%nat -> Z.rem (Z.of_nat x) R = 0 ->
    In x (restartIdx R n l).
Proof.
  induction l as [| e l IH]; intros n x Hx Hz; [simpl in Hx; lia |].
  cbn [restartIdx]. apply in_or_app.
  destruct (Nat.eq_dec x n) as [-> | Hne].
  - left. rewrite Hz. simpl. left. reflexivity.
  - right. apply IH; [simpl in Hx; lia | exact Hz].
Qed.

Lemma lone_restarts_when :
  1 <= R ->
  R = 1 \/ Z.of_nat (length entries) <= R + 1 ->
  lone_restarts.
Proof.
  intros HR Hc x Hx Hpos.
  destruct (restartIdx_bounds R entries 0 x Hx) as [Hb Hz].
  destruct (Nat.eq_dec (S x) (length entries)) as [| Hne]; [right; assumption | left].
  apply restartIdx_complete; [lia |].
  destruct Hc as [-> | Hc]; [apply Z.rem_1_r |].
  exfalso.
  apply Z.rem_divide in Hz; [| lia].
  destruct Hz as [k Hk].
  assert (Hk1 : 1 <= k) by nia.
  assert (Z.of_nat x < R + 1 - 1) by lia.
  nia.
Qed.

End Backward.

(** *** Moving forward keeps the buffers apart *)

Definition Clean (i : blockIter) : Prop :=
  valid_slice (mem i) (key i) /\ valid_slice (mem i) (cachedBuf i) /\ apart i.

Lemma readEntry_valid (i i' : blockIter) :
  readEntry i = Some i' ->
  valid_slice (mem i) (key i) -> valid_slice (mem i') (key i').
Proof.
  unfold readEntry. intros H (Harr & Hcap & Hlen).
  destruct (decodeVarint (data i) (offset i)) as [shared p1].
  destruct (decodeVarint (data i) p1) as [unshared p2].
  destruct (decodeVarint (data i) p2) as [value p3].
  unfold reslice in H.
  destruct (Nat.leb_spec (Z.to_nat shared) (s_cap (key i))) as [Hsh | Hsh];
    [| discriminate].
  set (s := {| s_arr := s_arr (key i); s_off := s_off (key i);
               s_len := Z.to_nat shared; s_cap := s_cap (key i) |}) in *.
  assert (Hs : valid_slice (mem i) s) by (unfold valid_slice; simpl; auto).
  destruct (go_append_spec (mem i) s (getBytes (data i) p3 unshared) Hs)
    as (_ & Hv & _).
  destruct (go_append (mem i) s (getBytes (data i) p3 unshared)) as [m k].
  simpl in Hv. inversion H; subst i'; clear H.
  unfold set_nextOffset, set_val, set_key, set_mem; simpl.
  apply (clip_spec m k Hv).
Qed.

Lemma readEntry_clean (i i' : blockIter) :
  readEntry i = Some i' -> Clean i -> Clean i' /\ cached i' = cached i.
Proof.
  intros Hre (Hkv & Hcv & Hap).
  destruct (readEntry_apart i i' Hre Hkv Hcv Hap) as (Hap' & Hcv').
  destruct (readEntry_frame i i' Hre Hkv) as (_ & _ & _ & Hca & _).
  split; [| exact Hca].
  split; [apply (readEntry_valid i i' Hre Hkv) |]. split; assumption.
Qed.

Lemma decodeInternalKey_clean (i : blockIter) :
  Clean i -> Clean (decodeInternalKey i).
Proof.
  destruct (decodeInternalKey_fields i)
    as (_ & _ & _ & _ & _ & _ & F7 & _ & F9 & _ & F11).
  unfold Clean, apart. rewrite F7, F9, F11. auto.
Qed.

Lemma loadEntry_clean (i i' : blockIter) :
  loadEntry i = Some i' -> Clean i -> Clean i' /\ cached i' = cached i.
Proof.
  unfold loadEntry. intros H Hc.
  destruct (readEntry i) as [i1 |] eqn:Hre; [| discriminate].
  inversion H; subst i'; clear H.
  destruct (readEntry_clean i i1 Hre Hc) as (Hc1 & Hca).
  split; [apply decodeInternalKey_clean; exact Hc1 |].
  destruct (decodeInternalKey_fields i1) as (_ & _ & _ & _ & _ & _ & _ & _ & _ & F10 & _).
  rewrite F10. exact Hca.
Qed.

Lemma Next_clean (i i' : blockIter) (b : bool) :
  Next i = Some (i', b) -> Clean i -> Clean i' /\ cached i' = cached i.
Proof.
  unfold Next. intros H Hc.
  destruct (negb (Valid (set_offset (nextOffset i) i))).
  - inversion H; subst. split; [exact Hc | reflexivity].
  - destruct (loadEntry (set_offset (nextOffset i) i)) as [i1 |] eqn:Hl; [| discriminate].
    inversion H; subst. apply (loadEntry_clean _ _ Hl). exact Hc.
Qed.

Lemma seekLoop_clean (cmp : list byte -> list byte -> Z) (ikey : InternalKey)
    (fuel : nat) :
  forall (i i' : blockIter),
    seekLoop cmp fuel ikey i = Some i' -> Clean i ->
    Clean i' /\ cached i' = cached i.
Proof.
  induction fuel as [| fuel IH]; intros i i' H Hc; cbn [seekLoop] in H.
  - destruct (Valid i); [| inversion H; subst; auto].
    destruct (0 <=? InternalCompare cmp (Key i) ikey); [| discriminate].
    inversion H; subst; auto.
  - destruct (Valid i); [| inversion H; subst; auto].
    destruct (0 <=? InternalCompare cmp (Key i) ikey); [inversion H; subst; auto |].
    destruct (Next i) as [[i1 b] |] eqn:Hn; [| discriminate].
    destruct (Next_clean i i1 b Hn Hc) as (Hc1 & Hca1).
    destruct (IH i1 i' H Hc1) as (Hc' & Hca').
    split; [exact Hc' | congruence].
Qed.

Lemma SeekGE_clean (cmp : list byte -> list byte -> Z) (i i' : blockIter)
    (k : list byte) :
  SeekGE cmp i k = Some i' -> Clean i -> Clean i' /\ cached i' = cached i.
Proof.
  unfold SeekGE. intros H Hc.
  destruct (Search _ _) as [index |]; [| discriminate].
  match type of H with
  | match loadEntry ?s with _ => _ end = _ =>
      assert (Hcs : Clean s /\ cached s = cached i)
        by (destruct (0 <? index); split; first [exact Hc | reflexivity]);
      destruct (loadEntry s) as [i1 |] eqn:Hl; [| discriminate]
  end.
  destruct Hcs as (Hcs & Hcas).
  destruct (loadEntry_clean _ _ Hl Hcs) as (Hc1 & Hca1).
  destruct (seekLoop_clean cmp _ _ _ _ H Hc1) as (Hc' & Hca').
  split; [exact Hc' | congruence].
Qed.

Lemma newBlockIter_clean (oracle : list nat) (block : list byte) (i : blockIter) :
  newBlockIter oracle block = Ok i -> Clean i /\ cached i = [].
Proof.
  unfold newBlockIter, init. intros H.
  destruct (Z.of_nat (length block) <? 4); [discriminate |].
  destruct (Uint32 block (Z.of_nat (length block) - 4) =? 0); [discriminate |].
  destruct (make_spec {| arrays := []; slack := oracle |} 256) as [Hv _].
  destruct (make {| arrays := []; slack := oracle |} 256) as [m k] eqn:Hm.
  inversion H; subst i; clear H. simpl.
  split; [| reflexivity]. unfold Clean; simpl.
  split; [exact Hv |]. split; [| right; reflexivity].
  unfold make in Hm. inversion Hm; subst.
  unfold valid_slice, nil_slice; simpl. lia.
Qed.

(** *** Last and backward iteration *)

Lemma last_is_lookup {A : Type} (l : list A) :
  last l = l !! (length l - 1)%nat.
Proof.
  induction l as [| x l IH]; [reflexivity |].
  destruct l as [| y l]; [reflexivity |].
  change (last (x :: y :: l)) with (last (y :: l)). rewrite IH.
  simpl. rewrite Nat.sub_0_r. reflexivity.
Qed.

(** X19: [Last] on a new iterator over a written block that is not
    empty positions it at the last entry added: the iterator is valid
    and [Key] and [Value] return that entry. *)
Theorem Last_positions_at_last_entry
    (R : Z) (entries : list entry) (oracle : list nat) (e : entry) :
  1 <= R ->
  (forall e, In e entries -> 0 <= Trailer (fst e) < 2 ^ 64) ->
  Z.of_nat (length (writeBlock R entries)) < 2 ^ 32 ->
  last entries = Some e ->
  exists i0 i,
    newBlockIter oracle (writeBlock R entries) = Ok i0
    /\ Last i0 = Some i
    /\ Valid i = true
    /\ Key i = fst e
    /\ Value i = snd e.
Proof.
  intros _ Htr Hsmall Hlast.
  destruct (newBlockIter_spec R entries Htr Hsmall oracle) as (i0 & Hnew & Hst & Hv & _).
  destruct (newBlockIter_clean oracle _ i0 Hnew) as ((Hkv & Hcv & Hap) & _).
  assert (Hne : entries <> []) by (intros E; rewrite E in Hlast; discriminate).
  destruct (Last_spec R entries Htr Hsmall i0 Hst Hkv Hcv Hap Hne)
    as (i & r & e' & HL & Hb & _).
  exists i0, i. split; [exact Hnew |]. split; [exact HL |].
  split; [apply (Weak_valid R entries i r (length entries - 1) e'), Back_Weak;
          exact Hb |].
  destruct Hb as ((_ & He' & _) & Hk & Hval).
  rewrite last_is_lookup, He' in Hlast. inversion Hlast; subst e'.
  split; assumption.
Qed.

Lemma Last_positions_at_last_entry_witness :
  exists i0 i,
    newBlockIter [] sample_block = Ok i0
    /\ Last i0 = Some i
    /\ Valid i = true
    /\ Key i = sample_key "f"
    /\ Value i = ["6"%byte].
Proof.
  apply (Last_positions_at_last_entry 2 sample_entries []
           (sample_key "f", ["6"%byte])).
  - lia.
  - intros e He. simpl in He.
    repeat (destruct He as [<- | He]; [vm_compute; split; congruence |]).
    contradiction.
  - vm_compute. reflexivity.
  - reflexivity.
Defined.

Lemma iterateBackward_empty (R : Z) (oracle : list nat) :
  iterateBackward oracle (writeBlock R []) = Some [].
Proof. reflexivity. Qed.

(** X20: backward iteration over a written block, [Last] and then [Prev]
    until the iterator is no longer valid, returns every entry in
    reverse order when the restart interval is 1 or when the block has
    at most one entry more than a restart interval holds.  In these
    blocks [Prev] never has to read the block again after it has been
    served from the cache. *)
Theorem backward_iteration_returns_reversed
    (R : Z) (entries : list entry) (oracle : list nat) :
  1 <= R ->
  R = 1 \/ Z.of_nat (length entries) <= R + 1 ->
  (forall e, In e entries -> 0 <= Trailer (fst e) < 2 ^ 64) ->
  Z.of_nat (length (writeBlock R entries)) < 2 ^ 32 ->
  iterateBackward oracle (writeBlock R entries) = Some (rev entries).
Proof.
  intros HR Hshape Htr Hsmall.
  destruct (decide (entries = [])) as [-> | Hne].
  { apply iterateBackward_empty. }
  unfold iterateBackward.
  destruct (newBlockIter_spec R entries Htr Hsmall oracle) as (i0 & Hnew & Hst & Hv & _).
  destruct (newBlockIter_clean oracle _ i0 Hnew) as ((Hkv & Hcv & Hap) & _).
  rewrite Hnew.
  destruct (collectPrev_from_Last R entries Htr Hsmall i0
              (lone_restarts_when R entries Hsmall HR Hshape) Hst Hkv Hcv Hap Hne)
    as (i & HL & Hc).
  rewrite HL. exact Hc.
Qed.

Lemma backward_iteration_returns_reversed_witness :
  iterateBackward [] (writeBlock 1 sample_entries) = Some (rev sample_entries)
  /\ iterateBackward [] (writeBlock 5 sample_entries) = Some (rev sample_entries).
Proof.
  split.
  - apply (backward_iteration_returns_reversed 1 sample_entries []).
    + lia.
    + left. reflexivity.
    + intros e He. simpl in He.
      repeat (destruct He as [<- | He]; [vm_compute; split; congruence |]).
      contradiction.
    + vm_compute. reflexivity.
  - apply (backward_iteration_returns_reversed 5 sample_entries []).
    + lia.
    + right. simpl. lia.
    + intros e He. simpl in He.
      repeat (destruct He as [<- | He]; [vm_compute; split; congruence |]).
      contradiction.
    + vm_compute. reflexivity.
Defined.

(** *** Stepping back from where SeekGE landed *)

Lemma search_loop_bounds (f : Z -> bool) (fuel : nat) :
  forall (i j r : Z),
    search_loop fuel f i j = Some r -> i <= j -> i <= r <= j.
Proof.
  induction fuel as [| fuel IH]; intros i j r H Hij; cbn [search_loop] in H.
  - destruct (Z.ltb_spec i j); [discriminate |]. inversion H; subst. lia.
  - destruct (Z.ltb_spec i j) as [Hlt | Hge]; [| inversion H; subst; lia].
    assert (Hh : i <= (i + j) / 2 < j).
    { split; [apply Z.div_le_lower_bound; lia | apply Z.div_lt_upper_bound; lia]. }
    destruct (negb (f ((i + j) / 2))).
    + apply IH in H; lia.
    + apply IH in H; lia.
Qed.

Lemma Next_false (i i' : blockIter) :
  Next i = Some (i', false) -> i' = set_offset (nextOffset i) i.
Proof.
  unfold Next. destruct (negb (Valid (set_offset (nextOffset i) i))).
  - intros H. inversion H. reflexivity.
  - destruct (loadEntry _); intros H; inversion H.
Qed.

(** What no move of the iterator changes. *)
Definition same_block (i i' : blockIter) : Prop :=
  data i' = data i /\ restarts i' = restarts i
  /\ numRestarts i' = numRestarts i /\ globalSeqNum i' = globalSeqNum i.

Lemma readEntry_same_block (i i' : blockIter) :
  readEntry i = Some i' -> same_block i i'.
Proof.
  unfold readEntry. intros H.
  destruct (decodeVarint (data i) (offset i)) as [shared p1].
  destruct (decodeVarint (data i) p1) as [unshared p2].
  destruct (decodeVarint (data i) p2) as [value p3].
  destruct (reslice (key i) (Z.to_nat shared)) as [s |]; [| discriminate].
  destruct (go_append (mem i) s (getBytes (data i) p3 unshared)) as [m k].
  inversion H; subst i'. repeat split.
Qed.

Lemma loadEntry_same_block (i i' : blockIter) :
  loadEntry i = Some i' -> same_block i i'.
Proof.
  unfold loadEntry. intros H.
  destruct (readEntry i) as [i1 |] eqn:Hre; [| discriminate].
  inversion H; subst i'.
  destruct (readEntry_same_block i i1 Hre) as (H1 & H2 & H3 & H4).
  destruct (decodeInternalKey_fields i1) as (_ & _ & F3 & F4 & F5 & F6 & _).
  unfold same_block. rewrite F3, F4, F5, F6. auto.
Qed.

Lemma Next_same_block (i i' : blockIter) (b : bool) :
  Next i = Some (i', b) -> same_block i i'.
Proof.
  unfold Next. intros H.
  destruct (negb (Valid (set_offset (nextOffset i) i))).
  - inversion H; subst. repeat split.
  - destruct (loadEntry (set_offset (nextOffset i) i)) as [i1 |] eqn:Hl; [| discriminate].
    inversion H; subst. apply (loadEntry_same_block _ _ Hl).
Qed.

Lemma seekLoop_same_block (cmp : list byte -> list byte -> Z) (ikey : InternalKey)
    (fuel : nat) :
  forall (i i' : blockIter),
    seekLoop cmp fuel ikey i = Some i' -> same_block i i'.
Proof.
  induction fuel as [| fuel IH]; intros i i' H; cbn [seekLoop] in H.
  - destruct (Valid i); [| inversion H; subst; repeat split].
    destruct (0 <=? InternalCompare cmp (Key i) ikey); [| discriminate].
    inversion H; subst; repeat split.
  - destruct (Valid i); [| inversion H; subst; repeat split].
    destruct (0 <=? InternalCompare cmp (Key i) ikey);
      [inversion H; subst; repeat split |].
    destruct (Next i) as [[i1 b] |] eqn:Hn; [| discriminate].
    destruct (Next_same_block i i1 b Hn) as (A1 & A2 & A3 & A4).
    destruct (IH i1 i' H) as (B1 & B2 & B3 & B4).
    unfold same_block. repeat split; congruence.
Qed.

Lemma SeekGE_same_block (cmp : list byte -> list byte -> Z) (i i' : blockIter)
    (k : list byte) :
  SeekGE cmp i k = Some i' -> same_block i i'.
Proof.
  unfold SeekGE. intros H.
  destruct (Search _ _) as [index |]; [| discriminate].
  match type of H with
  | match loadEntry ?s with _ => _ end = _ =>
      assert (Hs : same_block i s) by (destruct (0 <? index); repeat split);
      destruct (loadEntry s) as [i1 |] eqn:Hl; [| discriminate]
  end.
  destruct Hs as (A1 & A2 & A3 & A4).
  destruct (loadEntry_same_block _ _ Hl) as (B1 & B2 & B3 & B4).
  destruct (seekLoop_same_block cmp _ _ _ _ H) as (C1 & C2 & C3 & C4).
  unfold same_block. repeat split; congruence.
Qed.

Section SeekEnd.

Variable cmp : list byte -> list byte -> Z.
Variable R : Z.
Variable entries : list entry.

Hypothesis trailers_ok :
  forall e, In e entries -> 0 <= Trailer (fst e) < 2 ^ 64.
Hypothesis block_small :
  Z.of_nat (length (writeBlock R entries)) < 2 ^ 32.

(** When the scan of [SeekGE] runs off the block, the iterator stands at
    the end of the last entry. *)
Lemma seekLoop_end (ikey : InternalKey) (fuel : nat) :
  forall (i i' : blockIter) (j : nat) (e : entry),
    At R entries i j e ->
    seekLoop cmp fuel ikey i = Some i' ->
    Valid i' = false ->
    offset i' = Z.of_nat (off R entries (length entries)).
Proof.
  induction fuel as [| fuel IH]; intros i i' j e Hat H Hinv; cbn [seekLoop] in H;
    rewrite (At_valid R entries i j e Hat) in H.
  - destruct (0 <=? InternalCompare cmp (Key i) ikey); [| discriminate].
    inversion H; subst i'. rewrite (At_valid R entries i j e Hat) in Hinv.
    discriminate.
  - destruct (0 <=? InternalCompare cmp (Key i) ikey).
    { inversion H; subst i'. rewrite (At_valid R entries i j e Hat) in Hinv.
      discriminate. }
    pose proof (Next_at R entries trailers_ok block_small i j e Hat) as Hn.
    destruct (entries !! S j) as [e' |] eqn:He'.
    + destruct Hn as (i1 & Hn & Hat1). rewrite Hn in H.
      apply (IH i1 i' (S j) e' Hat1 H Hinv).
    + destruct Hn as (i1 & Hn & Hinv1). rewrite Hn in H.
      assert (Hs : seekLoop cmp fuel ikey i1 = Some i1).
      { destruct fuel; cbn [seekLoop]; rewrite Hinv1; reflexivity. }
      rewrite Hs in H. inversion H; subst i'.
      apply Next_false in Hn. subst i1. simpl.
      destruct Hat as (_ & He & _ & Hnext & _).
      rewrite Hnext. apply lookup_ge_None in He'. apply lookup_lt_Some in He.
      replace (S j) with (length entries) by lia. reflexivity.
Qed.

Lemma SeekGE_end (i0 i : blockIter) (k : list byte) :
  Static R entries i0 ->
  valid_slice (mem i0) (key i0) ->
  entries <> [] ->
  SeekGE cmp i0 k = Some i ->
  Valid i = false ->
  offset i = Z.of_nat (off R entries (length entries)).
Proof.
  intros Hst Hv Hne H Hinv. unfold SeekGE in H.
  destruct (Search _ _) as [index |] eqn:Hs; [| discriminate].
  unfold Search in Hs. apply search_loop_bounds in Hs.
  2:{ destruct Hst as (_ & _ & Hn & _). simpl. rewrite Hn. lia. }
  simpl in Hs.
  pose proof (numRestarts_idx R entries trailers_ok block_small i0 Hst Hne) as Hn.
  assert (Hstart : exists r e,
            In r (restartIdx R 0 entries) /\ entries !! r = Some e
            /\ offset (if 0 <? index
                       then set_offset (restartAt (set_offset 0 i0) (index - 1))
                              (set_offset 0 i0)
                       else set_offset 0 i0)
               = Z.of_nat (off R entries r)).
  { destruct (Z.ltb_spec 0 index) as [Hpos | Hz].
    - destruct (restartAt_idx R entries trailers_ok block_small i0 (index - 1) Hst Hne)
        as (r & Hr & Hra & _); [lia |].
      assert (Hin : In r (restartIdx R 0 entries)).
      { apply list_elem_of_In. apply (list_elem_of_lookup_2 _ _ _ Hr). }
      destruct (restartIdx_In R entries r Hin) as (e & He & _).
      exists r, e. split; [exact Hin |]. split; [exact He | exact Hra].
    - pose proof (restartIdx_head R entries trailers_ok block_small Hne) as H0.
      assert (Hin : In 0%nat (restartIdx R 0 entries)).
      { apply list_elem_of_In. apply (list_elem_of_lookup_2 _ _ _ H0). }
      destruct (restartIdx_In R entries 0%nat Hin) as (e & He & _).
      exists 0%nat, e. split; [exact Hin |]. split; [exact He | reflexivity]. }
  destruct Hstart as (r & e & Hin & He & Hoff).
  match type of H with
  | match loadEntry ?s with _ => _ end = _ =>
      destruct (loadEntry_at R entries trailers_ok block_small s r e)
        as (i1 & Hl & Hat & _)
  end.
  { destruct (0 <? index); exact Hst. }
  { exact He. }
  { exact Hoff. }
  { destruct (0 <? index); exact Hv. }
  { left. apply (restart_shared R entries). exact Hin. }
  rewrite Hl in H.
  apply (seekLoop_end _ _ i1 i r e Hat H Hinv).
Qed.

End SeekEnd.

(** X21: stepping back from where [SeekGE] landed.  On a block written
    from entries whose keys increase strictly, [SeekGE k] followed by
    [Prev] leaves a new iterator at the last entry whose user key is
    below [k]; when there is no such entry, [Prev] returns false and the
    iterator is not valid.  [Prev] finds that entry by reading the block
    again from the restart point before it. *)
Theorem SeekGE_then_Prev_is_largest_below
    (cmp : list byte -> list byte -> Z) (R : Z) (entries : list entry)
    (oracle : list nat) (k : list byte) :
  comparer_ok cmp ->
  1 <= R ->
  (forall e, In e entries -> 0 <= Trailer (fst e) < 2 ^ 64) ->
  (forall (j : nat) (e1 e2 : entry),
     entries !! j = Some e1 -> entries !! S j = Some e2 ->
     InternalCompare cmp (fst e1) (fst e2) < 0) ->
  Z.of_nat (length (writeBlock R entries)) < 2 ^ 32 ->
  entries <> [] ->
  exists i0 i1 i2 b,
    newBlockIter oracle (writeBlock R entries) = Ok i0
    /\ SeekGE cmp i0 k = Some i1
    /\ Prev i1 = Some (i2, b)
    /\ match last (List.filter (fun e => cmp (UserKey (fst e)) k <? 0) entries) with
       | Some e => b = true /\ Valid i2 = true /\ Key i2 = fst e /\ Value i2 = snd e
       | None => b = false /\ Valid i2 = false
       end.
Proof.
  intros Hcmp _ Htr Hstrict Hsmall Hne.
  assert (Hsorted : forall (j : nat) (e1 e2 : entry),
            entries !! j = Some e1 -> entries !! S j = Some e2 ->
            InternalCompare cmp (fst e1) (fst e2) <= 0).
  { intros j e1 e2 H1 H2. pose proof (Hstrict j e1 e2 H1 H2). lia. }
  assert (Hin : forall q (e : entry), entries !! q = Some e -> In e entries).
  { intros q e Hq. apply list_elem_of_In. apply (list_elem_of_lookup_2 _ _ _ Hq). }
  destruct (newBlockIter_spec R entries Htr Hsmall oracle) as (i0 & Hnew & Hst & Hv & _).
  destruct (newBlockIter_clean oracle _ i0 Hnew) as (Hclean0 & Hca0).
  destruct (SeekGE_from cmp R entries Hcmp Htr Hsmall Hsorted i0 k Hst Hv)
    as (i1 & Hseek & Hres).
  destruct (SeekGE_clean cmp i0 i1 k Hseek Hclean0) as ((Hkv & Hcv & Hap) & Hca1).
  rewrite Hca0 in Hca1.
  assert (Hmiss : cache_miss i1).
  { apply cache_miss_short. rewrite Hca1. simpl. lia. }
  (* the position [j] at which the entries reach [k] *)
  assert (Hpos : exists j,
            (j <= length entries)%nat
            /\ offset i1 = Z.of_nat (off R entries j)
            /\ Static R entries i1
            /\ (forall q x, (q < j)%nat -> entries !! q = Some x ->
                  cmp (UserKey (fst x)) k < 0)
            /\ (forall q x, (j <= q)%nat -> entries !! q = Some x ->
                  0 <= cmp (UserKey (fst x)) k)).
  { destruct Hres as [(j & e & Hat & Hge & Hmin) | (Hinv & Hbelow)].
    - exists j. pose proof Hat as (Hst1 & He & Hoff & _).
      split; [apply lookup_lt_Some in He; lia |].
      split; [exact Hoff |]. split; [exact Hst1 |]. split.
      + intros q x Hq Hx.
        destruct (Z.lt_ge_cases (cmp (UserKey (fst x)) k) 0) as [| Hxge]; [assumption |].
        exfalso.
        assert (Hx' : 0 <= InternalCompare cmp (fst x) (MakeSearchKey k)).
        { apply (IC_search_key cmp (fst x) k (Htr x (Hin q x Hx))). lia. }
        pose proof (Hmin q x Hx Hx') as Hle.
        destruct (lookup_lt_is_Some_2 entries (S q)) as [y Hy].
        { apply lookup_lt_Some in He. lia. }
        pose proof (Hstrict q x y Hx Hy) as Hxy.
        pose proof (sorted_le cmp R entries Hcmp Hsorted (S q) j y e ltac:(lia) Hy He)
          as Hye.
        pose proof (IC_lt_le_trans cmp Hcmp _ _ _ Hxy Hye) as Hxe.
        apply (IC_antisym cmp Hcmp) in Hxe. lia.
      + intros q x Hq Hx.
        apply (IC_search_key cmp (fst x) k (Htr x (Hin q x Hx))).
        apply (IC_ge_le cmp Hcmp).
        apply (IC_trans cmp Hcmp _ (fst e)).
        * apply (IC_ge_le cmp Hcmp). exact Hge.
        * apply (sorted_le cmp R entries Hcmp Hsorted j q e x Hq He Hx).
    - exists (length entries). split; [lia |].
      split; [apply (SeekGE_end cmp R entries Htr Hsmall i0 i1 k Hst Hv Hne Hseek Hinv) |].
      split.
      + destruct (SeekGE_same_block cmp i0 i1 k Hseek) as (B1 & B2 & B3 & B4).
        destruct Hst as (S1 & S2 & S3 & S4).
        unfold Static. repeat split; congruence.
      + split.
        * intros q x _ Hx. pose proof (Hbelow q x Hx) as Hlt.
          pose proof (IC_search_key cmp (fst x) k (Htr x (Hin q x Hx))). lia.
        * intros q x Hq Hx. apply lookup_lt_Some in Hx.
          exfalso. clear -Hq Hx. unfold entry in *. lia. }
  destruct Hpos as (j & Hj & Hoff & Hst1 & Hlo & Hhi).
  assert (Hfilter : List.filter (fun e => cmp (UserKey (fst e)) k <? 0) entries
                    = take j entries).
  { clear -Hlo Hhi Hj. revert j Hj Hlo Hhi.
    induction entries as [| a l IH]; intros j Hj Hlo Hhi.
    - rewrite take_nil. reflexivity.
    - destruct j as [| j].
      + simpl.
        assert (Ha : (cmp (UserKey (fst a)) k <? 0) = false).
        { apply Z.ltb_ge. apply (Hhi 0%nat a); [lia | reflexivity]. }
        rewrite Ha. apply (IH 0%nat); [lia | |].
        * intros q x Hq. lia.
        * intros q x _ Hx. apply (Hhi (S q)); [lia | exact Hx].
      + simpl.
        assert (Ha : (cmp (UserKey (fst a)) k <? 0) = true).
        { apply Z.ltb_lt. apply (Hlo 0%nat a); [lia | reflexivity]. }
        rewrite Ha. f_equal. apply IH; [simpl in Hj; lia | |].
        * intros q x Hq Hx. apply (Hlo (S q)); [lia | exact Hx].
        * intros q x Hq Hx. apply (Hhi (S q)); [lia | exact Hx]. }
  rewrite Hfilter, last_is_lookup, length_take_le by exact Hj.
  destruct j as [| j].
  - (* nothing below [k]: [Prev] at the first entry *)
    exists i0, i1, (set_nextOffset 0 (set_offset (-1) i1)), false.
    split; [exact Hnew |]. split; [exact Hseek |]. split.
    + unfold Prev. unfold cache_miss in Hmiss. rewrite Hmiss.
      rewrite Hoff, (off_0 R entries). reflexivity.
    + simpl. split; reflexivity.
  - destruct (Prev_slow R entries Htr Hsmall i1 (S j) Hst1 ltac:(lia) Hoff Hkv Hcv Hap Hmiss)
      as (i2 & r' & e' & Hp & Hb & _).
    exists i0, i1, i2, true.
    split; [exact Hnew |]. split; [exact Hseek |]. split; [exact Hp |].
    replace (S j - 1)%nat with j in * by lia.
    pose proof (Weak_valid R entries i2 r' j e' (Back_Weak R entries _ _ _ _ Hb)) as Hval.
    destruct Hb as ((_ & He' & _) & Hk & Hvv).
    rewrite lookup_take_lt by lia.
    match goal with
    | |- match ?t with _ => _ end => replace t with (Some e') by (symmetry; exact He')
    end.
    split; [reflexivity |]. split; [exact Hval |]. split; assumption.
Qed.

Lemma SeekGE_then_Prev_is_largest_below_witness :
  exists i0 i1 i2,
    newBlockIter [] sample_block = Ok i0
    /\ SeekGE bytesCompare i0 ["c"%byte] = Some i1
    /\ Prev i1 = Some (i2, true)
    /\ Key i2 = sample_key "b"
    /\ Value i2 = ["2"%byte].
Proof.
  destruct (SeekGE_then_Prev_is_largest_below bytesCompare 2 sample_entries []
              ["c"%byte] bytesCompare_ok)
    as (i0 & i1 & i2 & b & Hnew & Hseek & Hp & Hres).
  - lia.
  - intros e He. simpl in He.
    repeat (destruct He as [<- | He]; [vm_compute; split; congruence |]).
    contradiction.
  - intros j e1 e2 H1 H2.
    do 6 (destruct j as [| j];
          [inversion H1; inversion H2; subst; vm_compute; congruence |]).
    destruct j; discriminate H1.
  - vm_compute. reflexivity.
  - discriminate.
  - match type of Hres with
    | match ?t with _ => _ end =>
        replace t with (Some (sample_key "b", ["2"%byte])) in Hres
          by (vm_compute; reflexivity)
    end.
    destruct Hres as (-> & _ & Hk & Hv).
    exists i0, i1, i2. repeat (split; [assumption |]). assumption.
Defined.

End Block.
